(** * A leveled console logger: line formatting and escaping

    Shallow embedding of the logger of package [log] (renderer, line
    assembler, setters, [With], severity methods) and the properties of
    its text-rendering algorithm.

    Go strings are immutable byte sequences; they are modelled as lists
    of 8-bit characters.  Runes are [int32] code points, modelled in [Z].
    Loggers live in a store addressed by pointers, and slices are views
    (pointer, length, capacity) on backing arrays of that store, so that
    [append] shares or reallocates exactly as the Go runtime does. *)

From Stdlib Require Import ZArith List Ascii String Bool Lia DecimalString.
From stdpp Require Import base tactics option list gmap.
Import ListNotations.

Local Open Scope Z_scope.

(** ** Bytes and strings *)

Definition byte := ascii.
Definition gostring := list byte.

(** A string literal, as the bytes of its UTF-8 source text. *)
Definition go (s : string) : gostring := list_ascii_of_string s.

(** The numeric value of a byte, and Go's conversion [byte(x)], which
    keeps the low eight bits. *)
Definition code (c : byte) : Z := Z.of_N (N_of_ascii c).
Definition chr (z : Z) : byte := ascii_of_N (Z.to_N (z mod 256)).

Definition byte_eqb (a b : byte) : bool := Ascii.eqb a b.

Fixpoint gostring_eqb (s t : gostring) : bool :=
  match s, t with
  | [], [] => true
  | a :: s', b :: t' => byte_eqb a b && gostring_eqb s' t'
  | _, _ => false
  end.

Definition NL : byte := "010"%char.
Definition DQUOTE : byte := "034"%char.
Definition SPACE : byte := " "%char.
Definition BACKSLASH : byte := "\"%char.

(** [strings.IndexByte]: index of the first occurrence of [c], or -1. *)
Fixpoint IndexByte (s : gostring) (c : byte) : Z :=
  match s with
  | [] => -1
  | b :: t =>
      if byte_eqb b c then 0
      else let i := IndexByte t c in if i <? 0 then -1 else i + 1
  end.

(** [strings.Contains(s, "\n")], which the library computes through the
    index of the single byte of the pattern. *)
Definition ContainsNL (s : gostring) : bool := 0 <=? IndexByte s NL.

(** Slice expressions [s[:n]] and [s[n:]] on a string. *)
Definition slice_to (s : gostring) (n : Z) : gostring := firstn (Z.to_nat n) s.
Definition slice_from (s : gostring) (n : Z) : gostring := skipn (Z.to_nat n) s.

(** ** UTF-8, as package [unicode/utf8] decodes and encodes it *)

Module utf8.

Definition RuneError : Z := 0xFFFD.
Definition MaxRune : Z := 0x10FFFF.
Definition RuneSelf : Z := 0x80.

Definition between (lo hi x : Z) : bool := (lo <=? x) && (x <=? hi).

(** A continuation byte of the default range. *)
Definition cont (b : byte) : bool := between 0x80 0xBF (code b).

(** The accepted range of the second byte, by first byte. *)
Definition second_lo (x : Z) : Z :=
  if x =? 0xE0 then 0xA0 else if x =? 0xF0 then 0x90 else 0x80.
Definition second_hi (x : Z) : Z :=
  if x =? 0xED then 0x9F else if x =? 0xF4 then 0x8F else 0xBF.

(** [utf8.DecodeRuneInString]: the first rune of [s] and its width in
    bytes; an invalid or truncated encoding gives [(RuneError, 1)], the
    empty string [(RuneError, 0)]. *)
Definition DecodeRuneInString (s : gostring) : Z * nat :=
  match s with
  | [] => (RuneError, 0%nat)
  | b0 :: t =>
      let x := code b0 in
      if x <? RuneSelf then (x, 1%nat)
      else if between 0xC2 0xDF x then
        match t with
        | b1 :: _ =>
            if cont b1
            then (Z.lor (Z.shiftl (Z.land x 0x1F) 6) (Z.land (code b1) 0x3F), 2%nat)
            else (RuneError, 1%nat)
        | _ => (RuneError, 1%nat)
        end
      else if between 0xE0 0xEF x then
        match t with
        | b1 :: b2 :: _ =>
            if between (second_lo x) (second_hi x) (code b1) && cont b2
            then (Z.lor (Z.lor (Z.shiftl (Z.land x 0x0F) 12)
                               (Z.shiftl (Z.land (code b1) 0x3F) 6))
                        (Z.land (code b2) 0x3F), 3%nat)
            else (RuneError, 1%nat)
        | _ => (RuneError, 1%nat)
        end
      else if between 0xF0 0xF4 x then
        match t with
        | b1 :: b2 :: b3 :: _ =>
            if between (second_lo x) (second_hi x) (code b1) && cont b2 && cont b3
            then (Z.lor (Z.lor (Z.lor (Z.shiftl (Z.land x 0x07) 18)
                                      (Z.shiftl (Z.land (code b1) 0x3F) 12))
                               (Z.shiftl (Z.land (code b2) 0x3F) 6))
                        (Z.land (code b3) 0x3F), 4%nat)
            else (RuneError, 1%nat)
        | _ => (RuneError, 1%nat)
        end
      else (RuneError, 1%nat)
  end.

(** [utf8.ValidRune]: a code point that can be encoded. *)
Definition ValidRune (r : Z) : bool :=
  between 0 0xD7FF r || between 0xE000 MaxRune r.

(** [utf8.EncodeRune], as [bytes.Buffer.WriteRune] appends it; a rune
    that is not valid is written as the encoding of [RuneError]. *)
Definition EncodeRune (r : Z) : gostring :=
  if between 0 0x7F r then [chr r]
  else if between 0x80 0x7FF r then
    [chr (Z.lor 0xC0 (Z.shiftr r 6)); chr (Z.lor 0x80 (Z.land r 0x3F))]
  else if negb (ValidRune r) then
    [chr 0xEF; chr 0xBF; chr 0xBD]
  else if r <=? 0xFFFF then
    [chr (Z.lor 0xE0 (Z.shiftr r 12));
     chr (Z.lor 0x80 (Z.land (Z.shiftr r 6) 0x3F));
     chr (Z.lor 0x80 (Z.land r 0x3F))]
  else
    [chr (Z.lor 0xF0 (Z.shiftr r 18));
     chr (Z.lor 0x80 (Z.land (Z.shiftr r 12) 0x3F));
     chr (Z.lor 0x80 (Z.land (Z.shiftr r 6) 0x3F));
     chr (Z.lor 0x80 (Z.land r 0x3F))].

End utf8.

(** The runes that [for _, r := range s] yields, in order.  Each step
    decodes one rune and moves on by its width, which is at least one
    byte, so the length of [s] bounds the number of steps. *)
Fixpoint range_from (fuel : nat) (s : gostring) : list Z :=
  match fuel with
  | O => []
  | S fuel' =>
      match s with
      | [] => []
      | _ :: _ =>
          let '(r, n) := utf8.DecodeRuneInString s in
          r :: range_from fuel' (skipn n s)
      end
  end.

Definition runes (s : gostring) : list Z := range_from (length s) s.

(** ** What the logger takes from outside these files

    The Go library functions that are tables or depend on the machine,
    and the declarations of the package that its other files hold: the
    severity levels with their names, and the styles of the theme. *)
Record Env := {
  (** [unicode.IsPrint] on the runes above Latin-1 (the range tables). *)
  unicode_IsPrint_table : Z -> bool;
  (** [strings.ToUpper]. *)
  strings_ToUpper : gostring -> gostring;
  (** Operands of [fmt.Sprint] other than [nil] and strings, and their
      default format. *)
  operand : Type;
  fmt_operand : operand -> gostring;
  (** [time.Time] with [Time.Format]. *)
  Time : Type;
  Time_Format : Time -> gostring -> gostring;
  (** [runtime.Caller(skip)]: file and line of a frame, when resolved. *)
  runtime_Caller : Z -> option (gostring * Z);
  (** The verb [%d] of [fmt.Sprintf]. *)
  fmt_int : Z -> gostring;
  (** Spare capacity the runtime adds when [append] reallocates, from
      the old capacity and the length needed. *)
  growslice_spare : nat -> nat -> nat;
  (** [Level.String] and the four level constants. *)
  Level_String : Z -> gostring;
  DebugLevel : Z;
  InfoLevel : Z;
  WarnLevel : Z;
  ErrorLevel : Z;
  (** The [Render] method of each style of the theme. *)
  TimestampSytle : gostring -> gostring;
  LevelStyle : Z -> gostring -> gostring;
  CallerStyle : gostring -> gostring;
  PrefixStyle : gostring -> gostring;
  MessageStyle : gostring -> gostring;
  KeyStyle : gostring -> gostring;
  ValueStyle : gostring -> gostring;
  SeparetorStyle : gostring -> gostring
}.

(** A [bytes.Buffer], by its unread contents, with its write methods. *)
Definition Buffer := gostring.

Definition Write (w : Buffer) (p : gostring) : Buffer := w ++ p.
Definition WriteString (w : Buffer) (s : gostring) : Buffer := w ++ s.
Definition WriteByte (w : Buffer) (c : byte) : Buffer := w ++ [c].
Definition WriteRune (w : Buffer) (r : Z) : Buffer := w ++ utf8.EncodeRune r.

Definition lowerhex : gostring := go "0123456789abcdef".

(** [lowerhex[i]]; every index the code computes is masked to 0..15. *)
Definition hexdigit (i : Z) : byte := nth (Z.to_nat i) lowerhex "000"%char.

(** ** Renderer: escaping and quoting policy *)

Section Renderer.

Context (env : Env).

(** [unicode.IsPrint]: the Latin-1 fast path is the library's property
    table (letters, marks, numbers, punctuation, symbols and the ASCII
    space), the rest is the range tables. *)
Definition IsPrint (r : Z) : bool :=
  if utf8.between 0 0xFF r
  then utf8.between 0x20 0x7E r || (utf8.between 0xA1 0xFF r && negb (r =? 0xAD))
  else unicode_IsPrint_table env r.

Definition needsEscaping (str : gostring) : bool :=
  existsb (fun b => negb (IsPrint b) || (b =? 0x22)) (runes str).

(** The loops [for s := 12 (or 28); s >= 0; s -= 4] that write the hex
    digits of a rune, most significant first. *)
Definition write_hex (bb : Buffer) (r : Z) (shifts : list Z) : Buffer :=
  fold_left (fun b s => WriteByte b (hexdigit (Z.land (Z.shiftr r s) 0xF))) shifts bb.

(** The body of the loop of [writeEscapedForOutput] for one rune. *)
Definition escape_rune (escapeQuotes : bool) (bb : Buffer) (r : Z) : Buffer :=
  if escapeQuotes && (r =? 0x22) then WriteString bb [BACKSLASH; DQUOTE]
  else if IsPrint r then WriteRune bb r
  else if r =? 0x07 then WriteString bb (go "\a")
  else if r =? 0x08 then WriteString bb (go "\b")
  else if r =? 0x0C then WriteString bb (go "\f")
  else if r =? 0x0A then WriteString bb (go "\n")
  else if r =? 0x0D then WriteString bb (go "\r")
  else if r =? 0x09 then WriteString bb (go "\t")
  else if r =? 0x0B then WriteString bb (go "\v")
  else if r <? 0x20 then
    let bb := WriteString bb (go "\x") in
    let bb := WriteByte bb (hexdigit (Z.shiftr (code (chr r)) 4)) in
    WriteByte bb (hexdigit (Z.land (code (chr r)) 0xF))
  else if negb (utf8.ValidRune r) then
    write_hex (WriteString bb (go "\u")) 0xFFFD [12; 8; 4; 0]
  else if r <? 0x10000 then
    write_hex (WriteString bb (go "\u")) r [12; 8; 4; 0]
  else
    write_hex (WriteString bb (go "\U")) r [28; 24; 20; 16; 12; 8; 4; 0].

Definition writeEscapedForOutput (w : Buffer) (str : gostring) (escapeQuotes : bool)
  : Buffer :=
  if negb (needsEscaping str) then Write w str
  else
    let bb : Buffer := [] in
    let bb := fold_left (escape_rune escapeQuotes) (runes str) bb in
    Write w bb.

Definition isNormal (r : Z) : bool := (0x2D <=? r) && (r <=? 0x7E).

Definition needsQuoting (str : gostring) : bool :=
  existsb (fun r => negb (isNormal r)) (runes str).

(** The loop of [writeIndent]; every pass but the last drops at least
    the newline it found, so [S (length str)] passes are enough. *)
Fixpoint writeIndent_loop (fuel : nat) (w : Buffer) (str indent : gostring) : Buffer :=
  match fuel with
  | O => w
  | S fuel' =>
      let nl := IndexByte str NL in
      if nl =? -1 then
        if negb (gostring_eqb str []) then
          let w := Write w indent in
          let w := writeEscapedForOutput w str false in
          Write w [NL]
        else w
      else
        let w := Write w indent in
        let w := writeEscapedForOutput w (slice_to str nl) false in
        let w := Write w [NL] in
        writeIndent_loop fuel' w (slice_from str (nl + 1)) indent
  end.

Definition writeIndent (w : Buffer) (str indent : gostring) : Buffer :=
  writeIndent_loop (S (length str)) w str indent.

End Renderer.

(** [trimCallerPath]: the last two segments of a path. *)
Fixpoint LastIndexByte (s : gostring) (c : byte) : Z :=
  match s with
  | [] => -1
  | b :: t =>
      let i := LastIndexByte t c in
      if 0 <=? i then i + 1 else if byte_eqb b c then 0 else -1
  end.

Definition trimCallerPath (path : gostring) : gostring :=
  let idx := LastIndexByte path "/"%char in
  if idx =? -1 then path
  else
    let idx := LastIndexByte (slice_to path idx) "/"%char in
    if idx =? -1 then path else slice_from path (idx + 1).

(** ** Loggers, slices and the store *)

Section Logger.

Context (env : Env).

(** A value of type [interface{}]: [nil], a string, or another
    operand. *)
Inductive any : Type :=
| AnyNil
| AnyString (s : gostring)
| AnyOperand (v : operand env).

(** [fmt.Sprint] of one operand. *)
Definition Sprint (a : any) : gostring :=
  match a with
  | AnyNil => go "<nil>"
  | AnyString s => s
  | AnyOperand v => fmt_operand env v
  end.

(** An [io.Writer]: [io.Discard], or some other writer. *)
Inductive Writer : Type :=
| Discard
| Sink (id : nat).

Definition Writer_eqb (a b : Writer) : bool :=
  match a, b with
  | Discard, Discard => true
  | Sink i, Sink j => Nat.eqb i j
  | _, _ => false
  end.

(** A slice [[]interface{}]: a view of [len] elements, with room for
    [cap], on the backing array at address [ptr]. *)
Record slice := { ptr : nat; len : nat; cap : nat }.

Definition TimeFunction := unit -> Time env.

Record logger := {
  w : Writer;
  b : Buffer;
  mu : nat;
  level : Z;
  prefix : gostring;
  timeFunc : TimeFunction;
  timeFormat : gostring;
  callerOffset : Z;
  caller : bool;
  noColor : bool;
  timestamp : bool;
  keyvals : slice
}.

Inductive Field :=
| f_w | f_b | f_level | f_prefix | f_timeFunc | f_timeFormat
| f_caller | f_timestamp.

(** The assignment [l.f = v] on a logger value. *)
Definition set_w (v : Writer) (l : logger) : logger :=
  {| w := v; b := b l; mu := mu l; level := level l; prefix := prefix l;
     timeFunc := timeFunc l; timeFormat := timeFormat l;
     callerOffset := callerOffset l; caller := caller l; noColor := noColor l;
     timestamp := timestamp l; keyvals := keyvals l |}.
Definition set_b (v : Buffer) (l : logger) : logger :=
  {| w := w l; b := v; mu := mu l; level := level l; prefix := prefix l;
     timeFunc := timeFunc l; timeFormat := timeFormat l;
     callerOffset := callerOffset l; caller := caller l; noColor := noColor l;
     timestamp := timestamp l; keyvals := keyvals l |}.
Definition set_mu (v : nat) (l : logger) : logger :=
  {| w := w l; b := b l; mu := v; level := level l; prefix := prefix l;
     timeFunc := timeFunc l; timeFormat := timeFormat l;
     callerOffset := callerOffset l; caller := caller l; noColor := noColor l;
     timestamp := timestamp l; keyvals := keyvals l |}.
Definition set_level (v : Z) (l : logger) : logger :=
  {| w := w l; b := b l; mu := mu l; level := v; prefix := prefix l;
     timeFunc := timeFunc l; timeFormat := timeFormat l;
     callerOffset := callerOffset l; caller := caller l; noColor := noColor l;
     timestamp := timestamp l; keyvals := keyvals l |}.
Definition set_prefix (v : gostring) (l : logger) : logger :=
  {| w := w l; b := b l; mu := mu l; level := level l; prefix := v;
     timeFunc := timeFunc l; timeFormat := timeFormat l;
     callerOffset := callerOffset l; caller := caller l; noColor := noColor l;
     timestamp := timestamp l; keyvals := keyvals l |}.
Definition set_timeFunc (v : TimeFunction) (l : logger) : logger :=
  {| w := w l; b := b l; mu := mu l; level := level l; prefix := prefix l;
     timeFunc := v; timeFormat := timeFormat l;
     callerOffset := callerOffset l; caller := caller l; noColor := noColor l;
     timestamp := timestamp l; keyvals := keyvals l |}.
Definition set_timeFormat (v : gostring) (l : logger) : logger :=
  {| w := w l; b := b l; mu := mu l; level := level l; prefix := prefix l;
     timeFunc := timeFunc l; timeFormat := v;
     callerOffset := callerOffset l; caller := caller l; noColor := noColor l;
     timestamp := timestamp l; keyvals := keyvals l |}.
Definition set_caller (v : bool) (l : logger) : logger :=
  {| w := w l; b := b l; mu := mu l; level := level l; prefix := prefix l;
     timeFunc := timeFunc l; timeFormat := timeFormat l;
     callerOffset := callerOffset l; caller := v; noColor := noColor l;
     timestamp := timestamp l; keyvals := keyvals l |}.
Definition set_timestamp (v : bool) (l : logger) : logger :=
  {| w := w l; b := b l; mu := mu l; level := level l; prefix := prefix l;
     timeFunc := timeFunc l; timeFormat := timeFormat l;
     callerOffset := callerOffset l; caller := caller l; noColor := noColor l;
     timestamp := v; keyvals := keyvals l |}.
Definition set_keyvals (v : slice) (l : logger) : logger :=
  {| w := w l; b := b l; mu := mu l; level := level l; prefix := prefix l;
     timeFunc := timeFunc l; timeFormat := timeFormat l;
     callerOffset := callerOffset l; caller := caller l; noColor := noColor l;
     timestamp := timestamp l; keyvals := v |}.

(** The store: the logger structs and the backing arrays, each
    addressed by its index (a new one is put at the end), and the
    number of mutexes made so far. *)
Record store := {
  loggers : list logger;
  arrays : list (list any);
  mutexes : nat
}.

(** The elements a slice shows, in the backing arrays [arrs]. *)
Definition backing (arrs : list (list any)) (s : slice) : list any :=
  default [] (arrs !! ptr s).

Definition elements (arrs : list (list any)) (s : slice) : list any :=
  take (len s) (backing arrs s).

(** The built-in [append(s, xs...)].  With room in the backing array
    the new elements are stored in it, after the [len s] elements that
    [s] shows, and the result shares the array with [s]; without, a
    longer array is made and the elements are copied. *)
Definition append (arrs : list (list any)) (s : slice) (xs : list any)
  : slice * list (list any) :=
  let n := (len s + length xs)%nat in
  if (n <=? cap s)%nat then
    let arr := take (len s) (backing arrs s) ++ xs ++ drop n (backing arrs s) in
    ({| ptr := ptr s; len := n; cap := cap s |}, <[ptr s := arr]> arrs)
  else
    let spare := growslice_spare env (cap s) n in
    let arr := elements arrs s ++ xs ++ replicate spare AnyNil in
    ({| ptr := length arrs; len := n; cap := (n + spare)%nat |}, arrs ++ [arr]).

(** ** Effects: what a call does that the outside can see *)

Inductive Event :=
| EvRLock (m : nat)
| EvRUnlock (m : nat)
| EvLock (m : nat)
| EvUnlock (m : nat)
| EvAssign (p : nat) (f : Field)
| EvTimeFunc
| EvWrite (w : Writer) (p : gostring).

Record state := { heap : store; trace : list Event }.

Inductive result (A : Type) :=
| Ret (a : A)
| Panic.
Arguments Ret {A} a.
Arguments Panic {A}.

Definition M (A : Type) : Type := state -> result A * state.

Definition ret {A} (a : A) : M A := fun s => (Ret a, s).

Definition bind {A B} (m : M A) (k : A -> M B) : M B :=
  fun s => match m s with
           | (Ret a, s') => k a s'
           | (Panic, s') => (Panic, s')
           end.

Definition panic {A} : M A := fun s => (Panic, s).

(** [defer cleanup; body]: the deferred call runs when the body
    returns and also when it panics. *)
Definition defer {A} (cleanup : M unit) (body : M A) : M A :=
  fun s => match body s with
           | (r, s') => (r, snd (cleanup s'))
           end.

Definition emit (e : Event) : M unit :=
  fun s => (Ret tt, {| heap := heap s; trace := trace s ++ [e] |}).

Definition get_store : M store := fun s => (Ret (heap s), s).

Definition put_store (σ : store) : M unit :=
  fun s => (Ret tt, {| heap := σ; trace := trace s |}).

Notation "x <- m ;; k" := (bind m (fun x => k))
  (at level 100, m at level 99, right associativity).
Notation "m ;; k" := (bind m (fun _ => k))
  (at level 100, right associativity).

(** Reading through the pointer [l]; a pointer to nothing panics. *)
Definition load (p : nat) : M logger :=
  fun s => match loggers (heap s) !! p with
           | Some l => (Ret l, s)
           | None => (Panic, s)
           end.

(** The assignment [l.f = ...] through the pointer [l]. *)
Definition assign (p : nat) (f : Field) (upd : logger -> logger) : M unit :=
  l <- load p ;;
  emit (EvAssign p f) ;;
  σ <- get_store ;;
  put_store {| loggers := <[p := upd l]> (loggers σ);
               arrays := arrays σ;
               mutexes := mutexes σ |}.

(** ** Line assembler *)

(** The record up to the message: timestamp, level, caller, prefix and
    message, each written into the buffer as [log] does. *)
Definition write_timestamp (l : logger) (t : Time env) (b : Buffer) : Buffer :=
  if timestamp l then
    let ts := Time_Format env t (timeFormat l) in
    let ts := if negb (noColor l) then TimestampSytle env ts else ts in
    let b := WriteString b ts in
    WriteByte b SPACE
  else b.

Definition write_level (l : logger) (level : Z) (b : Buffer) : Buffer :=
  let lvl := strings_ToUpper env (Level_String env level) in
  let lvl := if negb (noColor l) then LevelStyle env level lvl else lvl in
  let b := WriteString b lvl in
  WriteByte b SPACE.

Definition write_caller (l : logger) (b : Buffer) : Buffer :=
  if caller l then
    match runtime_Caller env (callerOffset l) with
    | Some (file, line) =>
        let caller := trimCallerPath file ++ go ":" ++ fmt_int env line ++ go ":" in
        let caller := if negb (noColor l) then CallerStyle env caller else caller in
        let b := WriteString b caller in
        WriteByte b SPACE
    | None => b
    end
  else b.

Definition write_prefix (l : logger) (b : Buffer) : Buffer :=
  if negb (gostring_eqb (prefix l) []) then
    let prefix := prefix l ++ go ":" in
    let prefix := if negb (noColor l) then PrefixStyle env prefix else prefix in
    let b := WriteString b prefix in
    WriteByte b SPACE
  else b.

Definition write_msg (l : logger) (msg : any) (b : Buffer) : Buffer :=
  match msg with
  | AnyNil => b
  | _ =>
      let m := Sprint msg in
      let m := if negb (noColor l) then MessageStyle env m else m in
      WriteString b m
  end.

(** The body of the loop over the pairs, for the pair [(k, v)]. *)
Definition write_pair (l : logger) (b : Buffer) (k v : any) : Buffer :=
  let key := Sprint k in
  let val := Sprint v in
  let sep := SeparetorStyle env in
  let raw := gostring_eqb val [] in
  let val := if raw then [DQUOTE; DQUOTE] else val in
  let key := if gostring_eqb key [] then go "MISSING_KEY" else key in
  let key := if negb (noColor l) then KeyStyle env key else key in
  let val := if negb (noColor l) then ValueStyle env val else val in
  if ContainsNL val then
    let b := WriteString b (NL :: go "  ") in
    let b := WriteString b key in
    let b := WriteString b (sep (go "=") ++ [NL]) in
    let b := writeIndent env b val (sep (go "  │ ")) in
    WriteByte b SPACE
  else if negb raw && needsQuoting val then
    let b := WriteByte b SPACE in
    let b := WriteString b key in
    let b := WriteString b (sep (go "=")) in
    let b := WriteByte b DQUOTE in
    let b := writeEscapedForOutput env b val true in
    WriteByte b DQUOTE
  else
    let b := WriteByte b SPACE in
    let b := WriteString b key in
    let b := WriteString b (sep (go "=")) in
    WriteString b val.

(** The loop [for i := 0; i < len(keyvals); i += 2] over
    [keyvals[i]] and [keyvals[i+1]]: two elements per pass; a last
    element alone makes the index [i+1] out of range. *)
Fixpoint write_pairs (l : logger) (b : Buffer) (kvs : list any) : option Buffer :=
  match kvs with
  | [] => Some b
  | k :: v :: rest => write_pairs l (write_pair l b k v) rest
  | [_] => None
  end.

(** [append] on the store of a computation. *)
Definition do_append (s : slice) (xs : list any) : M slice :=
  σ <- get_store ;;
  let '(s', arrs) := append (arrays σ) s xs in
  put_store {| loggers := loggers σ; arrays := arrs; mutexes := mutexes σ |} ;;
  ret s'.

Definition log (p : nat) (level : Z) (msg : any) (kvs : list any) : M unit :=
  l <- load p ;;
  emit (EvRLock (mu l)) ;;
  let w0 := w l in
  emit (EvRUnlock (mu l)) ;;
  if Writer_eqb w0 Discard then ret tt
  else
    emit EvTimeFunc ;;
    let t := timeFunc l tt in
    emit (EvLock (mu l)) ;;
    defer (emit (EvUnlock (mu l)))
      (defer (assign p f_b (set_b []))
         (assign p f_b (fun l => set_b (write_timestamp l t (b l)) l) ;;
          assign p f_b (fun l => set_b (write_level l level (b l)) l) ;;
          assign p f_b (fun l => set_b (write_caller l (b l)) l) ;;
          assign p f_b (fun l => set_b (write_prefix l (b l)) l) ;;
          assign p f_b (fun l => set_b (write_msg l msg (b l)) l) ;;
          l <- load p ;;
          keyvals <- do_append (keyvals l) kvs ;;
          keyvals <- (if negb (Nat.eqb (len keyvals mod 2) 0)
                      then do_append keyvals [AnyString (go "MISSING_VALUE")]
                      else ret keyvals) ;;
          σ <- get_store ;;
          match write_pairs l (b l) (elements (arrays σ) keyvals) with
          | None => panic
          | Some b' =>
              assign p f_b (set_b b') ;;
              assign p f_b (fun l => set_b (WriteByte (b l) NL) l) ;;
              l <- load p ;;
              emit (EvWrite (w l) (b l))
          end)).

(** ** Setters *)

Definition EnableTimestamp (p : nat) : M unit :=
  l <- load p ;;
  emit (EvLock (mu l)) ;;
  defer (emit (EvUnlock (mu l)))
    (assign p f_timestamp (set_timestamp true)).

Definition DisableTimestamp (p : nat) : M unit :=
  assign p f_timestamp (set_timestamp false) ;;
  l <- load p ;;
  emit (EvLock (mu l)) ;;
  defer (emit (EvUnlock (mu l))) (ret tt).

Definition EnableCaller (p : nat) : M unit :=
  l <- load p ;;
  emit (EvLock (mu l)) ;;
  defer (emit (EvUnlock (mu l)))
    (assign p f_caller (set_caller true)).

Definition DisableCaller (p : nat) : M unit :=
  l <- load p ;;
  emit (EvLock (mu l)) ;;
  defer (emit (EvUnlock (mu l)))
    (assign p f_caller (set_caller false)).

Definition GetLevel (p : nat) : M Z :=
  l <- load p ;;
  emit (EvRLock (mu l)) ;;
  defer (emit (EvRUnlock (mu l)))
    (l <- load p ;; ret (level l)).

Definition SetLevel (p : nat) (v : Z) : M unit :=
  l <- load p ;;
  emit (EvLock (mu l)) ;;
  defer (emit (EvUnlock (mu l)))
    (assign p f_level (set_level v)).

Definition GetPrefix (p : nat) : M gostring :=
  l <- load p ;;
  emit (EvRLock (mu l)) ;;
  defer (emit (EvRUnlock (mu l)))
    (l <- load p ;; ret (prefix l)).

Definition SetPrefix (p : nat) (v : gostring) : M unit :=
  l <- load p ;;
  emit (EvLock (mu l)) ;;
  defer (emit (EvUnlock (mu l)))
    (assign p f_prefix (set_prefix v)).

Definition SetTimeFormat (p : nat) (v : gostring) : M unit :=
  l <- load p ;;
  emit (EvLock (mu l)) ;;
  defer (emit (EvUnlock (mu l)))
    (assign p f_timeFormat (set_timeFormat v)).

Definition SetTimeFunction (p : nat) (v : TimeFunction) : M unit :=
  l <- load p ;;
  emit (EvLock (mu l)) ;;
  defer (emit (EvUnlock (mu l)))
    (assign p f_timeFunc (set_timeFunc v)).

Definition SetOutput (p : nat) (v : Writer) : M unit :=
  l <- load p ;;
  emit (EvLock (mu l)) ;;
  defer (emit (EvUnlock (mu l)))
    (assign p f_w (set_w v)).

(** ** Derived loggers *)

(** [With]: a copy of the struct with an empty buffer, a new mutex and
    the appended keyvals, at a new address. *)
Definition With (p : nat) (kvs : list any) : M nat :=
  sl <- load p ;;
  let sl := set_b [] sl in
  σ <- get_store ;;
  let sl := set_mu (mutexes σ) sl in
  put_store {| loggers := loggers σ; arrays := arrays σ;
               mutexes := S (mutexes σ) |} ;;
  l <- load p ;;
  keyvals <- do_append (keyvals l) kvs ;;
  let sl := set_keyvals keyvals sl in
  σ <- get_store ;;
  put_store {| loggers := loggers σ ++ [sl]; arrays := arrays σ;
               mutexes := mutexes σ |} ;;
  ret (length (loggers σ)).

(** ** Severity methods *)

Definition Debug (p : nat) (msg : any) (kvs : list any) : M unit :=
  l <- load p ;;
  emit (EvRLock (mu l)) ;;
  let level := level l in
  emit (EvRUnlock (mu l)) ;;
  if level >? DebugLevel env then ret tt
  else log p (DebugLevel env) msg kvs.

Definition Info (p : nat) (msg : any) (kvs : list any) : M unit :=
  l <- load p ;;
  emit (EvRLock (mu l)) ;;
  let level := level l in
  emit (EvRUnlock (mu l)) ;;
  if level >? InfoLevel env then ret tt
  else log p (InfoLevel env) msg kvs.

Definition Warn (p : nat) (msg : any) (kvs : list any) : M unit :=
  l <- load p ;;
  emit (EvRLock (mu l)) ;;
  let level := level l in
  emit (EvRUnlock (mu l)) ;;
  if level >? WarnLevel env then ret tt
  else log p (WarnLevel env) msg kvs.

Definition Error (p : nat) (msg : any) (kvs : list any) : M unit :=
  l <- load p ;;
  emit (EvRLock (mu l)) ;;
  let level := level l in
  emit (EvRUnlock (mu l)) ;;
  if level >? ErrorLevel env then ret tt
  else log p (ErrorLevel env) msg kvs.

End Logger.

Arguments Ret {A} a.
Arguments Panic {A}.
Arguments AnyNil {env}.
Arguments AnyString {env} s.
Arguments AnyOperand {env} v.

(** ** Reference notions the properties are stated with *)

(** *** Segments, lines and escapes *)

(** [strings.Split(s, "\n")]: the segments between newlines; a string
    without newline is its own single segment. *)
Fixpoint Split (s : gostring) : list gostring :=
  match s with
  | [] => [[]]
  | c :: t =>
      if byte_eqb c NL then [] :: Split t
      else match Split t with
           | seg :: rest => (c :: seg) :: rest
           | [] => [[c]]
           end
  end.

(** The segments without a trailing empty one. *)
Fixpoint lines_of (segs : list gostring) : list gostring :=
  match segs with
  | [] => []
  | [seg] => if gostring_eqb seg [] then [] else [seg]
  | seg :: rest => seg :: lines_of rest
  end.

(** The number of segments, not counting a trailing empty one. *)
Definition count_lines (segs : list gostring) : nat :=
  match last segs with
  | Some [] => pred (length segs)
  | _ => length segs
  end.

(** One line of an indented block: the indent marker, the escaped
    segment (quotes are left alone) and a newline. *)
Definition indent_line (env : Env) (indent seg : gostring) : gostring :=
  indent ++ writeEscapedForOutput env [] seg false ++ [NL].

(** What one rune becomes when a string is escaped. *)
Definition escape_one (env : Env) (escapeQuotes : bool) (r : Z) : gostring :=
  escape_rune env escapeQuotes [] r.

(** The letter of the named escape of a control character. *)
Definition named_escape (r : Z) : option byte :=
  if r =? 0x07 then Some "a"%char
  else if r =? 0x08 then Some "b"%char
  else if r =? 0x0C then Some "f"%char
  else if r =? 0x0A then Some "n"%char
  else if r =? 0x0D then Some "r"%char
  else if r =? 0x09 then Some "t"%char
  else if r =? 0x0B then Some "v"%char
  else None.

(** A rune that is one of the seven control characters with a named
    escape, or a printable character. *)
Definition control_or_printable (env : Env) (r : Z) : Prop :=
  named_escape r <> None \/ (utf8.ValidRune r = true /\ IsPrint env r = true).

(** The named escape of a control character, and any other rune as it
    is. *)
Definition escape_or_verbatim (r : Z) : gostring :=
  match named_escape r with
  | Some c => [BACKSLASH; c]
  | None => utf8.EncodeRune r
  end.

(** The same, but for the double quote under quote escaping. *)
Definition escaped_rune (escapeQuotes : bool) (r : Z) : gostring :=
  match named_escape r with
  | Some c => [BACKSLASH; c]
  | None =>
      if escapeQuotes && (r =? 0x22) then [BACKSLASH; DQUOTE]
      else utf8.EncodeRune r
  end.

(** Whether every double quote of [s] comes right after a backslash,
    [prev] being the byte before [s]. *)
Fixpoint quotes_escaped (prev : byte) (s : gostring) : bool :=
  match s with
  | [] => true
  | c :: t =>
      (negb (byte_eqb c DQUOTE) || byte_eqb prev BACKSLASH) && quotes_escaped c t
  end.

(** *** The key and the value of a pair *)

(** The key and the value of a pair as the loop of [log] has them when
    it chooses how to write the pair: the default format, with the
    substitutes for an empty key and an empty value, styled unless color
    is disabled. *)
Definition pair_key {env : Env} (l : logger env) (k : any env) : gostring :=
  let key := Sprint env k in
  let key := if gostring_eqb key [] then go "MISSING_KEY" else key in
  if negb (noColor env l) then KeyStyle env key else key.

Definition value_style {env : Env} (l : logger env) (val : gostring) : gostring :=
  if negb (noColor env l) then ValueStyle env val else val.

Definition pair_val {env : Env} (l : logger env) (v : any env) : gostring :=
  let val := Sprint env v in
  let val := if gostring_eqb val [] then [DQUOTE; DQUOTE] else val in
  value_style l val.

(** The separator [=] and the bar that marks the lines of a block. *)
Definition sep_eq (env : Env) : gostring := SeparetorStyle env (go "=").
Definition sep_bar (env : Env) : gostring := SeparetorStyle env (go "  │ ").

(** *** Calls, records and traces *)

(** A slice is sound in a store when its capacity lies within its
    backing array and its length within its capacity, as for every slice
    a Go program can make. *)
Definition slice_ok {env : Env} (arrs : list (list (any env))) (s : slice) : Prop :=
  (len s <= cap s)%nat /\ (cap s <= length (backing env arrs s))%nat.

(** The key/value sequence of a call: the fields of the logger, then the
    keyvals of the call, then one value for a key left alone. *)
Definition effective_keyvals {env : Env} (fields kvs : list (any env))
  : list (any env) :=
  let all := fields ++ kvs in
  if Nat.odd (length all) then all ++ [AnyString (go "MISSING_VALUE")] else all.

(** A sequence read two by two. *)
Fixpoint pairs {A : Type} (kvs : list A) : list (A * A) :=
  match kvs with
  | k :: v :: rest => (k, v) :: pairs rest
  | _ => []
  end.

(** The record up to the pairs, and the pairs written one after the
    other. *)
Definition write_head {env : Env} (l : logger env) (t : Time env) (level : Z)
  (msg : any env) (b : Buffer) : Buffer :=
  write_msg env l msg
    (write_prefix env l
       (write_caller env l (write_level env l level (write_timestamp env l t b)))).

Definition write_each {env : Env} (l : logger env) (b : Buffer)
  (ps : list (any env * any env)) : Buffer :=
  fold_left (fun b kv => write_pair env l b (fst kv) (snd kv)) ps b.

(** The record of a call, newline included. *)
Definition record {env : Env} (l : logger env) (level : Z) (msg : any env)
  (fields kvs : list (any env)) : gostring :=
  write_each l (write_head l (timeFunc env l tt) level msg (b env l))
    (pairs (effective_keyvals fields kvs)) ++ [NL].

(** The four severity methods, and the level each logs at. *)
Inductive Severity := SevDebug | SevInfo | SevWarn | SevError.

Definition severity_level (env : Env) (c : Severity) : Z :=
  match c with
  | SevDebug => DebugLevel env
  | SevInfo => InfoLevel env
  | SevWarn => WarnLevel env
  | SevError => ErrorLevel env
  end.

Definition call (env : Env) (c : Severity) (p : nat) (msg : any env)
  (kvs : list (any env)) : M env unit :=
  match c with
  | SevDebug => Debug env p msg kvs
  | SevInfo => Info env p msg kvs
  | SevWarn => Warn env p msg kvs
  | SevError => Error env p msg kvs
  end.

(** The setters, as one family. *)
Inductive Setter (env : Env) :=
| DoSetLevel (v : Z)
| DoSetPrefix (v : gostring)
| DoSetOutput (v : Writer)
| DoEnableTimestamp
| DoDisableTimestamp
| DoEnableCaller
| DoDisableCaller
| DoSetTimeFormat (v : gostring)
| DoSetTimeFunction (v : TimeFunction env).

Definition run_setter {env : Env} (x : Setter env) (p : nat) : M env unit :=
  match x with
  | DoSetLevel _ v => SetLevel env p v
  | DoSetPrefix _ v => SetPrefix env p v
  | DoSetOutput _ v => SetOutput env p v
  | DoEnableTimestamp _ => EnableTimestamp env p
  | DoDisableTimestamp _ => DisableTimestamp env p
  | DoEnableCaller _ => EnableCaller env p
  | DoDisableCaller _ => DisableCaller env p
  | DoSetTimeFormat _ v => SetTimeFormat env p v
  | DoSetTimeFunction _ v => SetTimeFunction env p v
  end.

(** The logger a setter leaves. *)
Definition setter_update {env : Env} (x : Setter env) (l : logger env) : logger env :=
  match x with
  | DoSetLevel _ v => set_level env v l
  | DoSetPrefix _ v => set_prefix env v l
  | DoSetOutput _ v => set_w env v l
  | DoEnableTimestamp _ => set_timestamp env true l
  | DoDisableTimestamp _ => set_timestamp env false l
  | DoEnableCaller _ => set_caller env true l
  | DoDisableCaller _ => set_caller env false l
  | DoSetTimeFormat _ v => set_timeFormat env v l
  | DoSetTimeFunction _ v => set_timeFunc env v l
  end.

(** The field a setter assigns. *)
Definition setter_field {env : Env} (x : Setter env) : Field :=
  match x with
  | DoSetLevel _ _ => f_level
  | DoSetPrefix _ _ => f_prefix
  | DoSetOutput _ _ => f_w
  | DoEnableTimestamp _ | DoDisableTimestamp _ => f_timestamp
  | DoEnableCaller _ | DoDisableCaller _ => f_caller
  | DoSetTimeFormat _ _ => f_timeFormat
  | DoSetTimeFunction _ _ => f_timeFunc
  end.

(** The state in which the logger at address [p] is [l]. *)
Definition state_at {env : Env} (L : list (logger env)) (A : list (list (any env)))
  (n : nat) (T : list Event) (p : nat) (l : logger env) : state env :=
  {| heap := {| loggers := <[p := l]> L; arrays := A; mutexes := n |};
     trace := T |}.

(** What a trace wrote to the sinks, write call by write call. *)
Fixpoint sink_writes (tr : list Event) : list (Writer * gostring) :=
  match tr with
  | [] => []
  | EvWrite w p :: tr' => (w, p) :: sink_writes tr'
  | _ :: tr' => sink_writes tr'
  end.

(** The events a computation adds to the trace of a state. *)
Definition events_of {env : Env} {X : Type} (m : M env X) (s : state env)
  : list Event :=
  drop (length (trace env s)) (trace env (snd (m s))).

(** The events of a call of [log] that writes the record [bytes]. *)
Definition log_trace {env : Env} (p : nat) (l : logger env) (bytes : gostring)
  : list Event :=
  [EvRLock (mu env l); EvRUnlock (mu env l); EvTimeFunc; EvLock (mu env l)]
    ++ replicate 7 (EvAssign p f_b)
    ++ [EvWrite (w env l) bytes; EvAssign p f_b; EvUnlock (mu env l)].

(** The events of a call of [log]: the read of the sink under the shared
    lock, and unless the sink is [io.Discard] the rest of the call. *)
Definition log_events {env : Env} (p : nat) (l : logger env) (level : Z)
  (msg : any env) (fields kvs : list (any env)) : list Event :=
  if Writer_eqb (w env l) Discard
  then [EvRLock (mu env l); EvRUnlock (mu env l)]
  else log_trace p l (record l level msg fields kvs).

(** The events of a setter on the logger [l] at address [p]. *)
Definition setter_trace {env : Env} (x : Setter env) (p : nat) (l : logger env)
  : list Event :=
  match x with
  | DoDisableTimestamp _ =>
      [EvAssign p f_timestamp; EvLock (mu env l); EvUnlock (mu env l)]
  | _ => [EvLock (mu env l); EvAssign p (setter_field x); EvUnlock (mu env l)]
  end.

(** Whether every assignment of a trace is made with the exclusive lock
    of mutex [m] held; [held] tells whether it is held at the start. *)
Fixpoint assigns_locked (m : nat) (held : bool) (tr : list Event) : bool :=
  match tr with
  | [] => true
  | EvLock m' :: tr' => assigns_locked m (held || Nat.eqb m' m) tr'
  | EvUnlock m' :: tr' => assigns_locked m (held && negb (Nat.eqb m' m)) tr'
  | EvAssign _ _ :: tr' => held && assigns_locked m held tr'
  | _ :: tr' => assigns_locked m held tr'
  end.

(** Setter calls, each on the logger at some address, one after the
    other; and what they make of a logger at address [a]. *)
Definition run_ops {env : Env} (ops : list (nat * Setter env)) (s : state env)
  : state env :=
  fold_left (fun s op => snd (run_setter (snd op) (fst op) s)) ops s.

Definition apply_ops {env : Env} (a : nat) (ops : list (nat * Setter env))
  (l : logger env) : logger env :=
  fold_left (fun l op => if Nat.eqb (fst op) a then setter_update (snd op) l else l)
    ops l.

(** ** A concrete environment, to run the logger on examples

    Styles that render their text unchanged (what the theme does when
    the terminal has no color), ASCII upper-casing, decimal operands,
    a doubling [append], and the levels numbered from 0. *)
Definition ascii_upper (c : byte) : byte :=
  if utf8.between 0x61 0x7A (code c) then chr (code c - 32) else c.

Definition plainEnv : Env := {|
  unicode_IsPrint_table := fun r => utf8.ValidRune r;
  strings_ToUpper := map ascii_upper;
  operand := Z;
  fmt_operand := fun z => go (NilZero.string_of_int (Z.to_int z));
  Time := unit;
  Time_Format := fun _ layout => layout;
  runtime_Caller := fun _ => Some (go "/home/app/cmd/main.go", 42);
  fmt_int := fun z => go (NilZero.string_of_int (Z.to_int z));
  growslice_spare := fun c _ => c;
  Level_String := fun l =>
    if l =? 0 then go "debug" else if l =? 1 then go "info"
    else if l =? 2 then go "warn" else go "error";
  DebugLevel := 0; InfoLevel := 1; WarnLevel := 2; ErrorLevel := 3;
  TimestampSytle := fun s => s;
  LevelStyle := fun _ s => s;
  CallerStyle := fun s => s;
  PrefixStyle := fun s => s;
  MessageStyle := fun s => s;
  KeyStyle := fun s => s;
  ValueStyle := fun s => s;
  SeparetorStyle := fun s => s |}.

(** A logger with color disabled that writes to sink 0 at level Info,
    without timestamp, caller, prefix or fields. *)
Definition plainLogger : logger plainEnv := {|
  w := Sink 0; b := []; mu := 0; level := 1; prefix := [];
  timeFunc := fun _ => (tt : Time plainEnv); timeFormat := go "2006/01/02 15:04:05";
  callerOffset := 2; caller := false; noColor := true; timestamp := false;
  keyvals := {| ptr := 0; len := 0; cap := 0 |} |}.

Definition plainState : state plainEnv :=
  {| heap := {| loggers := [plainLogger]; arrays := []; mutexes := 1 |};
     trace := [] |}.

(** ** Reference notions for the escapes, the store and the locks *)

(** The value of a hexadecimal digit, and of a run of digits, most
    significant first. *)
Definition hex_digit_value (c : byte) : Z := IndexByte lowerhex c.

Definition hex_value (ds : gostring) : Z :=
  fold_left (fun acc c => 16 * acc + hex_digit_value c) ds 0.

(** A byte that is not an ASCII control character. *)
Definition no_control (c : byte) : Prop := 0x20 <= code c /\ code c <> 0x7F.

(** The backing arrays a call of [log] leaves, on a logger with the
    fields [sl] and for the keyvals [kvs]: those of its one or two
    calls of [append]. *)
Definition log_arrays {env : Env} (A : list (list (any env))) (sl : slice)
  (kvs : list (any env)) : list (list (any env)) :=
  let '(s1, A1) := append env A sl kvs in
  if Nat.odd (len s1)
  then snd (append env A1 s1 [AnyString (go "MISSING_VALUE")])
  else A1.

(** The logger that [With(ks)] makes of the logger [l], in the state
    [s]: a copy with an empty buffer, the next mutex and the appended
    keyvals. *)
Definition derived {env : Env} (s : state env) (l : logger env)
  (ks : list (any env)) : logger env :=
  set_keyvals env (fst (append env (arrays env (heap env s)) (keyvals env l) ks))
    (set_mu env (mutexes env (heap env s)) (set_b env [] l)).

(** How a trace of one goroutine uses the mutex [m], a
    [sync.RWMutex]: [ex] tells whether the exclusive lock is held and
    [rd] how many shared locks are.  Taking the exclusive lock while any
    lock is held, or a shared lock while the exclusive one is held, would
    block for ever; releasing a lock that is not held is a fatal error.
    The result is what is held at the end, when none of this happens. *)
Fixpoint lock_use (m : nat) (ex : bool) (rd : nat) (tr : list Event)
  : option (bool * nat) :=
  match tr with
  | [] => Some (ex, rd)
  | EvLock m' :: tr' =>
      if Nat.eqb m' m
      then if ex || negb (Nat.eqb rd 0) then None else lock_use m true rd tr'
      else lock_use m ex rd tr'
  | EvUnlock m' :: tr' =>
      if Nat.eqb m' m
      then if ex then lock_use m false rd tr' else None
      else lock_use m ex rd tr'
  | EvRLock m' :: tr' =>
      if Nat.eqb m' m
      then if ex then None else lock_use m ex (S rd) tr'
      else lock_use m ex rd tr'
  | EvRUnlock m' :: tr' =>
      if Nat.eqb m' m
      then match rd with
           | S rd' => lock_use m ex rd' tr'
           | O => None
           end
      else lock_use m ex rd tr'
  | _ :: tr' => lock_use m ex rd tr'
  end.

(** A logger whose two fields lie in a backing array of four elements,
    with room for two more, and a state that holds it. *)
Definition roomyLogger : logger plainEnv :=
  set_keyvals plainEnv {| ptr := 0; len := 2; cap := 4 |} plainLogger.

Definition roomyState : state plainEnv :=
  {| heap := {| loggers := [roomyLogger];
                arrays := [[AnyString (go "a"); AnyOperand (1 : operand plainEnv);
                            AnyNil; AnyNil]];
                mutexes := 1 |};
     trace := [] |}.

(** A byte that needs no quoting: an ASCII character from the hyphen
    to the tilde. *)
Definition plain_byte (c : byte) : bool := (0x2D <=? code c) && (code c <=? 0x7E).

(** A logger as the methods leave it in a store: the slice of its
    fields is sound, its mutex is one that was made, and its buffer is
    empty.  A store is well formed when each of its loggers is. *)
Definition logger_ok {env : Env} (σ : store env) (l : logger env) : Prop :=
  slice_ok (arrays env σ) (keyvals env l)
  /\ (mu env l < mutexes env σ)%nat
  /\ b env l = [].

Definition store_ok {env : Env} (σ : store env) : Prop :=
  Forall (logger_ok σ) (loggers env σ).

(** ** Bytes, indices and segments *)

Section Strings.

Lemma byte_eqb_true (a b : byte) : byte_eqb a b = true <-> a = b.
Proof. apply Ascii.eqb_eq. Qed.

Lemma byte_eqb_false (a b : byte) : byte_eqb a b = false <-> a <> b.
Proof. apply Ascii.eqb_neq. Qed.

Lemma gostring_eqb_nil (s : gostring) : gostring_eqb s [] = true <-> s = [].
Proof. destruct s; simpl; split; intros; congruence. Qed.

Lemma IndexByte_range (s : gostring) (c : byte) :
  -1 <= IndexByte s c < Z.of_nat (length s).
Proof.
  induction s as [|a s IH]; simpl length; simpl IndexByte; [lia|].
  destruct (byte_eqb a c); [lia|].
  destruct (Z.ltb_spec (IndexByte s c) 0); lia.
Qed.

Lemma IndexByte_absent (s : gostring) (c : byte) :
  IndexByte s c = -1 <-> ~ In c s.
Proof.
  induction s as [|a s IH]; simpl.
  - tauto.
  - destruct (byte_eqb a c) eqn:E.
    + apply byte_eqb_true in E. split; [lia | tauto].
    + apply byte_eqb_false in E.
      pose proof (IndexByte_range s c).
      destruct (Z.ltb_spec (IndexByte s c) 0).
      * assert (IndexByte s c = -1) as Hm by lia. tauto.
      * split; [lia|]. intros Hn. exfalso. apply Hn. right.
        destruct (in_dec ascii_dec c s) as [|Hc]; [assumption|].
        apply IH in Hc. lia.
Qed.

Lemma ContainsNL_In (s : gostring) : ContainsNL s = true <-> In NL s.
Proof.
  unfold ContainsNL. pose proof (IndexByte_range s NL).
  pose proof (IndexByte_absent s NL).
  destruct (Z.leb_spec 0 (IndexByte s NL)).
  - split; [intros _|reflexivity].
    destruct (in_dec ascii_dec NL s) as [|Hc]; [assumption|].
    assert (IndexByte s NL = -1) by tauto. lia.
  - split; [discriminate|]. intros Hin. exfalso.
    assert (IndexByte s NL = -1) as Hm by lia. apply H0 in Hm. tauto.
Qed.

Lemma ContainsNL_false (s : gostring) : ContainsNL s = false <-> ~ In NL s.
Proof.
  rewrite <- ContainsNL_In. destruct (ContainsNL s); split; congruence.
Qed.

Lemma Split_nonempty (s : gostring) : Split s <> [].
Proof.
  induction s as [|a s IH]; simpl; [discriminate|].
  destruct (byte_eqb a NL); [discriminate|].
  destruct (Split s); discriminate.
Qed.

Lemma Split_whole (s : gostring) : IndexByte s NL = -1 -> Split s = [s].
Proof.
  induction s as [|a s IH]; simpl; [reflexivity|].
  destruct (byte_eqb a NL); [lia|].
  pose proof (IndexByte_range s NL).
  destruct (Z.ltb_spec (IndexByte s NL) 0); [|lia].
  intros _. rewrite IH by lia. reflexivity.
Qed.

Lemma Split_at (s : gostring) :
  0 <= IndexByte s NL ->
  Split s = slice_to s (IndexByte s NL)
            :: Split (slice_from s (IndexByte s NL + 1)).
Proof.
  unfold slice_to, slice_from.
  induction s as [|a s IH]; simpl; [lia|].
  destruct (byte_eqb a NL); [reflexivity|].
  pose proof (IndexByte_range s NL).
  destruct (Z.ltb_spec (IndexByte s NL) 0); [lia|].
  intros _. rewrite IH by lia.
  replace (Z.to_nat (IndexByte s NL + 1)) with (S (Z.to_nat (IndexByte s NL))) by lia.
  replace (Z.to_nat (IndexByte s NL + 1 + 1)) with (S (S (Z.to_nat (IndexByte s NL)))) by lia.
  reflexivity.
Qed.

Lemma lines_of_cons (seg : gostring) (rest : list gostring) :
  rest <> [] -> lines_of (seg :: rest) = seg :: lines_of rest.
Proof. destruct rest; [congruence | reflexivity]. Qed.

Lemma lines_of_length (segs : list gostring) :
  length (lines_of segs) = count_lines segs.
Proof.
  unfold count_lines.
  induction segs as [|seg rest IH]; [reflexivity|].
  destruct rest as [|seg' rest'].
  - simpl. destruct seg; reflexivity.
  - rewrite lines_of_cons by discriminate.
    change (last (seg :: seg' :: rest')) with (last (seg' :: rest')).
    rewrite length_cons, IH.
    destruct (last (seg' :: rest')) as [[|]|]; reflexivity.
Qed.

End Strings.

(** ** Ranging over the runes of a string *)

Section Runes.

Lemma code_range (c : byte) : 0 <= code c < 256.
Proof.
  unfold code. pose proof (N_ascii_bounded c) as H. lia.
Qed.

Lemma code_inj (a b : byte) : code a = code b -> a = b.
Proof.
  unfold code. intros H. apply N2Z.inj in H.
  rewrite <- (ascii_N_embedding a), <- (ascii_N_embedding b). congruence.
Qed.

Lemma code_chr (z : Z) : 0 <= z < 256 -> code (chr z) = z.
Proof.
  intros H. unfold code, chr. rewrite Z.mod_small by lia.
  rewrite N_ascii_embedding by lia. lia.
Qed.

Lemma chr_code (c : byte) : chr (code c) = c.
Proof. apply code_inj. apply code_chr. apply code_range. Qed.

Lemma Decode_width (s : gostring) :
  s <> [] ->
  (1 <= snd (utf8.DecodeRuneInString s) <= length s)%nat.
Proof.
  destruct s as [|b0 t]; [congruence|]. intros _.
  unfold utf8.DecodeRuneInString.
  repeat case_match; simpl; lia.
Qed.

Lemma range_from_fuel (f1 f2 : nat) (s : gostring) :
  (length s <= f1)%nat -> (length s <= f2)%nat ->
  range_from f1 s = range_from f2 s.
Proof.
  revert f2 s. induction f1 as [|f1 IH]; intros f2 s H1 H2.
  - destruct s; [|simpl in H1; lia]. destruct f2; reflexivity.
  - destruct f2 as [|f2]; [destruct s; [reflexivity | simpl in H2; lia]|].
    destruct s as [|b0 t]; [reflexivity|].
    cbn [range_from].
    pose proof (Decode_width (b0 :: t) ltac:(discriminate)) as Hw.
    destruct (utf8.DecodeRuneInString (b0 :: t)) as [r n]. simpl in Hw.
    f_equal. apply IH; rewrite length_skipn; simpl in *; lia.
Qed.

Lemma runes_nil : runes [] = [].
Proof. reflexivity. Qed.

Lemma runes_step (b0 : byte) (t : gostring) :
  runes (b0 :: t) =
  fst (utf8.DecodeRuneInString (b0 :: t))
  :: runes (skipn (snd (utf8.DecodeRuneInString (b0 :: t))) (b0 :: t)).
Proof.
  unfold runes. cbn [length range_from].
  pose proof (Decode_width (b0 :: t) ltac:(discriminate)) as Hw.
  destruct (utf8.DecodeRuneInString (b0 :: t)) as [r n]. simpl in Hw |- *.
  f_equal. apply range_from_fuel; rewrite ?length_skipn; simpl; lia.
Qed.

Lemma runes_ascii (b0 : byte) (t : gostring) :
  code b0 < 0x80 -> runes (b0 :: t) = code b0 :: runes t.
Proof.
  intros H. rewrite runes_step. unfold utf8.DecodeRuneInString, utf8.RuneSelf.
  destruct (Z.ltb_spec (code b0) 128); [reflexivity | lia].
Qed.

(** An ASCII byte is never part of a longer encoding: ranging over the
    string either yields it first or finds it in what is left. *)
Lemma Decode_ascii (s : gostring) (c : byte) :
  In c s -> code c < 0x80 ->
  fst (utf8.DecodeRuneInString s) = code c
  \/ In c (skipn (snd (utf8.DecodeRuneInString s)) s).
Proof.
  intros Hin Hc. destruct s as [|b0 t]; [destruct Hin|].
  unfold utf8.DecodeRuneInString, utf8.RuneSelf, utf8.cont, utf8.between,
    utf8.second_lo, utf8.second_hi.
  destruct Hin as [->|Hin].
  { left. destruct (Z.ltb_spec (code c) 128); [reflexivity | lia]. }
  destruct (Z.ltb_spec (code b0) 128); [right; exact Hin|].
  repeat case_match; simpl; try (right; exact Hin); subst;
    repeat match goal with
           | H : _ && _ = true |- _ => apply andb_true_iff in H; destruct H
           | H : (_ <=? _) = true |- _ => apply Z.leb_le in H
           | H : In _ (_ :: _) |- _ => destruct H as [<-|H]
           end; try lia; right; assumption.
Qed.

Lemma runes_ascii_In (s : gostring) (c : byte) :
  In c s -> code c < 0x80 -> In (code c) (runes s).
Proof.
  remember (length s) as n eqn:Hn. revert s Hn.
  induction n as [n IH] using lt_wf_ind. intros s Hn Hin Hc.
  destruct s as [|b0 t]; [destruct Hin|].
  rewrite runes_step.
  pose proof (Decode_width (b0 :: t) ltac:(discriminate)) as Hw.
  destruct (Decode_ascii (b0 :: t) c Hin Hc) as [->|Hrest].
  - left. reflexivity.
  - right. eapply IH; [| reflexivity | exact Hrest | exact Hc].
    rewrite length_skipn. subst n. simpl in *. lia.
Qed.

End Runes.

(** ** The renderer writes what it is given, line by line *)

Section RendererFacts.

Context (env : Env).

Lemma writeEscapedForOutput_app (w : Buffer) (s : gostring) (q : bool) :
  writeEscapedForOutput env w s q = w ++ writeEscapedForOutput env [] s q.
Proof.
  unfold writeEscapedForOutput, Write. destruct (negb (needsEscaping env s)); reflexivity.
Qed.

Lemma writeIndent_loop_lines (fuel : nat) (w : Buffer) (s indent : gostring) :
  (length s < fuel)%nat ->
  writeIndent_loop env fuel w s indent =
  w ++ concat (map (indent_line env indent) (lines_of (Split s))).
Proof.
  revert w s. induction fuel as [|fuel IH]; intros w s Hlen; [lia|].
  cbn [writeIndent_loop].
  pose proof (IndexByte_range s NL) as Hr.
  destruct (Z.eqb_spec (IndexByte s NL) (-1)) as [Hnone|Hsome].
  - rewrite (Split_whole s Hnone). cbn [lines_of].
    destruct (gostring_eqb s []); cbn [negb map concat].
    + rewrite app_nil_r. reflexivity.
    + unfold Write, indent_line. rewrite writeEscapedForOutput_app.
      rewrite app_nil_r, <- !app_assoc. reflexivity.
  - rewrite (Split_at s) by lia.
    rewrite lines_of_cons by apply Split_nonempty.
    rewrite IH.
    + unfold Write, indent_line. rewrite writeEscapedForOutput_app.
      cbn [map concat]. rewrite <- !app_assoc. reflexivity.
    + unfold slice_from. rewrite length_skipn. lia.
Qed.

Lemma writeIndent_lines (w : Buffer) (s indent : gostring) :
  writeIndent env w s indent =
  w ++ concat (map (indent_line env indent) (lines_of (Split s))).
Proof. unfold writeIndent. apply writeIndent_loop_lines. lia. Qed.

End RendererFacts.

(** ** Escaping, rune by rune *)

Section Escaping.

Context (env : Env).

Lemma escape_rune_app (q : bool) (bb : Buffer) (r : Z) :
  escape_rune env q bb r = bb ++ escape_one env q r.
Proof.
  unfold escape_one, escape_rune, write_hex.
  repeat case_match; cbn [fold_left];
    unfold WriteString, WriteRune, WriteByte;
    rewrite <- ?app_assoc; reflexivity.
Qed.

Lemma fold_escape_rune (q : bool) (rs : list Z) (bb : Buffer) :
  fold_left (escape_rune env q) rs bb = bb ++ concat (map (escape_one env q) rs).
Proof.
  revert bb. induction rs as [|r rs IH]; intros bb; cbn [fold_left map concat].
  - rewrite app_nil_r. reflexivity.
  - rewrite IH, escape_rune_app, <- app_assoc. reflexivity.
Qed.

Lemma writeEscapedForOutput_slow (q : bool) (s : gostring) :
  needsEscaping env s = true ->
  writeEscapedForOutput env [] s q = concat (map (escape_one env q) (runes s)).
Proof.
  intros H. unfold writeEscapedForOutput, Write. rewrite H. cbn [negb].
  rewrite fold_escape_rune. reflexivity.
Qed.

Lemma writeEscapedForOutput_fast (q : bool) (s : gostring) :
  needsEscaping env s = false -> writeEscapedForOutput env [] s q = s.
Proof.
  intros H. unfold writeEscapedForOutput, Write. rewrite H. reflexivity.
Qed.

Lemma needsEscaping_quote (s : gostring) :
  In DQUOTE s -> needsEscaping env s = true.
Proof.
  intros H. unfold needsEscaping. apply existsb_exists.
  exists (code DQUOTE). split.
  - apply runes_ascii_In; [exact H | reflexivity].
  - apply orb_true_r.
Qed.

Lemma needsQuoting_ascii (s : gostring) (c : byte) :
  In c s -> code c < 0x80 -> isNormal (code c) = false -> needsQuoting s = true.
Proof.
  intros H Hc Hn. unfold needsQuoting. apply existsb_exists.
  exists (code c). split; [apply runes_ascii_In; assumption|].
  rewrite Hn. reflexivity.
Qed.

(** Every string with a double quote or a space needs quoting. *)
Lemma needsQuoting_quote_or_space (s : gostring) :
  In DQUOTE s \/ In SPACE s -> needsQuoting s = true.
Proof.
  intros [H|H];
    [apply (needsQuoting_ascii s DQUOTE) | apply (needsQuoting_ascii s SPACE)];
    solve [exact H | reflexivity].
Qed.

Lemma needsQuoting_false (s : gostring) :
  needsQuoting s = false <-> Forall (fun r => isNormal r = true) (runes s).
Proof.
  unfold needsQuoting. rewrite List.Forall_forall. split.
  - intros H r Hr. destruct (isNormal r) eqn:E; [reflexivity|].
    assert (existsb (fun r => negb (isNormal r)) (runes s) = true) as Ht.
    { apply existsb_exists. exists r. rewrite E. split; [assumption|reflexivity]. }
    congruence.
  - intros H. destruct (existsb _ _) eqn:E; [|reflexivity].
    apply existsb_exists in E. destruct E as [r [Hr Hn]].
    rewrite (H r Hr) in Hn. discriminate.
Qed.

End Escaping.

(** ** The bytes of an escaped string *)

Section EscapedBytes.

Context (env : Env).

Lemma code_chr_mod (z : Z) : code (chr z) = z mod 256.
Proof.
  unfold chr. fold (chr (z mod 256)).
  assert (chr (z mod 256) = ascii_of_N (Z.to_N ((z mod 256) mod 256))) as E by reflexivity.
  rewrite Z.mod_mod in E by lia.
  change (ascii_of_N (Z.to_N (z mod 256))) with (chr z).
  pose proof (Z.mod_pos_bound z 256 ltac:(lia)).
  unfold chr, code. rewrite N_ascii_embedding by lia. lia.
Qed.

(** A byte written with its high bit set is not an ASCII byte. *)
Lemma chr_high (z : Z) : Z.testbit z 7 = true -> 128 <= code (chr z).
Proof.
  intros H. rewrite code_chr_mod.
  assert (Z.testbit (z mod 2 ^ 8) 7 = true) as Hm
    by (rewrite Z.mod_pow2_bits_low by lia; exact H).
  change (2 ^ 8) with 256 in Hm.
  pose proof (Z.mod_pos_bound z 256 ltac:(lia)) as Hb.
  apply Z.testbit_true in Hm; [|lia]. change (2 ^ 7) with 128 in Hm.
  Z.div_mod_to_equations. lia.
Qed.

Lemma lor_high (c x : Z) : Z.testbit c 7 = true -> Z.testbit (Z.lor c x) 7 = true.
Proof. intros H. rewrite Z.lor_spec, H. reflexivity. Qed.

(** An ASCII byte is in the encoding of a rune only as that rune. *)
Lemma EncodeRune_ascii (c : byte) (r : Z) :
  code c < 0x80 -> In c (utf8.EncodeRune r) -> r = code c.
Proof.
  intros Hc. unfold utf8.EncodeRune, utf8.between.
  repeat case_match; cbn [In]; intros Hin;
    repeat match goal with
           | H : _ \/ _ |- _ => destruct H as [H|H]
           | H : False |- _ => destruct H
           end; subst c.
  all: try (exfalso;
            match type of Hc with
            | code (chr (Z.lor ?k ?x)) < _ =>
                pose proof (chr_high (Z.lor k x) (lor_high k x eq_refl)); lia
            | code (chr ?k) < _ => vm_compute in Hc; discriminate
            end).
  match goal with
  | H : (_ <=? _) && (_ <=? _) = true |- _ =>
      apply andb_true_iff in H; destruct H as [H1 H2];
      apply Z.leb_le in H1, H2
  end.
  rewrite code_chr by lia. reflexivity.
Qed.

Lemma hexdigit_In (i : Z) : In (hexdigit i) ("000"%char :: lowerhex).
Proof.
  unfold hexdigit. destruct (nth_in_or_default (Z.to_nat i) lowerhex "000"%char) as [H| ->].
  - right. exact H.
  - left. reflexivity.
Qed.

Lemma hexdigit_plain (i : Z) : hexdigit i <> DQUOTE /\ hexdigit i <> NL.
Proof.
  pose proof (hexdigit_In i) as H. set (h := hexdigit i) in *. clearbody h.
  vm_compute in H.
  repeat (destruct H as [<-|H]; [split; discriminate|]). destruct H.
Qed.


Ltac no_such_byte H :=
  repeat match type of H with
         | _ \/ _ => destruct H as [H|H]
         | False => destruct H
         | hexdigit ?i = _ =>
             destruct (hexdigit_plain i); congruence
         | _ = _ => discriminate H
         end.

(** What an escaped rune can hold of a newline or a double quote: no
    newline, and a double quote only for the rune of the double quote. *)
Lemma escape_one_plain (q : bool) (r : Z) (c : byte) :
  c = NL \/ c = DQUOTE ->
  In c (escape_one env q r) -> c = DQUOTE /\ r = 0x22.
Proof.
  intros Hc. unfold escape_one, escape_rune, write_hex.
  destruct (q && (r =? 34)) eqn:Eq.
  { apply andb_true_iff in Eq. destruct Eq as [_ Er]. apply Z.eqb_eq in Er.
    unfold WriteString. cbn [app In]. intros Hin.
    destruct Hc as [-> | ->]; [exfalso; no_such_byte Hin|].
    split; [reflexivity|exact Er]. }
  destruct (IsPrint env r) eqn:Ep.
  { unfold WriteRune. cbn [app]. intros Hin.
    destruct Hc as [-> | ->].
    - apply EncodeRune_ascii in Hin; [|reflexivity]. subst r. discriminate Ep.
    - apply EncodeRune_ascii in Hin; [|reflexivity]. split; [reflexivity|exact Hin]. }
  repeat case_match; cbn [fold_left]; unfold WriteString, WriteByte, go;
    cbn [list_ascii_of_string app In]; intros Hin;
    destruct Hc as [-> | ->]; exfalso; no_such_byte Hin.
Qed.

Lemma quotes_escaped_free (s : gostring) (p : byte) :
  ~ In DQUOTE s -> quotes_escaped p s = true.
Proof.
  revert p. induction s as [|c s IH]; intros p Hn; [reflexivity|].
  cbn [quotes_escaped]. rewrite IH by (intros H; apply Hn; right; exact H).
  destruct (byte_eqb c DQUOTE) eqn:E; [|reflexivity].
  apply byte_eqb_true in E. exfalso. apply Hn. left. exact E.
Qed.

Lemma quotes_escaped_app (a b0 : gostring) (p : byte) :
  quotes_escaped p a = true ->
  (forall p', quotes_escaped p' b0 = true) ->
  quotes_escaped p (a ++ b0) = true.
Proof.
  revert p. induction a as [|c a IH]; intros p Ha Hb; [apply Hb|].
  cbn [app quotes_escaped] in *. apply andb_true_iff in Ha. destruct Ha as [H1 H2].
  rewrite H1, IH by assumption. reflexivity.
Qed.

Lemma quotes_escaped_concat (pieces : list gostring) :
  Forall (fun x => forall p, quotes_escaped p x = true) pieces ->
  forall p, quotes_escaped p (concat pieces) = true.
Proof.
  induction 1 as [|x pieces Hx _ IH]; intros p; [reflexivity|].
  cbn [concat]. apply quotes_escaped_app; [apply Hx | exact IH].
Qed.

Lemma escape_one_quotes (r : Z) (p : byte) :
  quotes_escaped p (escape_one env true r) = true.
Proof.
  destruct (in_dec ascii_dec DQUOTE (escape_one env true r)) as [Hin|Hn].
  - destruct (escape_one_plain true r DQUOTE (or_intror eq_refl) Hin) as [_ ->].
    reflexivity.
  - apply quotes_escaped_free. exact Hn.
Qed.

(** With quote escaping, what is written has no double quote but after
    a backslash. *)
Lemma writeEscapedForOutput_quotes (s : gostring) (p : byte) :
  quotes_escaped p (writeEscapedForOutput env [] s true) = true.
Proof.
  destruct (needsEscaping env s) eqn:Hn.
  - rewrite writeEscapedForOutput_slow by exact Hn.
    apply quotes_escaped_concat. apply List.Forall_forall.
    intros x Hx. apply in_map_iff in Hx. destruct Hx as [r [<- _]].
    intros p'. apply escape_one_quotes.
  - rewrite writeEscapedForOutput_fast by exact Hn.
    apply quotes_escaped_free. intros Hin.
    rewrite (needsEscaping_quote env s Hin) in Hn. discriminate.
Qed.

(** What is written for a string without newline has no newline. *)
Lemma writeEscapedForOutput_no_newline (s : gostring) (q : bool) :
  ~ In NL s -> ~ In NL (writeEscapedForOutput env [] s q).
Proof.
  intros Hs. destruct (needsEscaping env s) eqn:Hn.
  - rewrite writeEscapedForOutput_slow by exact Hn. intros Hin.
    apply in_concat in Hin. destruct Hin as [x [Hx Hin]].
    apply in_map_iff in Hx. destruct Hx as [r [<- _]].
    destruct (escape_one_plain q r NL (or_introl eq_refl) Hin) as [E _]. discriminate.
  - rewrite writeEscapedForOutput_fast by exact Hn. exact Hs.
Qed.

Lemma Split_no_newline (s : gostring) :
  Forall (fun seg => ~ In NL seg) (Split s).
Proof.
  induction s as [|c s IH]; cbn [Split].
  - apply List.Forall_cons; [intros []|apply List.Forall_nil].
  - destruct (byte_eqb c NL) eqn:E.
    + apply List.Forall_cons; [intros []|exact IH].
    + apply byte_eqb_false in E.
      destruct (Split s) as [|seg rest]; [apply List.Forall_cons; [|apply List.Forall_nil]|].
      * intros [H|[]]. congruence.
      * inversion IH as [|? ? Hseg Hrest]; subst.
        apply List.Forall_cons; [|exact Hrest].
        intros [H|H]; [congruence|contradiction].
Qed.

Lemma lines_of_Forall (P : gostring -> Prop) (segs : list gostring) :
  Forall P segs -> Forall P (lines_of segs).
Proof.
  induction 1 as [|seg rest Hseg Hrest IH]; [apply List.Forall_nil|].
  destruct rest as [|seg' rest'].
  - cbn [lines_of]. destruct (gostring_eqb seg []);
      [apply List.Forall_nil | apply List.Forall_cons; [exact Hseg|apply List.Forall_nil]].
  - rewrite lines_of_cons by discriminate. apply List.Forall_cons; assumption.
Qed.

End EscapedBytes.

(** ** UTF-8: decoding what was encoded *)

Section Utf8Facts.

Lemma lor_disjoint (a l n : Z) :
  0 <= n -> 0 <= l < 2 ^ n -> a mod 2 ^ n = 0 -> Z.lor a l = a + l.
Proof.
  intros Hn Hl Ha.
  rewrite <- (Z.add_lor_land a l).
  assert (Z.land a l = 0) as ->; [|lia].
  apply Z.bits_inj'. intros m Hm. rewrite Z.land_spec, Z.bits_0.
  destruct (Z.lt_ge_cases m n) as [Hlt|Hge].
  - assert (a = a / 2 ^ n * 2 ^ n) as -> by (pose proof (Z.div_mod a (2 ^ n)); lia).
    rewrite Z.mul_pow2_bits_low by lia. reflexivity.
  - assert (Z.testbit l m = false) as ->; [|apply andb_false_r].
    destruct (Z.eq_dec l 0) as [->|Hne]; [apply Z.bits_0|].
    apply Z.bits_above_log2; [lia|].
    apply Z.log2_lt_pow2; [lia|].
    assert (2 ^ n <= 2 ^ m) by (apply Z.pow_le_mono_r; lia). lia.
Qed.

Lemma shiftr_div (r : Z) (k : Z) : 0 <= k -> Z.shiftr r k = r / 2 ^ k.
Proof. intros. apply Z.shiftr_div_pow2. assumption. Qed.

Lemma shiftl_mul (r : Z) (k : Z) : 0 <= k -> Z.shiftl r k = r * 2 ^ k.
Proof. intros. apply Z.shiftl_mul_pow2. assumption. Qed.

Lemma land_mask (r : Z) (k : Z) : 0 <= k -> Z.land r (Z.ones k) = r mod 2 ^ k.
Proof. intros. apply Z.land_ones. assumption. Qed.

Ltac zlia := Z.div_mod_to_equations; lia.

Ltac decide_Z :=
  repeat match goal with
         | |- context [?x <? ?y] => destruct (Z.ltb_spec x y); try (exfalso; zlia)
         | |- context [?x <=? ?y] => destruct (Z.leb_spec x y); try (exfalso; zlia)
         | |- context [?x =? ?y] => destruct (Z.eqb_spec x y); try (exfalso; zlia)
         end;
  cbn [andb orb negb].

(** Settles the tests of a conditional whose outcome the bounds at hand
    decide. *)
Ltac resolve_if :=
  repeat match goal with
         | |- context [if ?c then _ else _] =>
             first [ replace c with true by (symmetry; decide_Z; reflexivity)
                   | replace c with false by (symmetry; decide_Z; reflexivity) ];
             cbv iota
         end.

Ltac split_eqb :=
  repeat match goal with
         | |- context [if ?x =? ?y then _ else _] => destruct (Z.eqb_spec x y)
         end.

Lemma lor_lead (c h n : Z) :
  0 <= n -> 0 <= h < 2 ^ n -> c mod 2 ^ n = 0 -> 0 <= c + h < 256 ->
  code (chr (Z.lor c h)) = c + h.
Proof.
  intros Hn Hh Hc Hb. rewrite (lor_disjoint c h n) by assumption.
  apply code_chr. exact Hb.
Qed.

Lemma enc_cont (x : Z) :
  code (chr (Z.lor 0x80 (Z.land x 0x3F))) = 128 + x mod 64.
Proof.
  change 0x3F with (Z.ones 6). rewrite land_mask by lia. change (2 ^ 6) with 64.
  apply (lor_lead 128 (x mod 64) 6); change (2 ^ 6) with 64; zlia.
Qed.

Lemma dec_cont (x : Z) : 0 <= x < 64 -> Z.land (128 + x) 0x3F = x.
Proof.
  intros. change 0x3F with (Z.ones 6). rewrite land_mask by lia.
  change (2 ^ 6) with 64. zlia.
Qed.

(** Decoding what [EncodeRune] wrote gives the rune back. *)
Lemma decode_encode (r : Z) (t : gostring) :
  utf8.ValidRune r = true ->
  utf8.DecodeRuneInString (utf8.EncodeRune r ++ t)
  = (r, length (utf8.EncodeRune r)).
Proof.
  unfold utf8.EncodeRune. unfold utf8.ValidRune, utf8.between, utf8.MaxRune. intros Hv.
  apply orb_true_iff in Hv.
  assert (0 <= r <= 0xD7FF \/ 0xE000 <= r <= 0x10FFFF) as Hr.
  { destruct Hv as [Hv|Hv]; apply andb_true_iff in Hv; destruct Hv as [H1 H2];
      apply Z.leb_le in H1, H2; lia. }
  clear Hv.
  destruct (Z.le_gt_cases r 0x7F) as [H1|H1];
    [|destruct (Z.le_gt_cases r 0x7FF) as [H2|H2];
      [|destruct (Z.le_gt_cases r 0xFFFF) as [H3|H3]]].
  - (* one byte *)
    resolve_if. cbn [app length]. unfold utf8.DecodeRuneInString, utf8.RuneSelf.
    rewrite code_chr by lia. resolve_if. reflexivity.
  - (* two bytes *)
    resolve_if. cbn [app length]. unfold utf8.DecodeRuneInString, utf8.RuneSelf, utf8.cont,
      utf8.between.
    rewrite enc_cont. rewrite shiftr_div by lia. change (2 ^ 6) with 64.
    rewrite (lor_lead 0xC0 (r / 64) 5) by (change (2 ^ 5) with 32; first [reflexivity | zlia]).
    resolve_if. f_equal.
    rewrite dec_cont by zlia.
    change 0x1F with (Z.ones 5). rewrite land_mask, shiftl_mul by lia.
    change (2 ^ 5) with 32. change (2 ^ 6) with 64.
    rewrite (lor_disjoint _ _ 6); change (2 ^ 6) with 64; zlia.
  - (* three bytes *)
    resolve_if. cbn [app length]. unfold utf8.DecodeRuneInString, utf8.RuneSelf, utf8.cont,
      utf8.between, utf8.second_lo, utf8.second_hi.
    rewrite !enc_cont. rewrite !shiftr_div by lia.
    change (2 ^ 6) with 64. change (2 ^ 12) with 4096.
    rewrite (lor_lead 0xE0 (r / 4096) 4) by (change (2 ^ 4) with 16; first [reflexivity | zlia]).
    split_eqb; resolve_if; f_equal.
    all: try (exfalso; zlia).
    all: rewrite !dec_cont by zlia.
    all: change 0x0F with (Z.ones 4); rewrite land_mask, !shiftl_mul by lia.
    all: change (2 ^ 4) with 16; change (2 ^ 6) with 64; change (2 ^ 12) with 4096.
    all: rewrite (lor_disjoint (_ * 4096) (_ * 64) 12)
        by (change (2 ^ 12) with 4096; zlia).
    all: rewrite (lor_disjoint _ _ 6); change (2 ^ 6) with 64; zlia.
  - (* four bytes *)
    resolve_if. cbn [app length]. unfold utf8.DecodeRuneInString, utf8.RuneSelf, utf8.cont,
      utf8.between, utf8.second_lo, utf8.second_hi.
    rewrite !enc_cont. rewrite !shiftr_div by lia.
    change (2 ^ 6) with 64. change (2 ^ 12) with 4096. change (2 ^ 18) with 262144.
    rewrite (lor_lead 0xF0 (r / 262144) 3) by (change (2 ^ 3) with 8; first [reflexivity | zlia]).
    split_eqb; resolve_if; f_equal.
    all: try (exfalso; zlia).
    all: rewrite !dec_cont by zlia.
    all: change 0x07 with (Z.ones 3); rewrite land_mask, !shiftl_mul by lia.
    all: change (2 ^ 3) with 8; change (2 ^ 6) with 64; change (2 ^ 12) with 4096;
      change (2 ^ 18) with 262144.
    all: rewrite (lor_disjoint (_ * 262144) (_ * 4096) 18)
        by (change (2 ^ 18) with 262144; zlia).
    all: rewrite (lor_disjoint (_ + _ * 4096) (_ * 64) 12)
        by (change (2 ^ 12) with 4096; zlia).
    all: rewrite (lor_disjoint _ _ 6); change (2 ^ 6) with 64; zlia.
Qed.


Lemma EncodeRune_nonempty (r : Z) : utf8.EncodeRune r <> [].
Proof. unfold utf8.EncodeRune. repeat case_match; discriminate. Qed.

Lemma runes_encode (r : Z) (t : gostring) :
  utf8.ValidRune r = true -> runes (utf8.EncodeRune r ++ t) = r :: runes t.
Proof.
  intros Hv. pose proof (decode_encode r t Hv) as Hd.
  pose proof (EncodeRune_nonempty r) as Hne.
  destruct (utf8.EncodeRune r) as [|b0 e] eqn:E; [congruence|].
  cbn [app] in *. rewrite runes_step, Hd. cbn [fst snd].
  change (b0 :: e ++ t) with ((b0 :: e) ++ t). rewrite drop_app_length. reflexivity.
Qed.

Lemma runes_encode_all (rs : list Z) :
  Forall (fun r => utf8.ValidRune r = true) rs ->
  runes (concat (map utf8.EncodeRune rs)) = rs.
Proof.
  induction 1 as [|r rs Hr _ IH]; [reflexivity|].
  cbn [map concat]. rewrite runes_encode by exact Hr. rewrite IH. reflexivity.
Qed.

End Utf8Facts.

(** ** Escaping control characters *)

Section ControlCharacters.

Context (env : Env).

Lemma named_escape_cases (r : Z) (c : byte) :
  named_escape r = Some c ->
  r = 7 \/ r = 8 \/ r = 12 \/ r = 10 \/ r = 13 \/ r = 9 \/ r = 11.
Proof.
  unfold named_escape. intros H.
  repeat match type of H with
         | (if ?x =? ?y then _ else _) = _ =>
             destruct (Z.eqb_spec x y); [lia|]
         end.
  discriminate.
Qed.

Lemma named_escape_one (q : bool) (r : Z) (c : byte) :
  named_escape r = Some c -> escape_one env q r = [BACKSLASH; c].
Proof.
  intros H. pose proof (named_escape_cases r c H) as Hr.
  destruct q; destruct Hr as [->|[->|[->|[->|[->|[->| ->]]]]]];
    injection H as <-; reflexivity.
Qed.

Lemma named_escape_not_printable (r : Z) (c : byte) :
  named_escape r = Some c -> IsPrint env r = false /\ utf8.ValidRune r = true /\ r <> 0x22.
Proof.
  intros H. pose proof (named_escape_cases r c H) as Hr.
  destruct Hr as [->|[->|[->|[->|[->|[->| ->]]]]]]; repeat split; discriminate.
Qed.

Lemma printable_escape_one (q : bool) (r : Z) :
  IsPrint env r = true ->
  escape_one env q r
  = if q && (r =? 0x22) then [BACKSLASH; DQUOTE] else utf8.EncodeRune r.
Proof.
  intros H. unfold escape_one, escape_rune. rewrite H.
  destruct (q && (r =? 34)); reflexivity.
Qed.

Lemma control_or_printable_valid (r : Z) :
  control_or_printable env r -> utf8.ValidRune r = true.
Proof.
  intros [H|[H _]]; [|exact H].
  destruct (named_escape r) as [c|] eqn:E; [|congruence].
  apply (named_escape_not_printable r c E).
Qed.

Lemma control_or_printable_escape (q : bool) (r : Z) :
  control_or_printable env r -> escape_one env q r = escaped_rune q r.
Proof.
  intros H. unfold escaped_rune.
  destruct (named_escape r) as [c|] eqn:E.
  - apply named_escape_one. exact E.
  - destruct H as [H|[_ H]]; [congruence|]. apply printable_escape_one. exact H.
Qed.

(** C4, as the code has it.  A string made of the seven control
    characters with a named escape and of printable characters is
    escaped rune by rune, in order: a control character becomes its
    named escape, a printable character is written as it is, but for the
    double quote when quotes are escaped, which becomes a backslash and
    the quote.  Without quote escaping, or without a double quote, that
    is the named escapes with every other character as it is. *)
Theorem control_characters_escaped (q : bool) (rs : list Z) :
  Forall (control_or_printable env) rs ->
  writeEscapedForOutput env [] (concat (map utf8.EncodeRune rs)) q
  = concat (map (escaped_rune q) rs)
  /\ (q = false \/ ~ In 0x22 rs ->
      writeEscapedForOutput env [] (concat (map utf8.EncodeRune rs)) q
      = concat (map escape_or_verbatim rs)).
Proof.
  intros Hrs.
  assert (runes (concat (map utf8.EncodeRune rs)) = rs) as Hrunes.
  { apply runes_encode_all. eapply List.Forall_impl; [|exact Hrs].
    intros r. apply control_or_printable_valid. }
  assert (writeEscapedForOutput env [] (concat (map utf8.EncodeRune rs)) q
          = concat (map (escaped_rune q) rs)) as Hout.
  { destruct (needsEscaping env (concat (map utf8.EncodeRune rs))) eqn:Hn.
    - rewrite writeEscapedForOutput_slow by exact Hn. rewrite Hrunes. f_equal.
      apply List.map_ext_Forall. eapply List.Forall_impl; [|exact Hrs].
      intros r. apply control_or_printable_escape.
    - rewrite writeEscapedForOutput_fast by exact Hn. f_equal.
      apply List.map_ext_in. intros r Hr.
      unfold needsEscaping in Hn. rewrite Hrunes in Hn.
      assert (negb (IsPrint env r) || (r =? 34) = false) as Hf.
      { destruct (negb (IsPrint env r) || (r =? 34)) eqn:E; [|reflexivity].
        assert (existsb (fun b => negb (IsPrint env b) || (b =? 34)) rs = true) as Ht
          by (apply existsb_exists; exists r; split; assumption).
        congruence. }
      apply orb_false_iff in Hf. destruct Hf as [Hp Hq].
      apply negb_false_iff in Hp. unfold escaped_rune.
      destruct (named_escape r) as [c|] eqn:E.
      + destruct (named_escape_not_printable r c E) as [Hnp _]. congruence.
      + rewrite Hq, andb_false_r. reflexivity. }
  split; [exact Hout|]. intros Hq. rewrite Hout. f_equal.
  apply List.map_ext_in. intros r Hr. unfold escaped_rune, escape_or_verbatim.
  destruct (named_escape r); [reflexivity|].
  destruct Hq as [->|Hq]; [reflexivity|].
  destruct (Z.eqb_spec r 34) as [->|_]; [contradiction|].
  rewrite andb_false_r. reflexivity.
Qed.

End ControlCharacters.

Lemma control_characters_escaped_witness :
  let rs := [0x78; 0x07; 0x08; 0x0C; 0x0A; 0x0D; 0x09; 0x0B; 0x79; 0xE9] in
  Forall (control_or_printable plainEnv) rs
  /\ concat (map utf8.EncodeRune rs)
     = go "x" ++ ["007"; "008"; "012"; "010"; "013"; "009"; "011"]%char ++ go "yé"
  /\ writeEscapedForOutput plainEnv [] (concat (map utf8.EncodeRune rs)) false
     = go "x\a\b\f\n\r\t\vyé".
Proof.
  intros rs.
  assert (Forall (control_or_printable plainEnv) rs) as H.
  { repeat (apply List.Forall_cons;
              [first [left; discriminate | right; split; reflexivity]|]).
    apply List.Forall_nil. }
  split; [exact H|]. split; [reflexivity|].
  destruct (control_characters_escaped plainEnv false rs H) as [E _].
  rewrite E. reflexivity.
Defined.

(** With quote escaping, a double quote next to the control characters
    is not written as it is. *)
Lemma control_characters_counterexample :
  let rs := [0x07; 0x08; 0x0C; 0x0A; 0x0D; 0x09; 0x0B; 0x22] in
  writeEscapedForOutput plainEnv [] (concat (map utf8.EncodeRune rs)) true
    = go "\a\b\f\n\r\t\v\" ++ [DQUOTE]
  /\ ~ (Forall (control_or_printable plainEnv) rs ->
        writeEscapedForOutput plainEnv [] (concat (map utf8.EncodeRune rs)) true
        = concat (map escape_or_verbatim rs)).
Proof.
  intros rs. split; [vm_compute; reflexivity|].
  intros H.
  assert (Forall (control_or_printable plainEnv) rs) as Hrs.
  { repeat (apply List.Forall_cons;
              [first [left; discriminate | right; split; reflexivity]|]).
    apply List.Forall_nil. }
  specialize (H Hrs). vm_compute in H. discriminate.
Qed.

(** ** How one key/value pair is written *)

Section Pairs.

Context (env : Env).

Implicit Types (l : logger env) (k v : any env) (w : Buffer).

(** The three ways of [write_pair], by the tests it makes. *)
Lemma write_pair_cases l w k v :
  write_pair env l w k v =
  if ContainsNL (pair_val l v) then
    w ++ (NL :: go "  ") ++ pair_key l k ++ sep_eq env ++ [NL]
      ++ concat (map (indent_line env (sep_bar env)) (lines_of (Split (pair_val l v))))
      ++ [SPACE]
  else if negb (gostring_eqb (Sprint env v) []) && needsQuoting (pair_val l v) then
    w ++ [SPACE] ++ pair_key l k ++ sep_eq env ++ [DQUOTE]
      ++ writeEscapedForOutput env [] (pair_val l v) true ++ [DQUOTE]
  else
    w ++ [SPACE] ++ pair_key l k ++ sep_eq env ++ pair_val l v.
Proof.
  change (write_pair env l w k v) with
    (if ContainsNL (pair_val l v) then
       WriteByte
         (writeIndent env
            (WriteString
               (WriteString (WriteString w (NL :: go "  ")) (pair_key l k))
               (sep_eq env ++ [NL]))
            (pair_val l v) (sep_bar env)) SPACE
     else if negb (gostring_eqb (Sprint env v) []) && needsQuoting (pair_val l v) then
       WriteByte
         (writeEscapedForOutput env
            (WriteByte
               (WriteString (WriteString (WriteByte w SPACE) (pair_key l k))
                  (sep_eq env)) DQUOTE)
            (pair_val l v) true) DQUOTE
     else
       WriteString
         (WriteString (WriteString (WriteByte w SPACE) (pair_key l k)) (sep_eq env))
         (pair_val l v)).
  destruct (ContainsNL (pair_val l v));
    [|destruct (negb (gostring_eqb (Sprint env v) []) && needsQuoting (pair_val l v))];
    unfold WriteByte, WriteString.
  - rewrite writeIndent_lines. cbn [app]. rewrite <- !app_assoc. reflexivity.
  - rewrite writeEscapedForOutput_app. rewrite <- !app_assoc. reflexivity.
  - rewrite <- !app_assoc. reflexivity.
Qed.

(** With color disabled the value of a pair is its text, or the token
    of two double quotes when the text is empty. *)
Lemma pair_val_plain l v :
  noColor env l = true -> Sprint env v <> [] -> pair_val l v = Sprint env v.
Proof.
  intros Hc Hne. unfold pair_val, value_style. rewrite Hc. cbn [negb].
  destruct (gostring_eqb (Sprint env v) []) eqn:E; [|reflexivity].
  apply gostring_eqb_nil in E. contradiction.
Qed.

Lemma pair_val_plain_empty l v :
  noColor env l = true -> Sprint env v = [] -> pair_val l v = [DQUOTE; DQUOTE].
Proof.
  intros Hc He. unfold pair_val, value_style. rewrite Hc, He. reflexivity.
Qed.

Lemma lines_of_last (segs : list gostring) :
  segs = lines_of segs ++ match last segs with Some [] => [[]] | _ => [] end.
Proof.
  induction segs as [|seg rest IH]; [reflexivity|].
  destruct rest as [|seg' rest'].
  - destruct seg; reflexivity.
  - rewrite lines_of_cons by discriminate.
    change (last (seg :: seg' :: rest')) with (last (seg' :: rest')).
    cbn [app]. f_equal. exact IH.
Qed.

(** C2.  A value that contains a newline (the value as the call writes
    it: its default format, styled unless color is disabled) is written
    as an indented block, whatever the quoting rules say of it: a header
    line with the key, then one line per segment that splitting the
    value at the newlines gives, a trailing empty segment not counted,
    each made of the bar, the escaped segment, which holds no newline of
    its own, and a newline.  The pair never starts as an inline token
    does. *)
Theorem newline_value_block l w k v :
  In NL (pair_val l v) ->
  let segs := lines_of (Split (pair_val l v)) in
  let lines :=
    map (fun seg => sep_bar env ++ writeEscapedForOutput env [] seg false ++ [NL])
      segs in
  write_pair env l w k v =
    w ++ (NL :: go "  ") ++ pair_key l k ++ sep_eq env ++ [NL]
      ++ concat lines ++ [SPACE]
  /\ length lines = count_lines (Split (pair_val l v))
  /\ Forall (fun seg => ~ In NL (writeEscapedForOutput env [] seg false)) segs
  /\ forall rest, write_pair env l w k v <> w ++ SPACE :: rest.
Proof.
  intros Hnl segs lines. apply ContainsNL_In in Hnl.
  rewrite write_pair_cases, Hnl. split; [reflexivity|]. split; [|split].
  - unfold lines, segs. rewrite length_map. apply lines_of_length.
  - unfold segs. apply lines_of_Forall.
    eapply List.Forall_impl; [|apply Split_no_newline].
    intros seg Hseg. apply writeEscapedForOutput_no_newline. exact Hseg.
  - intros rest Heq. apply app_inv_head in Heq. discriminate.
Qed.

(** C9.  [writeIndent] writes one line per segment of the value, in
    order, except for a trailing empty segment, which gives nothing.  An
    empty segment that is not the last gives exactly the indent marker
    and a newline. *)
Theorem empty_segment_line w s indent :
  let segs := Split s in
  writeIndent env w s indent =
    w ++ concat (map (fun seg =>
                        match seg with
                        | [] => indent ++ [NL]
                        | _ :: _ =>
                            indent ++ writeEscapedForOutput env [] seg false ++ [NL]
                        end) (lines_of segs))
  /\ segs = lines_of segs ++ match last segs with Some [] => [[]] | _ => [] end.
Proof.
  intros segs. split; [|apply lines_of_last].
  rewrite writeIndent_lines. f_equal. f_equal.
  apply map_ext. intros [|c seg]; reflexivity.
Qed.

(** C7, as the code has it.  A value that is not empty and whose runes
    are all between [-] and [~] needs no quoting and is written as it
    is, after the key and the separator.  For an empty value
    [needsQuoting] is false as well, but what is written is the token
    of two double quotes that stands for it, not the empty value. *)
Theorem normal_value_verbatim l w k v :
  (Sprint env v = [] /\ ~ In NL (pair_val l v))
  \/ (Sprint env v <> []
      /\ Forall (fun r => isNormal r = true) (runes (pair_val l v))) ->
  needsQuoting (if gostring_eqb (Sprint env v) [] then [] else pair_val l v) = false
  /\ write_pair env l w k v =
       w ++ [SPACE] ++ pair_key l k ++ sep_eq env ++ pair_val l v
  /\ pair_val l v =
       value_style l (if gostring_eqb (Sprint env v) []
                      then [DQUOTE; DQUOTE] else Sprint env v).
Proof.
  intros H. split; [|split; [|reflexivity]].
  - destruct H as [[-> _]|[Hne Hn]]; [reflexivity|].
    destruct (gostring_eqb (Sprint env v) []) eqn:E; [reflexivity|].
    apply needsQuoting_false. exact Hn.
  - rewrite write_pair_cases.
    destruct H as [[He Hnl]|[Hne Hn]].
    + apply ContainsNL_false in Hnl. rewrite Hnl.
      apply gostring_eqb_nil in He. rewrite He. reflexivity.
    + apply needsQuoting_false in Hn. rewrite Hn, andb_false_r.
      destruct (ContainsNL (pair_val l v)) eqn:Hc; [|reflexivity].
      apply ContainsNL_In in Hc.
      rewrite (needsQuoting_ascii _ NL Hc) in Hn by reflexivity. discriminate.
Qed.

(** C1, as the code has it.  For every value with a double quote or a
    space, [needsQuoting] is true.  When the value has no newline, the
    pair is written inline with the value between double quotes, and
    between them the value escaped with quote escaping: with a double
    quote in the value that is, rune by rune, what [escape_one] gives,
    which for a double quote is a backslash and the quote; no double
    quote is left between the two but after a backslash.  (A value with
    a newline is written as a block instead.) *)
Theorem quoted_value l w k v :
  In DQUOTE (pair_val l v) \/ In SPACE (pair_val l v) ->
  needsQuoting (pair_val l v) = true
  /\ (Sprint env v <> [] -> ~ In NL (pair_val l v) ->
      write_pair env l w k v =
        w ++ [SPACE] ++ pair_key l k ++ sep_eq env ++ [DQUOTE]
          ++ writeEscapedForOutput env [] (pair_val l v) true ++ [DQUOTE]
      /\ (In DQUOTE (pair_val l v) ->
          writeEscapedForOutput env [] (pair_val l v) true =
          concat (map (escape_one env true) (runes (pair_val l v))))
      /\ escape_one env true 0x22 = [BACKSLASH; DQUOTE]
      /\ quotes_escaped DQUOTE (writeEscapedForOutput env [] (pair_val l v) true)
         = true).
Proof.
  intros H.
  assert (needsQuoting (pair_val l v) = true) as Hq
    by (apply needsQuoting_quote_or_space; exact H).
  split; [exact Hq|]. intros Hne Hnl. split; [|split; [|split]].
  - rewrite write_pair_cases, Hq.
    apply ContainsNL_false in Hnl. rewrite Hnl.
    destruct (gostring_eqb (Sprint env v) []) eqn:E; [|reflexivity].
    apply gostring_eqb_nil in E. contradiction.
  - intros Hd. apply writeEscapedForOutput_slow. apply needsEscaping_quote. exact Hd.
  - reflexivity.
  - apply writeEscapedForOutput_quotes.
Qed.

End Pairs.

Lemma newline_value_block_witness :
  let v : any plainEnv := AnyString (go "a" ++ [NL] ++ go "b") in
  In NL (pair_val plainLogger v)
  /\ write_pair plainEnv plainLogger [] (AnyString (go "lines")) v =
       [NL] ++ go "  lines=" ++ [NL] ++ go "  │ a" ++ [NL] ++ go "  │ b" ++ [NL]
         ++ [SPACE].
Proof.
  intros v.
  assert (In NL (pair_val plainLogger v)) as H by (vm_compute; tauto).
  split; [exact H|].
  destruct (newline_value_block plainEnv plainLogger [] (AnyString (go "lines")) v H)
    as [E _].
  rewrite E. vm_compute. reflexivity.
Defined.

Lemma normal_value_verbatim_witness :
  let v : any plainEnv := AnyString (go "abc-DEF~") in
  ((Sprint plainEnv v = [] /\ ~ In NL (pair_val plainLogger v))
   \/ (Sprint plainEnv v <> []
       /\ Forall (fun r => isNormal r = true) (runes (pair_val plainLogger v))))
  /\ write_pair plainEnv plainLogger [] (AnyString (go "k")) v = go " k=abc-DEF~".
Proof.
  intros v.
  assert ((Sprint plainEnv v = [] /\ ~ In NL (pair_val plainLogger v))
          \/ (Sprint plainEnv v <> []
              /\ Forall (fun r => isNormal r = true) (runes (pair_val plainLogger v))))
    as H.
  { right. split; [discriminate|]. vm_compute. repeat constructor. }
  split; [exact H|].
  destruct (normal_value_verbatim plainEnv plainLogger [] (AnyString (go "k")) v H)
    as [_ [E _]].
  rewrite E. reflexivity.
Defined.

(** The empty value: [needsQuoting] is false, and the pair is written
    with the token of two double quotes, not with the value as it is. *)
Lemma empty_value_counterexample :
  let v : any plainEnv := AnyString [] in
  write_pair plainEnv plainLogger [] (AnyString (go "k")) v
    = go " k=" ++ [DQUOTE; DQUOTE]
  /\ ~ (Forall (fun r => isNormal r = true) (runes (Sprint plainEnv v)) ->
        needsQuoting (Sprint plainEnv v) = false
        /\ write_pair plainEnv plainLogger [] (AnyString (go "k")) v
           = go " k=" ++ Sprint plainEnv v).
Proof.
  intros v. split; [reflexivity|].
  intros H. destruct H as [_ E]; [constructor|].
  vm_compute in E. discriminate.
Qed.

Lemma quoted_value_witness :
  let v : any plainEnv := AnyString (go "say " ++ [DQUOTE] ++ go "hi" ++ [DQUOTE]) in
  (In DQUOTE (pair_val plainLogger v) \/ In SPACE (pair_val plainLogger v))
  /\ write_pair plainEnv plainLogger [] (AnyString (go "k")) v
     = go " k=" ++ [DQUOTE] ++ go "say \" ++ [DQUOTE] ++ go "hi\" ++ [DQUOTE; DQUOTE].
Proof.
  intros v.
  assert (In DQUOTE (pair_val plainLogger v) \/ In SPACE (pair_val plainLogger v)) as H.
  { left. vm_compute. tauto. }
  split; [exact H|].
  destruct (quoted_value plainEnv plainLogger [] (AnyString (go "k")) v H) as [_ Hw].
  destruct Hw as [E _].
  - discriminate.
  - vm_compute. intuition discriminate.
  - rewrite E. vm_compute. reflexivity.
Defined.

(** A value with a space, a double quote and a newline: it is written as
    a block, with the double quote as it is, and not between quotes. *)
Lemma quoted_value_counterexample :
  let v : any plainEnv := AnyString (go "a " ++ [DQUOTE] ++ go "b" ++ [NL] ++ go "c") in
  write_pair plainEnv plainLogger [] (AnyString (go "k")) v
    = [NL] ++ go "  k=" ++ [NL] ++ go "  │ a " ++ [DQUOTE] ++ go "b" ++ [NL]
        ++ go "  │ c" ++ [NL] ++ [SPACE]
  /\ ~ (In DQUOTE (pair_val plainLogger v) \/ In SPACE (pair_val plainLogger v) ->
        needsQuoting (pair_val plainLogger v) = true
        /\ write_pair plainEnv plainLogger [] (AnyString (go "k")) v
           = go " k=" ++ [DQUOTE]
               ++ writeEscapedForOutput plainEnv [] (pair_val plainLogger v) true
               ++ [DQUOTE]).
Proof.
  intros v. split; [vm_compute; reflexivity|].
  intros H. destruct H as [_ E]; [left; vm_compute; tauto|].
  vm_compute in E. discriminate.
Qed.

(** ** Slices and [append] *)

Section Slices.

Context (env : Env).

Implicit Types (A : list (list (any env))) (s : slice) (xs : list (any env)).

Lemma backing_Some A s arr : A !! ptr s = Some arr -> backing env A s = arr.
Proof. unfold backing. intros ->. reflexivity. Qed.

Lemma backing_None A s : A !! ptr s = None -> backing env A s = [].
Proof. unfold backing. intros ->. reflexivity. Qed.

Lemma elements_length A s :
  slice_ok A s -> length (elements env A s) = len s.
Proof.
  intros [H1 H2]. unfold elements. rewrite length_take. lia.
Qed.

Lemma append_len A s xs :
  len (fst (append env A s xs)) = (len s + length xs)%nat.
Proof. unfold append. case_match; reflexivity. Qed.

(** With room, [append] stores in place; the array keeps its length. *)
Lemma append_fit A s xs :
  slice_ok A s -> (len s + length xs <= cap s)%nat ->
  append env A s xs =
    ({| ptr := ptr s; len := len s + length xs; cap := cap s |},
     <[ptr s := elements env A s ++ xs
                ++ drop (len s + length xs) (backing env A s)]> A).
Proof.
  intros _ Hfit. unfold append.
  destruct (Nat.leb_spec (len s + length xs) (cap s)); [reflexivity | lia].
Qed.

Lemma append_grow A s xs :
  (cap s < len s + length xs)%nat ->
  append env A s xs =
    ({| ptr := length A; len := len s + length xs;
        cap := len s + length xs
               + growslice_spare env (cap s) (len s + length xs) |},
     A ++ [elements env A s ++ xs
           ++ replicate (growslice_spare env (cap s) (len s + length xs)) AnyNil]).
Proof.
  intros Hgrow. unfold append.
  destruct (Nat.leb_spec (len s + length xs) (cap s)); [lia | reflexivity].
Qed.

(** [append] shows the old elements followed by the new ones. *)
Lemma append_elements A s xs :
  slice_ok A s ->
  elements env (snd (append env A s xs)) (fst (append env A s xs))
  = elements env A s ++ xs.
Proof.
  intros Hok. pose proof (elements_length A s Hok) as Hlen.
  destruct Hok as [H1 H2].
  destruct (Nat.leb_spec (len s + length xs) (cap s)) as [Hfit|Hgrow].
  - rewrite append_fit by (done || split; done). cbn [fst snd].
    destruct (A !! ptr s) as [arr|] eqn:E.
    + unfold elements at 1. cbn [len].
      erewrite backing_Some
        by (cbn [ptr]; apply list_lookup_insert_eq; eapply lookup_lt_Some; exact E).
      rewrite app_assoc, take_app_le by (rewrite length_app; lia).
      apply take_ge. rewrite length_app. lia.
    + rewrite (backing_None A s E) in H2. simpl in H2.
      assert (length xs = 0%nat) as Hx by lia.
      destruct xs; [|discriminate]. rewrite app_nil_r.
      unfold elements. cbn [len ptr].
      rewrite (backing_None A s E).
      rewrite backing_None; [rewrite !take_nil; reflexivity|].
      cbn [ptr]. rewrite list_insert_ge by (apply lookup_ge_None; exact E). exact E.
  - rewrite append_grow by done. cbn [fst snd].
    unfold elements at 1. cbn [len].
    erewrite backing_Some
      by (cbn [ptr]; rewrite lookup_app_r, Nat.sub_diag by lia; reflexivity).
    rewrite app_assoc, take_app_le by (rewrite length_app; lia).
    apply take_ge. rewrite length_app. lia.
Qed.

Lemma append_ok A s xs :
  slice_ok A s ->
  slice_ok (snd (append env A s xs)) (fst (append env A s xs)).
Proof.
  intros Hok. pose proof (elements_length A s Hok) as Hlen.
  destruct Hok as [H1 H2].
  destruct (Nat.leb_spec (len s + length xs) (cap s)) as [Hfit|Hgrow].
  - rewrite append_fit by (done || split; done). cbn [fst snd].
    split; cbn [len cap]; [lia|].
    destruct (A !! ptr s) as [arr|] eqn:E.
    + erewrite backing_Some
        by (cbn [ptr]; apply list_lookup_insert_eq; eapply lookup_lt_Some; exact E).
      rewrite (backing_Some A s arr E) in *.
      rewrite !length_app, length_drop. lia.
    + rewrite (backing_None A s E) in H2. simpl in H2. lia.
  - rewrite append_grow by done. cbn [fst snd].
    split; cbn [len cap]; [lia|].
    erewrite backing_Some
      by (cbn [ptr]; rewrite lookup_app_r, Nat.sub_diag by lia; reflexivity).
    rewrite !length_app, length_replicate. lia.
Qed.

(** [append] leaves in place what a sound slice shows: it stores past
    the length of the slice it grows, or in a new array. *)
Lemma append_keeps_self A s xs :
  slice_ok A s ->
  elements env (snd (append env A s xs)) s = elements env A s.
Proof.
  intros Hok. pose proof (elements_length A s Hok) as Hlen.
  destruct Hok as [H1 H2].
  destruct (Nat.leb_spec (len s + length xs) (cap s)) as [Hfit|Hgrow].
  - rewrite append_fit by (done || split; done). cbn [fst snd].
    destruct (A !! ptr s) as [arr|] eqn:E.
    + unfold elements at 1.
      erewrite backing_Some
        by (apply list_lookup_insert_eq; eapply lookup_lt_Some; exact E).
      rewrite take_app_le by lia. apply take_ge. lia.
    + unfold elements. rewrite (backing_None A s E).
      rewrite backing_None; [reflexivity|].
      rewrite list_insert_ge by (apply lookup_ge_None; exact E). exact E.
  - rewrite append_grow by done. cbn [fst snd].
    unfold elements, backing.
    destruct (A !! ptr s) as [arr|] eqn:E.
    + rewrite lookup_app_l by (eapply lookup_lt_Some; exact E). rewrite E. reflexivity.
    + unfold backing in H2. rewrite E in H2. simpl in H2.
      assert (len s = 0%nat) as -> by lia. reflexivity.
Qed.

End Slices.

(** ** Running the calls on a store *)

Section Running.

Context (env : Env).

Implicit Types (L : list (logger env)) (A : list (list (any env)))
  (T : list Event) (l : logger env) (s : state env).

Lemma state_at_intro s p l :
  loggers env (heap env s) !! p = Some l ->
  s = state_at (loggers env (heap env s)) (arrays env (heap env s))
        (mutexes env (heap env s)) (trace env s) p l.
Proof.
  intros H. unfold state_at. rewrite list_insert_id by exact H.
  destruct s as [[? ? ?] ?]. reflexivity.
Qed.

Lemma run_bind {X Y Z} (m : M env X) (f : X -> M env Y) (g : Y -> M env Z) s :
  bind env (bind env m f) g s = bind env m (fun x => bind env (f x) g) s.
Proof. unfold bind. destruct (m s) as [[a|] s']; reflexivity. Qed.

Lemma run_load {Y} L A n T p l (k : logger env -> M env Y) :
  (p < length L)%nat ->
  bind env (load env p) k (state_at L A n T p l) = k l (state_at L A n T p l).
Proof.
  intros H. unfold bind, load, state_at. cbn [heap loggers].
  rewrite list_lookup_insert_eq by exact H. reflexivity.
Qed.

Lemma run_emit {Y} L A n T p l e (k : unit -> M env Y) :
  bind env (emit env e) k (state_at L A n T p l)
  = k tt (state_at L A n (T ++ [e]) p l).
Proof. reflexivity. Qed.

Lemma run_get_store {Y} s (k : store env -> M env Y) :
  bind env (get_store env) k s = k (heap env s) s.
Proof. reflexivity. Qed.

Lemma run_exec {X Y} (m : M env X) (k : X -> M env Y) s a s' :
  m s = (Ret a, s') -> bind env m k s = k a s'.
Proof. unfold bind. intros ->. reflexivity. Qed.

Lemma exec_assign L A n T p l f upd :
  (p < length L)%nat ->
  assign env p f upd (state_at L A n T p l)
  = (Ret tt, state_at L A n (T ++ [EvAssign p f]) p (upd l)).
Proof.
  intros H. unfold assign. rewrite run_load by exact H.
  rewrite run_emit. unfold bind, get_store, put_store, state_at.
  cbn [heap loggers arrays mutexes trace].
  rewrite list_insert_insert_eq. reflexivity.
Qed.

Lemma run_assign {Y} L A n T p l f upd (k : unit -> M env Y) :
  (p < length L)%nat ->
  bind env (assign env p f upd) k (state_at L A n T p l)
  = k tt (state_at L A n (T ++ [EvAssign p f]) p (upd l)).
Proof. intros H. apply run_exec, exec_assign, H. Qed.

Lemma run_do_append {Y} L A n T p l sl xs (k : slice -> M env Y) :
  bind env (do_append env sl xs) k (state_at L A n T p l)
  = k (fst (append env A sl xs)) (state_at L (snd (append env A sl xs)) n T p l).
Proof.
  unfold do_append, bind, get_store, put_store, ret, state_at.
  cbn [heap loggers arrays mutexes trace].
  destruct (append env A sl xs) as [s' A']. reflexivity.
Qed.


Lemma exec_emit L A n T p l e :
  emit env e (state_at L A n T p l) = (Ret tt, state_at L A n (T ++ [e]) p l).
Proof. reflexivity. Qed.

Lemma write_pairs_set_b l x (b0 : Buffer) (kvs : list (any env)) :
  write_pairs env (set_b env x l) b0 kvs = write_pairs env l b0 kvs.
Proof.
  revert b0. induction kvs as [kvs IH] using (induction_ltof1 _ (@length _)).
  destruct kvs as [|k [|v rest]]; intros b0; try reflexivity.
  cbn [write_pairs].
  change (write_pair env (set_b env x l) b0 k v) with (write_pair env l b0 k v).
  apply IH. unfold ltof. simpl. lia.
Qed.

Lemma write_pairs_even l (b0 : Buffer) (kvs : list (any env)) :
  Nat.even (length kvs) = true ->
  write_pairs env l b0 kvs = Some (write_each l b0 (pairs kvs)).
Proof.
  revert b0. induction kvs as [kvs IH] using (induction_ltof1 _ (@length _)).
  destruct kvs as [|k [|v rest]]; intros b0 He; try reflexivity; try discriminate.
  cbn [write_pairs pairs write_each fold_left fst snd].
  apply IH; [unfold ltof; simpl; lia | exact He].
Qed.

Lemma effective_keyvals_even (fields kvs : list (any env)) :
  Nat.even (length (effective_keyvals fields kvs)) = true.
Proof.
  unfold effective_keyvals.
  destruct (Nat.odd (length (fields ++ kvs))) eqn:E.
  - rewrite length_app. cbn [length]. rewrite Nat.add_1_r, Nat.even_succ. exact E.
  - rewrite <- Nat.negb_odd, E. reflexivity.
Qed.

Lemma odd_mod2 (n : nat) : negb (Nat.eqb (n mod 2) 0) = Nat.odd n.
Proof.
  rewrite <- Nat.bit0_mod, Nat.bit0_odd. destruct (Nat.odd n); reflexivity.
Qed.


(** Writing the buffer field changes no other field, and the writers
    of the record read the buffer they are given. *)
Lemma b_set_b l x : b env (set_b env x l) = x.
Proof. reflexivity. Qed.

Lemma set_b_set_b l x y : set_b env x (set_b env y l) = set_b env x l.
Proof. reflexivity. Qed.

Lemma keyvals_set_b l x : keyvals env (set_b env x l) = keyvals env l.
Proof. reflexivity. Qed.

Lemma w_set_b l x : w env (set_b env x l) = w env l.
Proof. reflexivity. Qed.

Lemma write_timestamp_set_b l x t b0 :
  write_timestamp env (set_b env x l) t b0 = write_timestamp env l t b0.
Proof. reflexivity. Qed.

Lemma write_level_set_b l x level b0 :
  write_level env (set_b env x l) level b0 = write_level env l level b0.
Proof. reflexivity. Qed.

Lemma write_caller_set_b l x b0 :
  write_caller env (set_b env x l) b0 = write_caller env l b0.
Proof. reflexivity. Qed.

Lemma write_prefix_set_b l x b0 :
  write_prefix env (set_b env x l) b0 = write_prefix env l b0.
Proof. reflexivity. Qed.

Lemma write_msg_set_b l x msg b0 :
  write_msg env (set_b env x l) msg b0 = write_msg env l msg b0.
Proof. reflexivity. Qed.

Ltac logger_simp :=
  rewrite ?b_set_b, ?set_b_set_b, ?keyvals_set_b, ?w_set_b,
    ?write_timestamp_set_b, ?write_level_set_b, ?write_caller_set_b,
    ?write_prefix_set_b, ?write_msg_set_b, ?write_pairs_set_b.

(** What a call of [log] does on a logger that does not discard. *)
Lemma log_run s p l level msg kvs :
  loggers env (heap env s) !! p = Some l ->
  slice_ok (arrays env (heap env s)) (keyvals env l) ->
  w env l <> Discard ->
  exists A',
    log env p level msg kvs s =
    (Ret tt,
     state_at (loggers env (heap env s)) A' (mutexes env (heap env s))
       (trace env s
        ++ log_trace p l
             (record l level msg
                (elements env (arrays env (heap env s)) (keyvals env l)) kvs))
       p (set_b env [] l)).
Proof.
  intros Hl Hok Hw.
  assert (p < length (loggers env (heap env s)))%nat as Hp
    by (eapply lookup_lt_Some; exact Hl).
  destruct s as [[L A n] T]. cbn [heap loggers arrays mutexes trace] in *.
  assert ({| heap := {| loggers := L; arrays := A; mutexes := n |}; trace := T |}
          = state_at L A n T p l) as ->
    by (unfold state_at; rewrite list_insert_id by exact Hl; reflexivity).
  unfold log.
  rewrite run_load by exact Hp. rewrite !run_emit.
  destruct (Writer_eqb (w env l) Discard) eqn:Ew.
  { destruct (w env l); try discriminate. congruence. }
  rewrite !run_emit. unfold defer.
  do 5 (rewrite run_assign by exact Hp; logger_simp).
  rewrite run_load by exact Hp. logger_simp.
  rewrite run_do_append.
  pose proof (append_elements env A (keyvals env l) kvs Hok) as He1.
  pose proof (append_ok env A (keyvals env l) kvs Hok) as Hok1.
  pose proof (append_len env A (keyvals env l) kvs) as Hn1.
  pose proof (elements_length env A (keyvals env l) Hok) as Hn0.
  destruct (append env A (keyvals env l) kvs) as [s1 A1]. cbn [fst snd] in *.
  fold (write_head l (timeFunc env l tt) level msg (b env l)).
  set (hd := write_head l (timeFunc env l tt) level msg (b env l)).
  rewrite odd_mod2.
  assert (exists A2 (s2 : slice),
             elements env A2 s2
             = effective_keyvals (elements env A (keyvals env l)) kvs
             /\ forall Y (k : slice -> M env Y) T' l',
                 bind env
                   (if Nat.odd (len s1)
                    then do_append env s1 [AnyString (go "MISSING_VALUE")]
                    else ret env s1) k (state_at L A1 n T' p l')
                 = k s2 (state_at L A2 n T' p l')) as (A2 & s2 & He2 & Hrun).
  { unfold effective_keyvals. rewrite length_app, Hn0, <- Hn1, <- He1.
    destruct (Nat.odd (len s1)).
    - exists (snd (append env A1 s1 [AnyString (go "MISSING_VALUE")])),
        (fst (append env A1 s1 [AnyString (go "MISSING_VALUE")])).
      split; [apply append_elements; exact Hok1|].
      intros. apply run_do_append.
    - exists A1, s1. split; [reflexivity|]. intros. reflexivity. }
  rewrite Hrun. rewrite run_get_store.
  unfold state_at at 1. cbn [heap arrays]. fold (state_at L A2 n).
  rewrite write_pairs_set_b, He2.
  rewrite write_pairs_even by apply effective_keyvals_even.
  do 2 (rewrite run_assign by exact Hp; logger_simp).
  rewrite run_load by exact Hp. logger_simp.
  rewrite exec_emit, exec_assign by exact Hp. logger_simp.
  cbn [snd]. rewrite exec_emit. cbn [snd].
  exists A2. unfold log_trace, record. fold hd.
  cbn [replicate app]. rewrite <- !app_assoc. reflexivity.
Qed.
End Running.

(** ** The severity methods and [log] *)

Section Calls.

Context (env : Env).

Implicit Types (L : list (logger env)) (A : list (list (any env)))
  (T : list Event) (l : logger env) (s : state env) (c : Severity).

(** A call of [log] on a logger whose sink is [io.Discard]. *)
Lemma log_discard s p l level msg kvs :
  loggers env (heap env s) !! p = Some l ->
  w env l = Discard ->
  log env p level msg kvs s =
  (Ret tt, {| heap := heap env s;
              trace := trace env s ++ [EvRLock (mu env l); EvRUnlock (mu env l)] |}).
Proof.
  intros Hl Hw.
  assert (p < length (loggers env (heap env s)))%nat as Hp
    by (eapply lookup_lt_Some; exact Hl).
  destruct s as [[L A n] T]. cbn [heap loggers arrays mutexes trace] in *.
  assert (Hs : {| heap := {| loggers := L; arrays := A; mutexes := n |}; trace := T |}
          = state_at L A n T p l)
    by (unfold state_at; rewrite list_insert_id by exact Hl; reflexivity).
  rewrite Hs at 1.
  unfold log. rewrite run_load by exact Hp. rewrite !run_emit.
  rewrite Hw. cbn [Writer_eqb]. unfold ret, state_at.
  rewrite list_insert_id by exact Hl. rewrite <- app_assoc. reflexivity.
Qed.

(** A severity method reads the level under the shared lock, and
    either returns or calls [log]. *)
Lemma call_run s p l c msg kvs :
  loggers env (heap env s) !! p = Some l ->
  call env c p msg kvs s =
  let s1 := {| heap := heap env s;
               trace := trace env s ++ [EvRLock (mu env l); EvRUnlock (mu env l)] |} in
  if level env l >? severity_level env c then (Ret tt, s1)
  else log env p (severity_level env c) msg kvs s1.
Proof.
  intros Hl.
  assert (p < length (loggers env (heap env s)))%nat as Hp
    by (eapply lookup_lt_Some; exact Hl).
  destruct s as [[L A n] T]. cbn [heap loggers arrays mutexes trace] in *.
  assert (Hs : forall T', {| heap := {| loggers := L; arrays := A; mutexes := n |};
                             trace := T' |}
          = state_at L A n T' p l)
    by (intros; unfold state_at; rewrite list_insert_id by exact Hl; reflexivity).
  rewrite (Hs T) at 1. cbv zeta. rewrite (Hs (T ++ _)).
  destruct c; cbn [call severity_level];
    unfold Debug, Info, Warn, Error;
    rewrite run_load by exact Hp; rewrite !run_emit, <- app_assoc;
    case_match; reflexivity.
Qed.


Lemma pairs_flatten {X} (xs : list X) :
  Nat.even (length xs) = true ->
  concat (map (fun kv => [fst kv; snd kv]) (pairs xs)) = xs.
Proof.
  induction xs as [xs IH] using (induction_ltof1 _ (@length _)).
  destruct xs as [|k [|v rest]]; intros He; try reflexivity; try discriminate.
  cbn [pairs map concat fst snd app]. do 2 f_equal.
  apply IH; [unfold ltof; simpl; lia | exact He].
Qed.

(** C3.  A call through a severity method at level [c] on a logger
    whose minimum level is above [c] writes nothing to any sink.  At a
    level not below the minimum, with a sink other than [io.Discard], it
    makes exactly one write call, to the sink of the logger, of the
    record of the call, whose last byte is the newline that ends it. *)
Theorem severity_threshold s p l c msg kvs :
  loggers env (heap env s) !! p = Some l ->
  slice_ok (arrays env (heap env s)) (keyvals env l) ->
  exists T',
    fst (call env c p msg kvs s) = Ret tt
    /\ trace env (snd (call env c p msg kvs s)) = trace env s ++ T'
    /\ (severity_level env c < level env l -> sink_writes T' = [])
    /\ (level env l <= severity_level env c -> w env l <> Discard ->
        sink_writes T' =
        [(w env l,
          write_each l
            (write_head l (timeFunc env l tt) (severity_level env c) msg (b env l))
            (pairs (effective_keyvals
                      (elements env (arrays env (heap env s)) (keyvals env l)) kvs))
          ++ [NL])]).
Proof.
  intros Hl Hok. rewrite (call_run s p l c msg kvs Hl). cbv zeta.
  rewrite Z.gtb_ltb.
  destruct (Z.ltb_spec (severity_level env c) (level env l)) as [Hlt|Hge].
  - exists [EvRLock (mu env l); EvRUnlock (mu env l)].
    cbn [fst snd trace]. repeat split; try reflexivity. intros; lia.
  - destruct (w env l) as [|id] eqn:Hw.
    + rewrite (log_discard _ p l) by assumption. cbn [fst snd trace heap].
      exists [EvRLock (mu env l); EvRUnlock (mu env l);
              EvRLock (mu env l); EvRUnlock (mu env l)].
      rewrite <- app_assoc. repeat split; try reflexivity. intros; congruence.
    + destruct (log_run env
                  {| heap := heap env s;
                     trace := trace env s ++ [EvRLock (mu env l); EvRUnlock (mu env l)] |}
                  p l (severity_level env c) msg kvs) as [A' ->];
        [exact Hl | exact Hok | rewrite Hw; discriminate |].
      cbn [fst snd trace heap state_at].
      eexists. split; [reflexivity|]. split.
      { rewrite <- app_assoc. reflexivity. }
      split; [intros; lia|]. intros _ _.
      unfold log_trace. rewrite Hw. reflexivity.
Qed.

(** C10.  With [io.Discard] as its sink, a call at an enabled level
    takes and releases the shared lock twice (to read the level, then
    the sink) and returns: the time function is not called, the
    exclusive lock is not taken, nothing is assigned, and the store is
    as it was, buffer included.  So does [log] itself, at any level. *)
Theorem discard_returns_early s p l c msg kvs :
  loggers env (heap env s) !! p = Some l ->
  w env l = Discard ->
  level env l <= severity_level env c ->
  call env c p msg kvs s =
    (Ret tt,
     {| heap := heap env s;
        trace := trace env s
                 ++ [EvRLock (mu env l); EvRUnlock (mu env l);
                     EvRLock (mu env l); EvRUnlock (mu env l)] |})
  /\ forall level,
      log env p level msg kvs s =
      (Ret tt,
       {| heap := heap env s;
          trace := trace env s ++ [EvRLock (mu env l); EvRUnlock (mu env l)] |}).
Proof.
  intros Hl Hw Hge. split.
  - rewrite (call_run s p l c msg kvs Hl). cbv zeta.
    rewrite Z.gtb_ltb.
    destruct (Z.ltb_spec (severity_level env c) (level env l)); [lia|].
    rewrite (log_discard _ p l) by assumption. cbn [heap trace].
    rewrite <- app_assoc. reflexivity.
  - intros level. apply log_discard; assumption.
Qed.

(** C5.  The record that [log] writes is made of the head of the line
    and then of the pairs of this sequence: the fields of the logger in
    order, the keyvals of the call in order, and when that makes an odd
    number of elements one more element, the string MISSING_VALUE.  The
    pairs, read two by two, are the whole sequence: the added element is
    the value of the last key. *)
Theorem effective_sequence s p l level msg kvs :
  loggers env (heap env s) !! p = Some l ->
  slice_ok (arrays env (heap env s)) (keyvals env l) ->
  w env l <> Discard ->
  let all := elements env (arrays env (heap env s)) (keyvals env l) ++ kvs in
  let seq := if Nat.odd (length all)
             then all ++ [AnyString (go "MISSING_VALUE")] else all in
  exists T',
    fst (log env p level msg kvs s) = Ret tt
    /\ trace env (snd (log env p level msg kvs s)) = trace env s ++ T'
    /\ sink_writes T' =
       [(w env l,
         write_each l (write_head l (timeFunc env l tt) level msg (b env l))
           (pairs seq) ++ [NL])]
    /\ concat (map (fun kv => [fst kv; snd kv]) (pairs seq)) = seq.
Proof.
  intros Hl Hok Hw all seq.
  destruct (log_run env s p l level msg kvs Hl Hok Hw) as [A' ->].
  cbn [fst snd trace state_at].
  eexists. split; [reflexivity|]. split; [reflexivity|]. split.
  - unfold log_trace. destruct (w env l); reflexivity.
  - apply pairs_flatten. apply (effective_keyvals_even env).
Qed.

End Calls.

Lemma severity_threshold_witness :
  let msg : any plainEnv := AnyString (go "start") in
  let kvs : list (any plainEnv) := [AnyString (go "count"); AnyOperand (3 : operand plainEnv)] in
  loggers plainEnv (heap plainEnv plainState) !! 0%nat = Some plainLogger
  /\ slice_ok (arrays plainEnv (heap plainEnv plainState)) (keyvals plainEnv plainLogger)
  /\ sink_writes (trace plainEnv (snd (call plainEnv SevInfo 0 msg kvs plainState)))
     = [(Sink 0, go "INFO start count=3" ++ [NL])]
  /\ sink_writes (trace plainEnv (snd (call plainEnv SevDebug 0 msg kvs plainState)))
     = [].
Proof.
  intros msg kvs.
  assert (loggers plainEnv (heap plainEnv plainState) !! 0%nat = Some plainLogger)
    as H1 by reflexivity.
  assert (slice_ok (arrays plainEnv (heap plainEnv plainState))
            (keyvals plainEnv plainLogger)) as H2 by (split; simpl; lia).
  split; [exact H1|]. split; [exact H2|]. split.
  - destruct (severity_threshold plainEnv plainState 0 plainLogger SevInfo msg kvs H1 H2)
      as (T' & _ & Ht & _ & Hw).
    rewrite Ht. cbn [plainState trace app]. rewrite Hw.
    + vm_compute. reflexivity.
    + vm_compute. discriminate.
    + discriminate.
  - destruct (severity_threshold plainEnv plainState 0 plainLogger SevDebug msg kvs H1 H2)
      as (T' & _ & Ht & Hz & _).
    rewrite Ht. cbn [plainState trace app]. apply Hz. vm_compute. reflexivity.
Defined.

Lemma discard_returns_early_witness :
  let l := set_w plainEnv Discard plainLogger in
  let s := {| heap := {| loggers := [l]; arrays := []; mutexes := 1 |};
              trace := [] |} in
  loggers plainEnv (heap plainEnv s) !! 0%nat = Some l
  /\ w plainEnv l = Discard
  /\ level plainEnv l <= severity_level plainEnv SevError
  /\ call plainEnv SevError 0 (AnyString (go "lost")) [] s
     = (Ret tt, {| heap := heap plainEnv s;
                   trace := [EvRLock 0; EvRUnlock 0; EvRLock 0; EvRUnlock 0] |}).
Proof.
  intros l s.
  assert (level plainEnv l <= severity_level plainEnv SevError) as H3
    by (vm_compute; discriminate).
  split; [reflexivity|]. split; [reflexivity|]. split; [exact H3|].
  apply (discard_returns_early plainEnv s 0 l SevError (AnyString (go "lost")) []
           eq_refl eq_refl H3).
Defined.

Lemma effective_sequence_witness :
  loggers plainEnv (heap plainEnv plainState) !! 0%nat = Some plainLogger
  /\ slice_ok (arrays plainEnv (heap plainEnv plainState)) (keyvals plainEnv plainLogger)
  /\ w plainEnv plainLogger <> Discard
  /\ sink_writes
       (trace plainEnv
          (snd (log plainEnv 0 1 (AnyString (go "x")) [AnyString (go "onlykey")]
                  plainState)))
     = [(Sink 0, go "INFO x onlykey=MISSING_VALUE" ++ [NL])].
Proof.
  assert (loggers plainEnv (heap plainEnv plainState) !! 0%nat = Some plainLogger)
    as H1 by reflexivity.
  assert (slice_ok (arrays plainEnv (heap plainEnv plainState))
            (keyvals plainEnv plainLogger)) as H2 by (split; simpl; lia).
  assert (w plainEnv plainLogger <> Discard) as H3 by discriminate.
  split; [exact H1|]. split; [exact H2|]. split; [exact H3|].
  destruct (effective_sequence plainEnv plainState 0 plainLogger 1
              (AnyString (go "x")) [AnyString (go "onlykey")] H1 H2 H3)
    as (T' & _ & Ht & Hw & _).
  rewrite Ht. cbn [plainState trace app]. rewrite Hw. vm_compute. reflexivity.
Defined.


(** ** Derived loggers and setters *)

Section Derived.

Context (env : Env).

Implicit Types (L : list (logger env)) (A : list (list (any env)))
  (T : list Event) (l d : logger env) (s : state env) (x : Setter env).

(** What [With] does. *)
Lemma With_run s p l ks :
  loggers env (heap env s) !! p = Some l ->
  With env p ks s =
  (Ret (length (loggers env (heap env s))),
   {| heap :=
        {| loggers :=
             loggers env (heap env s)
             ++ [set_keyvals env (fst (append env (arrays env (heap env s)) (keyvals env l) ks))
                   (set_mu env (mutexes env (heap env s)) (set_b env [] l))];
           arrays := snd (append env (arrays env (heap env s)) (keyvals env l) ks);
           mutexes := S (mutexes env (heap env s)) |};
      trace := trace env s |}).
Proof.
  intros Hl. destruct s as [[L A n] T]. cbn [heap loggers arrays mutexes trace] in *.
  unfold With, do_append. unfold bind, load, get_store, put_store, ret.
  cbn [heap loggers arrays mutexes trace]. rewrite Hl.
  cbn [heap loggers arrays mutexes trace]. rewrite Hl.
  cbn [heap loggers arrays mutexes trace].
  destruct (append env A (keyvals env l) ks) as [s' A']. reflexivity.
Qed.

(** What a setter does on the logger it is called on. *)
Lemma run_setter_run s p l x :
  loggers env (heap env s) !! p = Some l ->
  run_setter x p s =
  (Ret tt,
   state_at (loggers env (heap env s)) (arrays env (heap env s))
     (mutexes env (heap env s)) (trace env s ++ setter_trace x p l)
     p (setter_update x l)).
Proof.
  intros Hl.
  assert (p < length (loggers env (heap env s)))%nat as Hp
    by (eapply lookup_lt_Some; exact Hl).
  destruct s as [[L A n] T]. cbn [heap loggers arrays mutexes trace] in *.
  assert (Hs : {| heap := {| loggers := L; arrays := A; mutexes := n |}; trace := T |}
          = state_at L A n T p l)
    by (unfold state_at; rewrite list_insert_id by exact Hl; reflexivity).
  rewrite Hs.
  destruct x; cbn [run_setter setter_update setter_trace setter_field];
    unfold SetLevel, SetPrefix, SetOutput, EnableTimestamp, DisableTimestamp,
      EnableCaller, DisableCaller, SetTimeFormat, SetTimeFunction;
    try (rewrite run_load by exact Hp; rewrite run_emit; unfold defer;
         rewrite exec_assign by exact Hp; cbn [snd]; rewrite exec_emit; cbn [snd];
         rewrite <- !app_assoc; reflexivity).
  rewrite run_assign by exact Hp. rewrite run_load by exact Hp.
  rewrite run_emit. unfold defer, ret. cbn [snd]. rewrite exec_emit. cbn [snd].
  rewrite <- !app_assoc. reflexivity.
Qed.


(** A setter touches one logger and no array. *)
Lemma run_setter_frame s r x :
  arrays env (heap env (snd (run_setter x r s))) = arrays env (heap env s)
  /\ forall a, a <> r ->
     loggers env (heap env (snd (run_setter x r s))) !! a
     = loggers env (heap env s) !! a.
Proof.
  destruct (loggers env (heap env s) !! r) as [lr|] eqn:E.
  - rewrite (run_setter_run s r lr x E). cbn [snd state_at heap arrays loggers].
    split; [reflexivity|]. intros a Ha. apply list_lookup_insert_ne. congruence.
  - assert (snd (run_setter x r s) = s) as ->; [|split; reflexivity].
    destruct x; cbn [run_setter];
      unfold SetLevel, SetPrefix, SetOutput, EnableTimestamp, DisableTimestamp,
        EnableCaller, DisableCaller, SetTimeFormat, SetTimeFunction, assign;
      unfold bind, load; rewrite E; reflexivity.
Qed.

Lemma run_setter_at s r lr x :
  loggers env (heap env s) !! r = Some lr ->
  loggers env (heap env (snd (run_setter x r s))) !! r = Some (setter_update x lr).
Proof.
  intros E. rewrite (run_setter_run s r lr x E). cbn [snd state_at heap loggers].
  apply list_lookup_insert_eq. eapply lookup_lt_Some; exact E.
Qed.

(** Setter calls in any order: each logger is what the calls on its own
    address make of it, and the arrays are as they were. *)
Lemma run_ops_frame ops s a la :
  loggers env (heap env s) !! a = Some la ->
  loggers env (heap env (run_ops ops s)) !! a = Some (apply_ops a ops la)
  /\ arrays env (heap env (run_ops ops s)) = arrays env (heap env s).
Proof.
  revert s la. induction ops as [|[r x] ops IH]; intros s la Ha; [split; [exact Ha|reflexivity]|].
  cbn [run_ops apply_ops fold_left fst snd].
  fold (run_ops ops (snd (run_setter x r s))).
  destruct (run_setter_frame s r x) as [HA Hother].
  destruct (Nat.eqb_spec r a) as [->|Hne].
  - fold (apply_ops a ops (setter_update x la)).
    destruct (IH (snd (run_setter x a s)) (setter_update x la)) as [H1 H2];
      [apply run_setter_at; exact Ha|].
    split; [exact H1 | congruence].
  - fold (apply_ops a ops la).
    destruct (IH (snd (run_setter x r s)) la) as [H1 H2];
      [rewrite Hother by congruence; exact Ha|].
    split; [exact H1 | congruence].
Qed.

Lemma apply_ops_elsewhere a r ops l :
  a <> r -> Forall (fun op => fst op = r) ops -> apply_ops a ops l = l.
Proof.
  intros Hne H. revert l. induction H as [|[r' x] ops Hr _ IH]; intros l; [reflexivity|].
  cbn [apply_ops fold_left fst snd]. cbn [fst] in Hr. subst r'.
  destruct (Nat.eqb_spec r a); [congruence|]. apply IH.
Qed.

(** The events of [log], by the logger and the fields its slice shows. *)
Lemma log_events_of s p l level msg kvs :
  loggers env (heap env s) !! p = Some l ->
  slice_ok (arrays env (heap env s)) (keyvals env l) ->
  events_of (log env p level msg kvs) s
  = log_events p l level msg
      (elements env (arrays env (heap env s)) (keyvals env l)) kvs.
Proof.
  intros Hl Hok. unfold events_of, log_events.
  destruct (w env l) as [|id] eqn:Hw.
  - rewrite (log_discard env s p l) by assumption. cbn [snd trace Writer_eqb].
    apply drop_app_length.
  - destruct (log_run env s p l level msg kvs Hl Hok) as [A' ->];
      [rewrite Hw; discriminate|].
    cbn [snd trace state_at Writer_eqb]. apply drop_app_length.
Qed.

Lemma append_ok_self A (sl : slice) xs :
  slice_ok A sl -> slice_ok (snd (append env A sl xs)) sl.
Proof.
  intros Hok. pose proof (elements_length env A sl Hok) as Hlen.
  destruct Hok as [H1 H2]. split; [exact H1|].
  destruct (Nat.leb_spec (len sl + length xs) (cap sl)) as [Hfit|Hgrow].
  - rewrite append_fit by (done || split; done). cbn [snd].
    destruct (A !! ptr sl) as [arr|] eqn:E.
    + erewrite backing_Some
        by (apply list_lookup_insert_eq; eapply lookup_lt_Some; exact E).
      rewrite (backing_Some env A sl arr E) in *.
      rewrite !length_app, length_drop. lia.
    + rewrite (backing_None env A sl E) in H2. simpl in H2. lia.
  - rewrite append_grow by done. cbn [snd].
    destruct (A !! ptr sl) as [arr|] eqn:E.
    + erewrite backing_Some
        by (rewrite lookup_app_l by (eapply lookup_lt_Some; exact E); exact E).
      rewrite (backing_Some env A sl arr E) in H2. exact H2.
    + rewrite (backing_None env A sl E) in H2. simpl in H2. lia.
Qed.


(** C6.  [With(ks)] on the logger [l] at [p] makes a logger [d] at a new
    address [q]: a copy of [l] but for an empty buffer, a new mutex and
    its fields, which are the fields of [l] followed by [ks], in order.
    The parent is left as it was.  Whatever setters are then called on
    the derived logger, the parent keeps its configuration, and a call
    of [log] on it does and writes what it would have without them; and
    the same with the two loggers exchanged. *)
Theorem derived_logger s p l ks :
  loggers env (heap env s) !! p = Some l ->
  slice_ok (arrays env (heap env s)) (keyvals env l) ->
  exists q d s',
    With env p ks s = (Ret q, s')
    /\ q <> p
    /\ loggers env (heap env s') !! q = Some d
    /\ loggers env (heap env s') !! p = Some l
    /\ d = set_keyvals env (keyvals env d) (set_mu env (mu env d) (set_b env [] l))
    /\ mu env d = mutexes env (heap env s)
    /\ elements env (arrays env (heap env s')) (keyvals env d)
       = elements env (arrays env (heap env s)) (keyvals env l) ++ ks
    /\ elements env (arrays env (heap env s')) (keyvals env l)
       = elements env (arrays env (heap env s)) (keyvals env l)
    /\ (forall ops, Forall (fun op => fst op = q) ops ->
        loggers env (heap env (run_ops ops s')) !! p = Some l
        /\ forall level msg kvs,
            events_of (log env p level msg kvs) (run_ops ops s')
            = events_of (log env p level msg kvs) s')
    /\ (forall ops, Forall (fun op => fst op = p) ops ->
        loggers env (heap env (run_ops ops s')) !! q = Some d
        /\ forall level msg kvs,
            events_of (log env q level msg kvs) (run_ops ops s')
            = events_of (log env q level msg kvs) s').
Proof.
  intros Hl Hok.
  assert (p < length (loggers env (heap env s)))%nat as Hp
    by (eapply lookup_lt_Some; exact Hl).
  rewrite (With_run s p l ks Hl).
  set (A := arrays env (heap env s)) in *.
  set (d := set_keyvals env (fst (append env A (keyvals env l) ks))
              (set_mu env (mutexes env (heap env s)) (set_b env [] l))).
  set (s' := {| heap := {| loggers := loggers env (heap env s) ++ [d];
                           arrays := snd (append env A (keyvals env l) ks);
                           mutexes := S (mutexes env (heap env s)) |};
                trace := trace env s |}).
  assert (loggers env (heap env s') !! length (loggers env (heap env s)) = Some d) as Hq.
  { cbn [s' heap loggers]. rewrite lookup_app_r, Nat.sub_diag by lia. reflexivity. }
  assert (loggers env (heap env s') !! p = Some l) as Hp'.
  { cbn [s' heap loggers]. rewrite lookup_app_l by exact Hp. exact Hl. }
  assert (slice_ok (arrays env (heap env s')) (keyvals env d)) as Hokd
    by (apply append_ok; exact Hok).
  assert (slice_ok (arrays env (heap env s')) (keyvals env l)) as Hokl
    by (apply append_ok_self; exact Hok).
  exists (length (loggers env (heap env s))), d, s'.
  split; [reflexivity|]. split; [lia|]. split; [exact Hq|]. split; [exact Hp'|].
  split; [reflexivity|]. split; [reflexivity|].
  split; [apply append_elements; exact Hok|].
  split; [apply append_keeps_self; exact Hok|].
  assert (forall a r la ops,
             a <> r -> Forall (fun op => fst op = r) ops ->
             loggers env (heap env s') !! a = Some la ->
             slice_ok (arrays env (heap env s')) (keyvals env la) ->
             loggers env (heap env (run_ops ops s')) !! a = Some la
             /\ forall level msg kvs,
                 events_of (log env a level msg kvs) (run_ops ops s')
                 = events_of (log env a level msg kvs) s') as Hframe.
  { intros a r la ops Hne Hops Ha Hoka.
    destruct (run_ops_frame ops s' a la Ha) as [H1 H2].
    rewrite (apply_ops_elsewhere a r ops la Hne Hops) in H1.
    split; [exact H1|]. intros level msg kvs.
    rewrite (log_events_of _ a la) by (try rewrite H2; assumption).
    rewrite (log_events_of s' a la) by assumption.
    rewrite H2. reflexivity. }
  split; intros ops Hops.
  - apply (Hframe p (length (loggers env (heap env s))) l ops); try assumption. lia.
  - apply (Hframe (length (loggers env (heap env s))) p d ops); try assumption. lia.
Qed.

End Derived.

Lemma derived_logger_witness :
  let ks : list (any plainEnv) :=
    [AnyString (go "batch"); AnyOperand (2 : operand plainEnv)] in
  let s1 := snd (With plainEnv 0 ks plainState) in
  let s2 := run_ops [(1%nat, DoSetLevel plainEnv 0)] s1 in
  loggers plainEnv (heap plainEnv plainState) !! 0%nat = Some plainLogger
  /\ slice_ok (arrays plainEnv (heap plainEnv plainState)) (keyvals plainEnv plainLogger)
  /\ fst (With plainEnv 0 ks plainState) = Ret 1%nat
  /\ sink_writes (events_of (call plainEnv SevDebug 1 (AnyString (go "go")) []) s2)
     = [(Sink 0, go "DEBUG go batch=2" ++ [NL])]
  /\ sink_writes (events_of (log plainEnv 0 1 (AnyString (go "go")) []) s2)
     = [(Sink 0, go "INFO go" ++ [NL])].
Proof.
  intros ks s1 s2.
  assert (loggers plainEnv (heap plainEnv plainState) !! 0%nat = Some plainLogger)
    as H1 by reflexivity.
  assert (slice_ok (arrays plainEnv (heap plainEnv plainState))
            (keyvals plainEnv plainLogger)) as H2 by (split; simpl; lia).
  split; [exact H1|]. split; [exact H2|]. split; [reflexivity|].
  split; [vm_compute; reflexivity|].
  destruct (derived_logger plainEnv plainState 0 plainLogger ks H1 H2)
    as (q & d & s' & HW & _ & _ & _ & _ & _ & _ & _ & Hparent & _).
  assert (q = 1%nat /\ s' = s1) as [-> ->].
  { unfold s1. rewrite HW. split; [|reflexivity].
    assert (fst (With plainEnv 0 ks plainState) = Ret 1%nat) as E by reflexivity.
    rewrite HW in E. cbn [fst] in E. congruence. }
  destruct (Hparent [(1%nat, DoSetLevel plainEnv 0)]) as [_ Hout];
    [repeat constructor|].
  unfold s2. rewrite Hout. vm_compute. reflexivity.
Defined.

(** ** The lock discipline of the assignments *)

(** The setters but one, and [log], assign with the exclusive lock of
    the logger held. *)
Lemma setter_trace_locked (env : Env) (x : Setter env) (p : nat) (l : logger env) :
  assigns_locked (mu env l) false (setter_trace x p l)
  = match x with DoDisableTimestamp _ => false | _ => true end.
Proof.
  destruct x; cbn [setter_trace assigns_locked orb andb];
    rewrite ?Nat.eqb_refl; reflexivity.
Qed.

Lemma log_events_locked (env : Env) (p : nat) (l : logger env) (level : Z)
  (msg : any env) (fields kvs : list (any env)) :
  assigns_locked (mu env l) false (log_events p l level msg fields kvs) = true.
Proof.
  unfold log_events, log_trace. destruct (Writer_eqb (w env l) Discard).
  - reflexivity.
  - cbn [app replicate assigns_locked orb andb]. rewrite Nat.eqb_refl. reflexivity.
Qed.

(** C8, where the code departs from it.  [DisableTimestamp] assigns
    the field before it takes the lock: its events are the assignment,
    then the lock and the unlock, and the assignment is not under the
    lock.  [EnableTimestamp], on the same logger, takes the lock first. *)
Theorem DisableTimestamp_assigns_unlocked :
  let l := set_timestamp plainEnv true plainLogger in
  let s := {| heap := {| loggers := [l]; arrays := []; mutexes := 1 |};
              trace := [] |} in
  DisableTimestamp plainEnv 0 s
  = (Ret tt,
     {| heap := {| loggers := [plainLogger]; arrays := []; mutexes := 1 |};
        trace := [EvAssign 0 f_timestamp; EvLock 0; EvUnlock 0] |})
  /\ assigns_locked 0 false (events_of (DisableTimestamp plainEnv 0) s) = false
  /\ events_of (EnableTimestamp plainEnv 0) s
     = [EvLock 0; EvAssign 0 f_timestamp; EvUnlock 0]
  /\ assigns_locked 0 false (events_of (EnableTimestamp plainEnv 0) s) = true.
Proof.
  intros l s. repeat split; reflexivity.
Qed.

(** ** Sharing of the backing array *)

(** [With] does not copy the fields: with room in the backing array of
    the parent, two loggers derived from it store their own fields at
    the same place, and the first then shows the fields of the second. *)
Remark With_shares_backing_array :
  let a : any plainEnv := AnyString (go "a") in
  let one : any plainEnv := AnyOperand (1 : operand plainEnv) in
  let parent := set_keyvals plainEnv {| ptr := 0; len := 2; cap := 4 |} plainLogger in
  let s := {| heap := {| loggers := [parent];
                         arrays := [[a; one; AnyNil; AnyNil]];
                         mutexes := 1 |};
              trace := [] |} in
  let s1 := snd (With plainEnv 0 [AnyString (go "k1"); AnyString (go "v1")] s) in
  let s2 := snd (With plainEnv 0 [AnyString (go "k2"); AnyString (go "v2")] s1) in
  exists d1,
    loggers plainEnv (heap plainEnv s2) !! 1%nat = Some d1
    /\ elements plainEnv (arrays plainEnv (heap plainEnv s1)) (keyvals plainEnv d1)
       = [a; one; AnyString (go "k1"); AnyString (go "v1")]
    /\ elements plainEnv (arrays plainEnv (heap plainEnv s2)) (keyvals plainEnv d1)
       = [a; one; AnyString (go "k2"); AnyString (go "v2")].
Proof.
  intros. eexists. split; [reflexivity|]. split; reflexivity.
Qed.

(** ** The path of the caller *)

Section CallerPath.

Lemma LastIndexByte_range (s : gostring) (c : byte) :
  -1 <= LastIndexByte s c < Z.of_nat (length s).
Proof.
  induction s as [|a s IH]; cbn [LastIndexByte length]; [lia|].
  destruct (Z.leb_spec 0 (LastIndexByte s c)); [lia|].
  destruct (byte_eqb a c); lia.
Qed.

Lemma LastIndexByte_absent (s : gostring) (c : byte) :
  ~ In c s -> LastIndexByte s c = -1.
Proof.
  induction s as [|a s IH]; intros Hn; [reflexivity|].
  cbn [LastIndexByte]. rewrite IH by (intros H; apply Hn; right; exact H).
  cbn. destruct (byte_eqb a c) eqn:E; [|reflexivity].
  apply byte_eqb_true in E. exfalso. apply Hn. left. exact E.
Qed.

(** The index of the last occurrence is the length of what is before
    it. *)
Lemma LastIndexByte_last (a t : gostring) (c : byte) :
  ~ In c t -> LastIndexByte (a ++ c :: t) c = Z.of_nat (length a).
Proof.
  intros Hn. induction a as [|x a IH].
  - cbn [app LastIndexByte length]. rewrite (LastIndexByte_absent t c Hn).
    cbn. unfold byte_eqb. rewrite Ascii.eqb_refl. reflexivity.
  - cbn [app LastIndexByte length]. rewrite IH.
    destruct (Z.leb_spec 0 (Z.of_nat (length a))); lia.
Qed.

(** A string holds no [c], or has a last one. *)
Lemma last_occurrence (s : gostring) (c : byte) :
  ~ In c s \/ exists a t, s = a ++ c :: t /\ ~ In c t.
Proof.
  induction s as [|x s IH]; [left; intros []|].
  destruct IH as [Hn|(a & t & -> & Ht)].
  - destruct (ascii_dec x c) as [->|Hne].
    + right. exists [], s. split; [reflexivity|exact Hn].
    + left. intros [H|H]; [congruence|contradiction].
  - right. exists (x :: a), t. split; [reflexivity|exact Ht].
Qed.


Ltac last_index a t H :=
  let E := fresh "E" in
  pose proof (LastIndexByte_last a t _ H) as E;
  unfold byte in E |- *; rewrite E; clear E.

Ltac index_found :=
  match goal with
  | |- context [?a =? -1] => destruct (Z.eqb_spec a (-1)); [lia|]
  end.

Lemma trimCallerPath_two (pre dir file : gostring) :
  ~ In "/"%char dir -> ~ In "/"%char file ->
  trimCallerPath (pre ++ "/"%char :: dir ++ "/"%char :: file)
  = dir ++ "/"%char :: file.
Proof.
  intros Hd Hf. unfold trimCallerPath, slice_to, slice_from.
  replace (pre ++ "/"%char :: dir ++ "/"%char :: file)
    with ((pre ++ "/"%char :: dir) ++ "/"%char :: file)
    by (rewrite <- app_assoc; reflexivity).
  rewrite (LastIndexByte_last _ file _ Hf).
  destruct (Z.eqb_spec (Z.of_nat (length (pre ++ "/"%char :: dir))) (-1)); [lia|].
  rewrite Nat2Z.id, take_app_length.
  pose proof (LastIndexByte_last pre dir _ Hd) as E.
  unfold byte in E |- *. rewrite E. clear E.
  match goal with
  | |- context [?a =? -1] => destruct (Z.eqb_spec a (-1)); [lia|]
  end.
  rewrite <- app_assoc. cbn [app].
  change (pre ++ "/"%char :: dir ++ "/"%char :: file)
    with (pre ++ ["/"%char] ++ dir ++ "/"%char :: file).
  rewrite app_assoc.
  match goal with
  | |- drop ?k _ = _ =>
      replace k with (length (pre ++ ["/"%char]))
        by (unfold byte; rewrite length_app; simpl; lia)
  end.
  apply drop_app_length.
Qed.

(** A path with no separator, or with one only, is returned as it
    is. *)
Lemma trimCallerPath_short (path : gostring) :
  ~ In "/"%char path
  \/ (exists a file, path = a ++ "/"%char :: file
                     /\ ~ In "/"%char a /\ ~ In "/"%char file) ->
  trimCallerPath path = path.
Proof.
  intros [Hn|(a & file & -> & Ha & Hf)]; unfold trimCallerPath, slice_to.
  - rewrite (LastIndexByte_absent _ _ Hn). reflexivity.
  - last_index a file Hf. index_found.
    rewrite Nat2Z.id, take_app_length. rewrite (LastIndexByte_absent _ _ Ha).
    reflexivity.
Qed.

(** X1.  [trimCallerPath] keeps the last two segments of a path: the
    file and the directory that holds it. *)
Theorem trimCallerPath_last_two (pre dir file : gostring) :
  ~ In "/"%char dir -> ~ In "/"%char file ->
  trimCallerPath (pre ++ "/"%char :: dir ++ "/"%char :: file)
  = dir ++ "/"%char :: file.
Proof. apply trimCallerPath_two. Qed.

(** X2.  A path with no separator, or with one only, is returned as it
    is. *)
Theorem trimCallerPath_few_separators (path : gostring) :
  ~ In "/"%char path
  \/ (exists a file, path = a ++ "/"%char :: file
                     /\ ~ In "/"%char a /\ ~ In "/"%char file) ->
  trimCallerPath path = path.
Proof. apply trimCallerPath_short. Qed.

(** X3.  What [trimCallerPath] returns is the end of the path, and
    trimming it again changes nothing. *)
Theorem trimCallerPath_idempotent (path : gostring) :
  (exists pre, path = pre ++ trimCallerPath path)
  /\ trimCallerPath (trimCallerPath path) = trimCallerPath path.
Proof.
  assert (forall p, trimCallerPath p = p ->
            (exists pre, p = pre ++ trimCallerPath p)
            /\ trimCallerPath (trimCallerPath p) = trimCallerPath p) as fixed.
  { intros p E. rewrite !E. split; [exists []; reflexivity | reflexivity]. }
  destruct (last_occurrence path "/"%char) as [Hn|(a & file & -> & Hf)].
  { apply fixed, trimCallerPath_short. left. exact Hn. }
  destruct (last_occurrence a "/"%char) as [Ha|(pre & dir & -> & Hd)].
  { apply fixed, trimCallerPath_short. right. exists a, file. auto. }
  pose proof (trimCallerPath_two pre dir file Hd Hf) as E.
  unfold byte in E |- *. rewrite <- app_assoc. cbn [app]. rewrite E. split.
  - exists (pre ++ ["/"%char]). rewrite <- app_assoc. reflexivity.
  - apply trimCallerPath_short. right. exists dir, file. auto.
Qed.

End CallerPath.

Lemma trimCallerPath_last_two_witness :
  ~ In "/"%char (go "cmd") /\ ~ In "/"%char (go "main.go")
  /\ trimCallerPath (go "/home/app/cmd/main.go") = go "cmd/main.go".
Proof.
  assert (~ In "/"%char (go "cmd")) as H1 by (vm_compute; intuition discriminate).
  assert (~ In "/"%char (go "main.go")) as H2 by (vm_compute; intuition discriminate).
  split; [exact H1|]. split; [exact H2|].
  apply (trimCallerPath_last_two (go "/home/app") (go "cmd") (go "main.go") H1 H2).
Defined.

Lemma trimCallerPath_few_separators_witness :
  ~ In "/"%char (go "main.go") /\ trimCallerPath (go "main.go") = go "main.go".
Proof.
  assert (~ In "/"%char (go "main.go")) as H by (vm_compute; intuition discriminate).
  split; [exact H|].
  apply (trimCallerPath_few_separators (go "main.go") (or_introl H)).
Defined.

(** ** What escaping leaves of the control characters *)

Section HexEscapes.

Context (env : Env).

Lemma nibble_cases (i : Z) :
  0 <= i < 16 ->
  i = 0 \/ i = 1 \/ i = 2 \/ i = 3 \/ i = 4 \/ i = 5 \/ i = 6 \/ i = 7 \/ i = 8
  \/ i = 9 \/ i = 10 \/ i = 11 \/ i = 12 \/ i = 13 \/ i = 14 \/ i = 15.
Proof. lia. Qed.

Lemma hexdigit_value (i : Z) : 0 <= i < 16 -> hex_digit_value (hexdigit i) = i.
Proof.
  intros H. apply nibble_cases in H.
  repeat (destruct H as [->|H]; [reflexivity|]). subst i. reflexivity.
Qed.

Lemma hexdigit_no_control (i : Z) : 0 <= i < 16 -> no_control (hexdigit i).
Proof.
  intros H. apply nibble_cases in H. unfold no_control.
  repeat (destruct H as [->|H]; [vm_compute; split; congruence|]).
  subst i. vm_compute; split; congruence.
Qed.

Lemma nibble_range (x : Z) : 0 <= Z.land x 0xF < 16.
Proof.
  change 0xF with (Z.ones 4). rewrite land_mask by lia.
  apply Z.mod_pos_bound. reflexivity.
Qed.

Lemma high_nibble_range (c : byte) : 0 <= Z.shiftr (code c) 4 < 16.
Proof.
  pose proof (code_range c). rewrite shiftr_div by lia.
  change (2 ^ 4) with 16. Z.div_mod_to_equations. lia.
Qed.

Lemma IsPrint_ascii (c : byte) :
  code c < 0x80 -> IsPrint env (code c) = true -> no_control c.
Proof.
  pose proof (code_range c) as Hr. intros Hc. unfold IsPrint, utf8.between, no_control.
  destruct (0 <=? code c) eqn:E0; [|apply Z.leb_gt in E0; lia].
  destruct (code c <=? 255) eqn:E1; [|apply Z.leb_gt in E1; lia].
  cbn [andb]. rewrite orb_true_iff, !andb_true_iff, !Z.leb_le. lia.
Qed.

Ltac bytes_no_control H :=
  cbn [In] in H;
  repeat match type of H with
         | _ \/ _ => destruct H as [H|H]
         | False => destruct H
         end;
  subst;
  first [ apply hexdigit_no_control; first [apply nibble_range | apply high_nibble_range]
        | vm_compute; split; congruence ].

(** What one rune becomes holds no control byte. *)
Lemma escape_one_no_control (q : bool) (r : Z) (c : byte) :
  In c (escape_one env q r) -> no_control c.
Proof.
  unfold escape_one, escape_rune, write_hex.
  destruct (q && (r =? 34)) eqn:Eq.
  { unfold WriteString. cbn [app]. intros Hin. bytes_no_control Hin. }
  destruct (IsPrint env r) eqn:Ep.
  { unfold WriteRune. cbn [app]. intros Hin.
    destruct (Z.ltb_spec (code c) 0x80) as [Hc|Hc].
    - apply EncodeRune_ascii in Hin; [|exact Hc]. subst r.
      apply IsPrint_ascii; assumption.
    - unfold no_control. lia. }
  repeat case_match; cbn [fold_left]; unfold WriteString, WriteByte, go;
    cbn [list_ascii_of_string app]; intros Hin; bytes_no_control Hin.
Qed.

(** X4.  Whatever the string, what [writeEscapedForOutput] writes holds no
    ASCII control character: no byte below the space, and no DEL. *)
Theorem escaped_output_no_control (s : gostring) (q : bool) :
  Forall no_control (writeEscapedForOutput env [] s q).
Proof.
  apply List.Forall_forall. intros c Hin.
  destruct (needsEscaping env s) eqn:Hn.
  - rewrite writeEscapedForOutput_slow in Hin by exact Hn.
    apply in_concat in Hin. destruct Hin as [x [Hx Hin]].
    apply in_map_iff in Hx. destruct Hx as [r [<- _]].
    exact (escape_one_no_control q r c Hin).
  - rewrite writeEscapedForOutput_fast in Hin by exact Hn.
    destruct (Z.ltb_spec (code c) 0x80) as [Hc|Hc]; [|unfold no_control; lia].
    apply IsPrint_ascii; [exact Hc|].
    unfold needsEscaping in Hn.
    destruct (IsPrint env (code c)) eqn:Ep; [reflexivity|].
    assert (existsb (fun b => negb (IsPrint env b) || (b =? 34)) (runes s) = true) as Ht.
    { apply existsb_exists. exists (code c). split.
      - apply runes_ascii_In; assumption.
      - rewrite Ep. reflexivity. }
    congruence.
Qed.

End HexEscapes.

(** ** The runes a string decodes to *)

Section DecodedRunes.

Ltac bool_to_Z :=
  repeat match goal with
         | H : _ && _ = true |- _ => apply andb_true_iff in H; destruct H
         | H : (_ <=? _) = true |- _ => apply Z.leb_le in H
         | H : (_ <? _) = true |- _ => apply Z.ltb_lt in H
         | H : (_ <? _) = false |- _ => apply Z.ltb_ge in H
         end.

Ltac second_byte :=
  unfold utf8.second_lo, utf8.second_hi in *;
  repeat match goal with
         | H : context [if ?a =? ?b then _ else _] |- _ => destruct (Z.eqb_spec a b)
         end.

Ltac masks :=
  change 0x3F with (Z.ones 6); change 0x1F with (Z.ones 5);
  change 0x0F with (Z.ones 4); change 0x07 with (Z.ones 3);
  rewrite !land_mask, !shiftl_mul by lia;
  change (2 ^ 3) with 8; change (2 ^ 4) with 16; change (2 ^ 5) with 32;
  change (2 ^ 6) with 64; change (2 ^ 12) with 4096; change (2 ^ 18) with 262144.

Ltac valid_range :=
  unfold utf8.ValidRune, utf8.between, utf8.MaxRune;
  rewrite ?orb_true_iff, ?andb_true_iff, ?Z.leb_le.

Ltac rune_error :=
  cbn [fst]; unfold utf8.RuneError; split; [reflexivity | split; intros; lia].

(** The rune that [DecodeRuneInString] gives is a valid one; it is the
    first byte when that is an ASCII byte, and no ASCII character
    otherwise. *)
Lemma Decode_range (b0 : byte) (t : gostring) :
  let r := fst (utf8.DecodeRuneInString (b0 :: t)) in
  utf8.ValidRune r = true
  /\ (code b0 < 0x80 -> r = code b0)
  /\ (0x80 <= code b0 -> 0x80 <= r).
Proof.
  pose proof (code_range b0) as H0. cbv zeta.
  unfold utf8.DecodeRuneInString, utf8.RuneSelf, utf8.cont.
  destruct (code b0 <? 128) eqn:E1.
  { bool_to_Z. cbn [fst]. split; [valid_range; lia|]. split; intros; lia. }
  bool_to_Z.
  destruct (utf8.between 194 223 (code b0)) eqn:E2.
  { destruct t as [|b1 t]; [rune_error|].
    destruct (utf8.between 128 191 (code b1)) eqn:C1; [|rune_error].
    unfold utf8.between in *. bool_to_Z. cbn [fst]. masks.
    rewrite (lor_disjoint _ _ 6) by (change (2 ^ 6) with 64; Z.div_mod_to_equations; lia).
    split; [valid_range | split; intros]; Z.div_mod_to_equations; lia. }
  destruct (utf8.between 224 239 (code b0)) eqn:E3.
  { destruct t as [|b1 [|b2 t]]; [rune_error|rune_error|].
    pose proof (code_range b1). pose proof (code_range b2).
    destruct (utf8.between _ _ (code b1) && utf8.between 128 191 (code b2)) eqn:C1;
      [|rune_error].
    unfold utf8.between in *. bool_to_Z. cbn [fst]. masks.
    rewrite (lor_disjoint (_ * 4096) (_ * 64) 12)
      by (change (2 ^ 12) with 4096; Z.div_mod_to_equations; lia).
    rewrite (lor_disjoint _ _ 6) by (change (2 ^ 6) with 64; Z.div_mod_to_equations; lia).
    second_byte; (split; [valid_range | split; intros]); Z.div_mod_to_equations; lia. }
  destruct (utf8.between 240 244 (code b0)) eqn:E4; [|rune_error].
  destruct t as [|b1 [|b2 [|b3 t]]]; [rune_error|rune_error|rune_error|].
  pose proof (code_range b1). pose proof (code_range b2). pose proof (code_range b3).
  destruct (utf8.between _ _ (code b1) && utf8.between 128 191 (code b2)
            && utf8.between 128 191 (code b3)) eqn:C1; [|rune_error].
  unfold utf8.between in *. bool_to_Z. cbn [fst]. masks.
  rewrite (lor_disjoint (_ * 262144) (_ * 4096) 18)
    by (change (2 ^ 18) with 262144; Z.div_mod_to_equations; lia).
  rewrite (lor_disjoint (_ + _ * 4096) (_ * 64) 12)
    by (change (2 ^ 12) with 4096; Z.div_mod_to_equations; lia).
  rewrite (lor_disjoint _ _ 6) by (change (2 ^ 6) with 64; Z.div_mod_to_equations; lia).
  second_byte; (split; [valid_range | split; intros]); Z.div_mod_to_equations; lia.
Qed.

(** Ranging over a string yields valid runes only. *)
Lemma runes_valid (s : gostring) :
  Forall (fun r => utf8.ValidRune r = true) (runes s).
Proof.
  induction s as [s IH] using (induction_ltof1 _ (@length _)). unfold ltof in IH.
  destruct s as [|b0 t]; [rewrite runes_nil; apply List.Forall_nil|].
  rewrite runes_step. apply List.Forall_cons.
  - apply (Decode_range b0 t).
  - apply IH. pose proof (Decode_width (b0 :: t) ltac:(discriminate)) as Hw.
    rewrite length_drop. cbn [length] in *. lia.
Qed.

(** A string whose runes are all ASCII characters holds ASCII bytes
    only, and its runes are its bytes. *)
Lemma runes_all_ascii (s : gostring) :
  Forall (fun r => r < 0x80) (runes s) ->
  Forall (fun c => code c < 0x80) s /\ runes s = map code s.
Proof.
  induction s as [|b0 t IH]; intros H.
  - split; [apply List.Forall_nil | apply runes_nil].
  - destruct (Z.ltb_spec (code b0) 0x80) as [Hc|Hc].
    + rewrite runes_ascii in H |- * by exact Hc.
      inversion H as [|? ? _ Ht]; subst. destruct (IH Ht) as [IH1 IH2].
      split; [apply List.Forall_cons; assumption|]. cbn [map]. rewrite IH2. reflexivity.
    + rewrite runes_step in H. pose proof (List.Forall_inv H) as Hr.
      pose proof (Decode_range b0 t) as (_ & _ & Hhigh). cbv zeta in Hhigh.
      specialize (Hhigh Hc). cbv beta in Hr. lia.
Qed.

Lemma runes_of_ascii (s : gostring) :
  Forall (fun c => code c < 0x80) s -> runes s = map code s.
Proof.
  induction 1 as [|c t Hc _ IH]; [apply runes_nil|].
  rewrite runes_ascii by exact Hc. cbn [map]. rewrite IH. reflexivity.
Qed.

End DecodedRunes.

(** ** Values written without quotes *)

Section Unquoted.

Context (env : Env).

Lemma isNormal_range (r : Z) : isNormal r = true <-> 0x2D <= r <= 0x7E.
Proof. unfold isNormal. rewrite andb_true_iff, !Z.leb_le. reflexivity. Qed.

Lemma needsQuoting_bytes (s : gostring) :
  needsQuoting s = false <-> Forall (fun c => 0x2D <= code c <= 0x7E) s.
Proof.
  rewrite needsQuoting_false. split; intros H.
  - assert (Forall (fun r => r < 0x80) (runes s)) as Ha.
    { eapply List.Forall_impl; [|exact H]. intros r Hr. apply isNormal_range in Hr. lia. }
    destruct (runes_all_ascii s Ha) as [_ E]. rewrite E in H.
    apply List.Forall_map in H.
    eapply List.Forall_impl; [|exact H]. intros c Hc. apply isNormal_range. exact Hc.
  - rewrite runes_of_ascii by (eapply List.Forall_impl; [|exact H]; intros c Hc; cbv beta in *; lia).
    apply List.Forall_map.
    eapply List.Forall_impl; [|exact H]. intros c Hc. apply isNormal_range. exact Hc.
Qed.

(** X5.  A string needs no quoting exactly when each of its bytes is an
    ASCII character from the hyphen to the tilde. *)
Theorem unquoted_bytes (s : gostring) :
  needsQuoting s = false <-> Forall (fun c => 0x2D <= code c <= 0x7E) s.
Proof. apply needsQuoting_bytes. Qed.

(** X6.  A string that needs no quoting needs no escaping either: it
    holds no newline, no space and no double quote, and is written as
    it is. *)
Theorem unquoted_needs_no_escape (s : gostring) (w : Buffer) (q : bool) :
  needsQuoting s = false ->
  needsEscaping env s = false
  /\ ~ In NL s /\ ~ In SPACE s /\ ~ In DQUOTE s
  /\ writeEscapedForOutput env w s q = w ++ s.
Proof.
  intros H. apply needsQuoting_bytes in H.
  assert (forall c, In c s -> 0x2D <= code c <= 0x7E) as Hb
    by (apply List.Forall_forall; exact H).
  assert (needsEscaping env s = false) as Hn.
  { unfold needsEscaping.
    rewrite runes_of_ascii
      by (eapply List.Forall_impl; [|exact H]; intros c Hc; cbv beta in *; lia).
    destruct (existsb _ _) eqn:E; [|reflexivity].
    apply existsb_exists in E. destruct E as [r [Hr Ht]].
    apply in_map_iff in Hr. destruct Hr as [c [<- Hc]]. specialize (Hb c Hc).
    unfold IsPrint, utf8.between in Ht.
    replace (0 <=? code c) with true in Ht by (symmetry; apply Z.leb_le; lia).
    replace (code c <=? 255) with true in Ht by (symmetry; apply Z.leb_le; lia).
    replace (32 <=? code c) with true in Ht by (symmetry; apply Z.leb_le; lia).
    replace (code c <=? 126) with true in Ht by (symmetry; apply Z.leb_le; lia).
    replace (code c =? 34) with false in Ht by (symmetry; apply Z.eqb_neq; lia).
    discriminate Ht. }
  split; [exact Hn|].
  repeat split.
  - intros Hin. specialize (Hb _ Hin). vm_compute in Hb. destruct Hb as [Hb _]. apply Hb. reflexivity.
  - intros Hin. specialize (Hb _ Hin). vm_compute in Hb. destruct Hb as [Hb _]. apply Hb. reflexivity.
  - intros Hin. specialize (Hb _ Hin). vm_compute in Hb. destruct Hb as [Hb _]. apply Hb. reflexivity.
  - rewrite writeEscapedForOutput_app, writeEscapedForOutput_fast by exact Hn. reflexivity.
Qed.

End Unquoted.

Lemma unquoted_needs_no_escape_witness :
  needsQuoting (go "abc-DEF~") = false
  /\ writeEscapedForOutput plainEnv (go "k=") (go "abc-DEF~") true = go "k=abc-DEF~".
Proof.
  assert (needsQuoting (go "abc-DEF~") = false) as H by reflexivity.
  split; [exact H|].
  apply (unquoted_needs_no_escape plainEnv (go "abc-DEF~") (go "k=") true H).
Defined.

(** ** Hexadecimal escapes *)

Section HexValue.

Context (env : Env).

Lemma named_escape_none (r : Z) :
  named_escape r = None ->
  r <> 7 /\ r <> 8 /\ r <> 12 /\ r <> 10 /\ r <> 13 /\ r <> 9 /\ r <> 11.
Proof.
  unfold named_escape.
  repeat match goal with
         | |- context [if ?x =? ?y then _ else _] =>
             destruct (Z.eqb_spec x y); [discriminate|]
         end.
  intros _. repeat split; assumption.
Qed.

Lemma IsPrint_quote : IsPrint env 0x22 = true.
Proof. reflexivity. Qed.

Lemma hex_value_2 (a b0 : Z) :
  0 <= a < 16 -> 0 <= b0 < 16 -> hex_value [hexdigit a; hexdigit b0] = 16 * a + b0.
Proof.
  intros Ha Hb. unfold hex_value. cbn [fold_left].
  rewrite !hexdigit_value by assumption. lia.
Qed.

Lemma write_hex_digits (bb : Buffer) (r : Z) (shifts : list Z) :
  write_hex bb r shifts
  = bb ++ map (fun s => hexdigit (Z.land (Z.shiftr r s) 0xF)) shifts.
Proof.
  unfold write_hex. revert bb. induction shifts as [|s shifts IH]; intros bb.
  - cbn [fold_left map]. rewrite app_nil_r. reflexivity.
  - cbn [fold_left map]. rewrite IH. unfold WriteByte. rewrite <- app_assoc. reflexivity.
Qed.

Lemma hex_value_digits (r : Z) (shifts : list Z) (acc : Z) :
  fold_left (fun acc c => 16 * acc + hex_digit_value c)
    (map (fun s => hexdigit (Z.land (Z.shiftr r s) 0xF)) shifts) acc
  = fold_left (fun acc s => 16 * acc + Z.land (Z.shiftr r s) 0xF) shifts acc.
Proof.
  revert acc. induction shifts as [|s shifts IH]; intros acc; [reflexivity|].
  cbn [map fold_left]. rewrite hexdigit_value by apply nibble_range. apply IH.
Qed.

Ltac nibbles :=
  change 0xF with (Z.ones 4); rewrite !land_mask, !shiftr_div by lia;
  change (2 ^ 4) with 16; change (2 ^ 0) with 1; change (2 ^ 8) with 256;
  change (2 ^ 12) with 4096; change (2 ^ 16) with 65536;
  change (2 ^ 20) with 1048576; change (2 ^ 24) with 16777216;
  change (2 ^ 28) with 268435456.

Lemma hex_value_u (r : Z) :
  0 <= r < 0x10000 ->
  fold_left (fun acc s => 16 * acc + Z.land (Z.shiftr r s) 0xF) [12; 8; 4; 0] 0 = r.
Proof.
  intros Hr. cbn [fold_left]. nibbles. Z.div_mod_to_equations. lia.
Qed.

Lemma hex_value_U (r : Z) :
  0 <= r < 0x100000000 ->
  fold_left (fun acc s => 16 * acc + Z.land (Z.shiftr r s) 0xF)
    [28; 24; 20; 16; 12; 8; 4; 0] 0 = r.
Proof.
  intros Hr. cbn [fold_left]. nibbles. Z.div_mod_to_equations. lia.
Qed.

(** X7.  A rune of a string that is neither printable nor one of the
    seven characters with a named escape is written as a backslash, the
    letter x, u or U, and two, four or eight hexadecimal digits whose
    value is the rune. *)
Theorem hex_escape_value (s : gostring) (q : bool) (r : Z) :
  In r (runes s) -> IsPrint env r = false -> named_escape r = None ->
  exists letter digits,
    escape_one env q r = BACKSLASH :: letter :: digits
    /\ hex_value digits = r
    /\ (letter, length digits)
       = (if r <? 0x20 then ("x"%char, 2%nat)
          else if r <? 0x10000 then ("u"%char, 4%nat) else ("U"%char, 8%nat)).
Proof.
  intros Hin Hp Hn.
  assert (utf8.ValidRune r = true) as Hv.
  { pose proof (runes_valid s) as Hall.
    rewrite List.Forall_forall in Hall. exact (Hall r Hin). }
  assert (0 <= r <= 0x10FFFF) as Hr.
  { unfold utf8.ValidRune, utf8.between, utf8.MaxRune in Hv.
    rewrite orb_true_iff, !andb_true_iff, !Z.leb_le in Hv. lia. }
  apply named_escape_none in Hn. destruct Hn as (N1 & N2 & N3 & N4 & N5 & N6 & N7).
  assert (r <> 0x22) as Nq by (intros ->; rewrite IsPrint_quote in Hp; discriminate).
  unfold escape_one, escape_rune.
  replace (r =? 34) with false by (symmetry; apply Z.eqb_neq; exact Nq).
  rewrite andb_false_r, Hp.
  replace (r =? 7) with false by (symmetry; apply Z.eqb_neq; assumption).
  replace (r =? 8) with false by (symmetry; apply Z.eqb_neq; assumption).
  replace (r =? 12) with false by (symmetry; apply Z.eqb_neq; assumption).
  replace (r =? 10) with false by (symmetry; apply Z.eqb_neq; assumption).
  replace (r =? 13) with false by (symmetry; apply Z.eqb_neq; assumption).
  replace (r =? 9) with false by (symmetry; apply Z.eqb_neq; assumption).
  replace (r =? 11) with false by (symmetry; apply Z.eqb_neq; assumption).
  rewrite Hv. cbn [negb].
  destruct (Z.ltb_spec r 32) as [H1|H1]; [|destruct (Z.ltb_spec r 65536) as [H2|H2]].
  - exists "x"%char, [hexdigit (Z.shiftr (code (chr r)) 4);
                      hexdigit (Z.land (code (chr r)) 0xF)].
    split; [reflexivity|]. split; [|reflexivity].
    rewrite hex_value_2 by first [apply high_nibble_range | apply nibble_range].
    rewrite code_chr by lia. nibbles. Z.div_mod_to_equations. lia.
  - exists "u"%char, (map (fun s => hexdigit (Z.land (Z.shiftr r s) 0xF)) [12; 8; 4; 0]).
    split; [rewrite write_hex_digits; reflexivity|]. split; [|reflexivity].
    unfold hex_value. rewrite hex_value_digits. apply hex_value_u. lia.
  - exists "U"%char,
      (map (fun s => hexdigit (Z.land (Z.shiftr r s) 0xF)) [28; 24; 20; 16; 12; 8; 4; 0]).
    split; [rewrite write_hex_digits; reflexivity|]. split; [|reflexivity].
    unfold hex_value. rewrite hex_value_digits. apply hex_value_U. lia.
Qed.

End HexValue.

Lemma hex_escape_value_witness :
  In 0x1B (runes ["027"%char]) /\ IsPrint plainEnv 0x1B = false
  /\ named_escape 0x1B = None
  /\ escape_one plainEnv false 0x1B = go "\x1b"
  /\ exists letter digits,
       escape_one plainEnv false 0x1B = BACKSLASH :: letter :: digits
       /\ hex_value digits = 0x1B.
Proof.
  assert (In 0x1B (runes ["027"%char])) as H1 by (left; reflexivity).
  assert (IsPrint plainEnv 0x1B = false) as H2 by reflexivity.
  assert (named_escape 0x1B = None) as H3 by reflexivity.
  split; [exact H1|]. split; [exact H2|]. split; [exact H3|].
  split; [reflexivity|].
  destruct (hex_escape_value plainEnv ["027"%char] false 0x1B H1 H2 H3)
    as (letter & digits & E & V & _).
  exists letter, digits. split; assumption.
Defined.

(** ** The store after a call of [log] *)

Section LogStore.

Context (env : Env).

Implicit Types (L : list (logger env)) (A : list (list (any env)))
  (T : list Event) (l : logger env) (s : state env) (sl : slice)
  (xs : list (any env)).

(** [append] leaves in place what another sound slice shows, when that
    slice is on another array or no longer than the slice that grows, or
    when the slice that grows is full. *)
Lemma append_keeps A sl xs (sl' : slice) :
  slice_ok A sl -> slice_ok A sl' ->
  ptr sl' <> ptr sl \/ (len sl' <= len sl)%nat \/ (cap sl <= len sl)%nat ->
  elements env (snd (append env A sl xs)) sl' = elements env A sl'.
Proof.
  intros Hok Hok' Hfar. destruct Hok as [H1 H2]. destruct Hok' as [H1' H2'].
  destruct (Nat.leb_spec (len sl + length xs) (cap sl)) as [Hfit|Hgrow].
  - rewrite append_fit by (done || split; done). cbn [fst snd].
    destruct (Nat.eq_dec (ptr sl') (ptr sl)) as [E|E].
    + destruct (A !! ptr sl) as [arr|] eqn:Ea.
      * unfold elements.
        rewrite (backing_Some env _ sl' (take (len sl) (backing env A sl) ++ xs
                   ++ drop (len sl + length xs) (backing env A sl)))
          by (rewrite E; apply list_lookup_insert_eq; eapply lookup_lt_Some; exact Ea).
        rewrite (backing_Some env A sl arr Ea) in *.
        rewrite (backing_Some env A sl' arr) by (rewrite E; exact Ea).
        destruct Hfar as [Hne|[Hle|Hfull]]; [contradiction| |].
        -- rewrite take_app_le by (rewrite length_take; lia).
           rewrite take_take. f_equal. lia.
        -- assert (xs = []) as -> by (destruct xs; [reflexivity|simpl in Hfit; lia]).
           cbn [app length]. rewrite Nat.add_0_r, take_drop. reflexivity.
      * unfold elements, backing. rewrite E.
        rewrite list_insert_ge by (apply lookup_ge_None; exact Ea). reflexivity.
    + unfold elements, backing. rewrite list_lookup_insert_ne by congruence. reflexivity.
  - rewrite append_grow by done. cbn [fst snd].
    unfold elements, backing.
    destruct (A !! ptr sl') as [arr|] eqn:Ea.
    + rewrite lookup_app_l by (eapply lookup_lt_Some; exact Ea). rewrite Ea. reflexivity.
    + unfold backing in H2'. rewrite Ea in H2'. simpl in H2'.
      assert (len sl' = 0%nat) as -> by lia. reflexivity.
Qed.

(** [append] keeps every other sound slice sound. *)
Lemma append_ok_other A sl xs (sl' : slice) :
  slice_ok A sl -> slice_ok A sl' -> slice_ok (snd (append env A sl xs)) sl'.
Proof.
  intros Hok Hok'. destruct Hok as [H1 H2]. destruct Hok' as [H1' H2'].
  split; [exact H1'|].
  destruct (Nat.leb_spec (len sl + length xs) (cap sl)) as [Hfit|Hgrow].
  - rewrite append_fit by (done || split; done). cbn [fst snd].
    destruct (Nat.eq_dec (ptr sl') (ptr sl)) as [E|E].
    + destruct (A !! ptr sl) as [arr|] eqn:Ea.
      * rewrite (backing_Some env _ sl' (take (len sl) (backing env A sl) ++ xs
                   ++ drop (len sl + length xs) (backing env A sl)))
          by (rewrite E; apply list_lookup_insert_eq; eapply lookup_lt_Some; exact Ea).
        rewrite (backing_Some env A sl arr Ea) in *.
        rewrite (backing_Some env A sl' arr) in H2' by (rewrite E; exact Ea).
        rewrite !length_app, length_take, length_drop. lia.
      * unfold backing in *. rewrite E in *.
        rewrite list_insert_ge by (apply lookup_ge_None; exact Ea). exact H2'.
    + unfold backing in *. rewrite list_lookup_insert_ne by congruence. exact H2'.
  - rewrite append_grow by done. cbn [fst snd].
    unfold backing in *.
    destruct (A !! ptr sl') as [arr|] eqn:Ea.
    + rewrite lookup_app_l by (eapply lookup_lt_Some; exact Ea). rewrite Ea. exact H2'.
    + simpl in H2'. lia.
Qed.

Lemma append_ptr A sl xs :
  ptr (fst (append env A sl xs)) = ptr sl
  \/ ptr (fst (append env A sl xs)) = length A.
Proof. unfold append. case_match; [left|right]; reflexivity. Qed.

Lemma slice_ok_within A sl :
  slice_ok A sl -> (0 < len sl)%nat -> (ptr sl < length A)%nat.
Proof.
  intros [H1 H2] Hpos. destruct (A !! ptr sl) as [arr|] eqn:Ea.
  - eapply lookup_lt_Some. exact Ea.
  - rewrite (backing_None env A sl Ea) in H2. simpl in H2. lia.
Qed.

(** A call of [log] leaves in place what the logger's own fields show,
    and what any sound slice shows that is on another array or no longer
    than the fields, or any at all when the fields are full. *)
Lemma log_arrays_keeps A sl kvs (sl' : slice) :
  slice_ok A sl -> slice_ok A sl' ->
  ptr sl' <> ptr sl \/ (len sl' <= len sl)%nat \/ (cap sl <= len sl)%nat ->
  elements env (log_arrays A sl kvs) sl' = elements env A sl'
  /\ slice_ok (log_arrays A sl kvs) sl'.
Proof.
  intros Hok Hok' Hfar. unfold log_arrays.
  pose proof (append_keeps A sl kvs sl' Hok Hok' Hfar) as K1.
  pose proof (append_ok_other A sl kvs sl' Hok Hok') as O1.
  pose proof (append_ok env A sl kvs Hok) as Oa.
  assert (ptr sl' <> ptr (fst (append env A sl kvs))
          \/ (len sl' <= len (fst (append env A sl kvs)))%nat
          \/ (cap (fst (append env A sl kvs)) <= len (fst (append env A sl kvs)))%nat)
    as Hfar1.
  { destruct (Nat.leb_spec (len sl + length kvs) (cap sl)) as [Hfit|Hgrow].
    - rewrite append_fit by assumption. cbn [fst ptr len cap].
      destruct Hfar as [Hne|[Hle|Hfull]]; [left; exact Hne | right; left; lia | right; right; lia].
    - rewrite append_grow by assumption. cbn [fst ptr len cap].
      destruct (Nat.eq_dec (len sl') 0%nat) as [Hz|Hnz]; [right; left; lia|left].
      pose proof (slice_ok_within A sl' Hok' ltac:(lia)). lia. }
  destruct (append env A sl kvs) as [s1 A1]. cbn [fst snd] in *.
  destruct (Nat.odd (len s1)); [|split; assumption].
  split.
  - rewrite append_keeps by assumption. exact K1.
  - apply append_ok_other; assumption.
Qed.

(** With room, [append] stores the new elements in the array, where a
    longer slice on the same array shows them. *)
Lemma append_overwrites A sl xs (n : nat) :
  slice_ok A sl -> (len sl + length xs <= cap sl)%nat -> (n <= length xs)%nat ->
  elements env (snd (append env A sl xs))
    {| ptr := ptr sl; len := len sl + n; cap := cap sl |}
  = elements env A sl ++ take n xs.
Proof.
  intros Hok Hfit Hn. pose proof (elements_length env A sl Hok) as Hlen.
  rewrite append_fit by assumption. cbn [fst snd].
  destruct Hok as [H1 H2].
  destruct (A !! ptr sl) as [arr|] eqn:Ea.
  - unfold elements at 1. cbn [len].
    erewrite backing_Some
      by (cbn [ptr]; apply list_lookup_insert_eq; eapply lookup_lt_Some; exact Ea).
    rewrite take_app_ge by lia. f_equal.
    rewrite Hlen. replace (len sl + n - len sl)%nat with n by lia.
    rewrite take_app_le by lia. reflexivity.
  - rewrite (backing_None env A sl Ea) in H2. simpl in H2.
    assert (length xs = 0%nat) as Hx by lia.
    destruct xs; [|discriminate]. simpl in Hn.
    assert (n = 0%nat) as -> by lia.
    unfold elements. cbn [len ptr].
    rewrite (backing_None env A sl Ea).
    rewrite backing_None; [rewrite !take_nil; reflexivity|].
    cbn [ptr]. rewrite list_insert_ge by (apply lookup_ge_None; exact Ea). exact Ea.
Qed.

(** The same for the calls of [append] that [log] makes. *)
Lemma log_arrays_overwrites A sl kvs (n : nat) :
  slice_ok A sl -> (len sl + length kvs <= cap sl)%nat -> (n <= length kvs)%nat ->
  elements env (log_arrays A sl kvs)
    {| ptr := ptr sl; len := len sl + n; cap := cap sl |}
  = elements env A sl ++ take n kvs.
Proof.
  intros Hok Hfit Hn. unfold log_arrays.
  pose proof (append_overwrites A sl kvs n Hok Hfit Hn) as Ho.
  pose proof (append_ok env A sl kvs Hok) as Hok1.
  rewrite append_fit in * by assumption. cbn [fst snd] in *.
  set (A1 := <[ptr sl := _]> A) in *. cbn [len].
  destruct (Nat.odd (len sl + length kvs)); [|exact Ho].
  rewrite append_keeps; [exact Ho | exact Hok1 | |].
  - destruct Hok1 as [_ Hc]. destruct Hok as [Hlc _].
    split; cbn [len cap]; [lia | exact Hc].
  - right. left. cbn [len]. lia.
Qed.

Ltac buffer_simp :=
  rewrite ?b_set_b, ?set_b_set_b, ?keyvals_set_b, ?w_set_b,
    ?write_timestamp_set_b, ?write_level_set_b, ?write_caller_set_b,
    ?write_prefix_set_b, ?write_msg_set_b, ?write_pairs_set_b.

(** What a call of [log] does on a logger that does not discard, with
    the backing arrays it leaves. *)
Lemma log_run_arrays s p l level msg kvs :
  loggers env (heap env s) !! p = Some l ->
  slice_ok (arrays env (heap env s)) (keyvals env l) ->
  w env l <> Discard ->
  log env p level msg kvs s =
  (Ret tt,
   state_at (loggers env (heap env s))
     (log_arrays (arrays env (heap env s)) (keyvals env l) kvs)
     (mutexes env (heap env s))
     (trace env s
      ++ log_trace p l
           (record l level msg
              (elements env (arrays env (heap env s)) (keyvals env l)) kvs))
     p (set_b env [] l)).
Proof.
  intros Hl Hok Hw.
  assert (p < length (loggers env (heap env s)))%nat as Hp
    by (eapply lookup_lt_Some; exact Hl).
  destruct s as [[L A n] T]. cbn [heap loggers arrays mutexes trace] in *.
  assert ({| heap := {| loggers := L; arrays := A; mutexes := n |}; trace := T |}
          = state_at L A n T p l) as ->
    by (unfold state_at; rewrite list_insert_id by exact Hl; reflexivity).
  unfold log, log_arrays.
  rewrite run_load by exact Hp. rewrite !run_emit.
  destruct (Writer_eqb (w env l) Discard) eqn:Ew.
  { destruct (w env l); try discriminate. congruence. }
  rewrite !run_emit. unfold defer.
  do 5 (rewrite run_assign by exact Hp; buffer_simp).
  rewrite run_load by exact Hp. buffer_simp.
  rewrite run_do_append.
  pose proof (append_elements env A (keyvals env l) kvs Hok) as He1.
  pose proof (append_ok env A (keyvals env l) kvs Hok) as Hok1.
  pose proof (append_len env A (keyvals env l) kvs) as Hn1.
  pose proof (elements_length env A (keyvals env l) Hok) as Hn0.
  destruct (append env A (keyvals env l) kvs) as [s1 A1]. cbn [fst snd] in *.
  fold (write_head l (timeFunc env l tt) level msg (b env l)).
  set (hd := write_head l (timeFunc env l tt) level msg (b env l)).
  rewrite odd_mod2.
  set (A2 := if Nat.odd (len s1)
             then snd (append env A1 s1 [AnyString (go "MISSING_VALUE")]) else A1).
  assert (exists s2 : slice,
             elements env A2 s2
             = effective_keyvals (elements env A (keyvals env l)) kvs
             /\ forall Y (k : slice -> M env Y) T' l',
                 bind env
                   (if Nat.odd (len s1)
                    then do_append env s1 [AnyString (go "MISSING_VALUE")]
                    else ret env s1) k (state_at L A1 n T' p l')
                 = k s2 (state_at L A2 n T' p l')) as (s2 & He2 & Hrun).
  { unfold effective_keyvals, A2. rewrite length_app, Hn0, <- Hn1, <- He1.
    destruct (Nat.odd (len s1)).
    - exists (fst (append env A1 s1 [AnyString (go "MISSING_VALUE")])).
      split; [apply append_elements; exact Hok1|].
      intros. apply run_do_append.
    - exists s1. split; [reflexivity|]. intros. reflexivity. }
  rewrite Hrun. rewrite run_get_store.
  unfold state_at at 1. cbn [heap arrays]. fold (state_at L A2 n).
  rewrite write_pairs_set_b, He2.
  rewrite write_pairs_even by apply effective_keyvals_even.
  do 2 (rewrite run_assign by exact Hp; buffer_simp).
  rewrite run_load by exact Hp. buffer_simp.
  rewrite exec_emit, exec_assign by exact Hp. buffer_simp.
  cbn [snd]. rewrite exec_emit. cbn [snd].
  unfold log_trace, record. fold hd.
  cbn [replicate app]. rewrite <- !app_assoc. reflexivity.
Qed.

End LogStore.

(** ** One call of [log] after another *)

Section LogCalls.

Context (env : Env).

Implicit Types (L : list (logger env)) (A : list (list (any env)))
  (T : list Event) (l : logger env) (s : state env) (sl : slice)
  (xs : list (any env)).

Lemma sink_writes_log_events p l level msg (fields kvs : list (any env)) :
  w env l <> Discard ->
  sink_writes (log_events p l level msg fields kvs)
  = [(w env l, record l level msg fields kvs)].
Proof.
  intros Hw. unfold log_events.
  destruct (Writer_eqb (w env l) Discard) eqn:E; [|reflexivity].
  destruct (w env l); [congruence|discriminate].
Qed.

(** The store a call of [log] leaves. *)
Lemma log_store s p l level msg kvs :
  loggers env (heap env s) !! p = Some l ->
  slice_ok (arrays env (heap env s)) (keyvals env l) ->
  w env l <> Discard ->
  heap env (snd (log env p level msg kvs s))
  = {| loggers := <[p := set_b env [] l]> (loggers env (heap env s));
       arrays := log_arrays (arrays env (heap env s)) (keyvals env l) kvs;
       mutexes := mutexes env (heap env s) |}.
Proof.
  intros Hl Hok Hw. rewrite (log_run_arrays env s p l level msg kvs Hl Hok Hw).
  reflexivity.
Qed.

(** X8.  A call of [log] leaves the logger as it was but for the buffer,
    which it leaves empty, and leaves the fields the logger shows; so
    the keyvals of a call do not stay: the next record is made of the
    fields and of the keyvals of the next call only. *)
Theorem log_then_log s p l level msg kvs level' msg' kvs' :
  loggers env (heap env s) !! p = Some l ->
  slice_ok (arrays env (heap env s)) (keyvals env l) ->
  w env l <> Discard ->
  let s1 := snd (log env p level msg kvs s) in
  loggers env (heap env s1) = <[p := set_b env [] l]> (loggers env (heap env s))
  /\ mutexes env (heap env s1) = mutexes env (heap env s)
  /\ elements env (arrays env (heap env s1)) (keyvals env l)
     = elements env (arrays env (heap env s)) (keyvals env l)
  /\ sink_writes (events_of (log env p level' msg' kvs') s1)
     = [(w env l,
         record (set_b env [] l) level' msg'
           (elements env (arrays env (heap env s)) (keyvals env l)) kvs')].
Proof.
  intros Hl Hok Hw s1.
  assert (p < length (loggers env (heap env s)))%nat as Hp
    by (eapply lookup_lt_Some; exact Hl).
  pose proof (log_store s p l level msg kvs Hl Hok Hw) as Hs. fold s1 in Hs.
  destruct (log_arrays_keeps env (arrays env (heap env s)) (keyvals env l) kvs
              (keyvals env l) Hok Hok (or_intror (or_introl (le_n _)))) as [Hk Hok1].
  rewrite Hs. cbn [loggers arrays mutexes].
  split; [reflexivity|]. split; [reflexivity|]. split; [exact Hk|].
  assert (loggers env (heap env s1) !! p = Some (set_b env [] l)) as Hl1
    by (rewrite Hs; cbn [loggers]; apply list_lookup_insert_eq; exact Hp).
  rewrite (log_events_of env s1 p (set_b env [] l) level' msg' kvs' Hl1)
    by (rewrite Hs; cbn [arrays]; exact Hok1).
  rewrite sink_writes_log_events by exact Hw.
  rewrite Hs. cbn [arrays]. change (keyvals env (set_b env [] l)) with (keyvals env l).
  rewrite Hk. reflexivity.
Qed.

End LogCalls.

Lemma log_then_log_witness :
  let s1 := snd (log plainEnv 0 1 (AnyString (go "one"))
                   [AnyString (go "k"); AnyString (go "v")] plainState) in
  loggers plainEnv (heap plainEnv plainState) !! 0%nat = Some plainLogger
  /\ slice_ok (arrays plainEnv (heap plainEnv plainState)) (keyvals plainEnv plainLogger)
  /\ w plainEnv plainLogger <> Discard
  /\ sink_writes (events_of (log plainEnv 0 1 (AnyString (go "two")) []) s1)
     = [(Sink 0, go "INFO two" ++ [NL])].
Proof.
  assert (loggers plainEnv (heap plainEnv plainState) !! 0%nat = Some plainLogger)
    as H1 by reflexivity.
  assert (slice_ok (arrays plainEnv (heap plainEnv plainState))
            (keyvals plainEnv plainLogger)) as H2 by (split; simpl; lia).
  assert (w plainEnv plainLogger <> Discard) as H3 by discriminate.
  split; [exact H1|]. split; [exact H2|]. split; [exact H3|].
  destruct (log_then_log plainEnv plainState 0 plainLogger 1 (AnyString (go "one"))
              [AnyString (go "k"); AnyString (go "v")] 1 (AnyString (go "two")) []
              H1 H2 H3) as (_ & _ & _ & E).
  rewrite E. reflexivity.
Defined.

(** ** Derived loggers and the arrays they share *)

Section DerivedStore.

Context (env : Env).

Implicit Types (L : list (logger env)) (A : list (list (any env)))
  (T : list Event) (l d : logger env) (s : state env) (sl : slice)
  (ks : list (any env)).

(** The state [With] leaves, and the logger it makes. *)
Lemma With_state s p l ks :
  loggers env (heap env s) !! p = Some l ->
  slice_ok (arrays env (heap env s)) (keyvals env l) ->
  let A := arrays env (heap env s) in
  let q := length (loggers env (heap env s)) in
  let s1 := snd (With env p ks s) in
  let d := derived s l ks in
  fst (With env p ks s) = Ret q
  /\ loggers env (heap env s1) = loggers env (heap env s) ++ [d]
  /\ arrays env (heap env s1) = snd (append env A (keyvals env l) ks)
  /\ mutexes env (heap env s1) = S (mutexes env (heap env s))
  /\ trace env s1 = trace env s
  /\ loggers env (heap env s1) !! q = Some d
  /\ loggers env (heap env s1) !! p = Some l
  /\ q <> p
  /\ slice_ok (arrays env (heap env s1)) (keyvals env d)
  /\ slice_ok (arrays env (heap env s1)) (keyvals env l)
  /\ elements env (arrays env (heap env s1)) (keyvals env d)
     = elements env A (keyvals env l) ++ ks
  /\ elements env (arrays env (heap env s1)) (keyvals env l)
     = elements env A (keyvals env l).
Proof.
  intros Hl Hok A q s1 d.
  assert (p < length (loggers env (heap env s)))%nat as Hp
    by (eapply lookup_lt_Some; exact Hl).
  unfold s1. rewrite (With_run env s p l ks Hl). cbn [fst snd heap loggers arrays mutexes trace].
  fold A. fold q. change (set_keyvals env _ _) with d.
  split_and!; try reflexivity.
  - rewrite lookup_app_r, Nat.sub_diag by (unfold q; lia). reflexivity.
  - rewrite lookup_app_l by exact Hp. exact Hl.
  - unfold q. lia.
  - apply append_ok; exact Hok.
  - apply append_ok_self; exact Hok.
  - apply append_elements; exact Hok.
  - apply append_keeps_self; exact Hok.
Qed.

Lemma record_derived l (k : slice) (m : nat) level msg (fields kvs : list (any env)) :
  record (set_keyvals env k (set_mu env m l)) level msg fields kvs
  = record l level msg fields kvs.
Proof. reflexivity. Qed.

Ltac with_state H s p l ks Hl Hok :=
  pose proof (With_state s p l ks Hl Hok) as H; cbv zeta in H.

(** X9.  [With] on a derived logger: the second derived logger shows the
    fields of the first parent, then the keyvals of the first call, then
    those of the second, and the two loggers before it show what they
    showed; the three loggers are at three addresses and the two derived
    ones have two mutexes. *)
Theorem With_chain s p l ks1 ks2 :
  loggers env (heap env s) !! p = Some l ->
  slice_ok (arrays env (heap env s)) (keyvals env l) ->
  let fields := elements env (arrays env (heap env s)) (keyvals env l) in
  exists q1 s1 q2 s2 d1 d2,
    With env p ks1 s = (Ret q1, s1)
    /\ With env q1 ks2 s1 = (Ret q2, s2)
    /\ loggers env (heap env s2) !! p = Some l
    /\ loggers env (heap env s2) !! q1 = Some d1
    /\ loggers env (heap env s2) !! q2 = Some d2
    /\ q1 <> p /\ q2 <> p /\ q2 <> q1
    /\ mu env d1 <> mu env d2
    /\ elements env (arrays env (heap env s2)) (keyvals env l) = fields
    /\ elements env (arrays env (heap env s2)) (keyvals env d1) = fields ++ ks1
    /\ elements env (arrays env (heap env s2)) (keyvals env d2)
       = fields ++ ks1 ++ ks2.
Proof.
  intros Hl Hok fields.
  assert (p < length (loggers env (heap env s)))%nat as Hp
    by (eapply lookup_lt_Some; exact Hl).
  with_state H1 s p l ks1 Hl Hok.
  destruct H1 as (Hq1 & HL1 & HA1 & Hn1 & _ & Hd1 & Hp1 & Hne1 & Hokd1 & Hokl1 & Hed1 & Hel1).
  set (q1 := length (loggers env (heap env s))) in *.
  set (s1 := snd (With env p ks1 s)) in *.
  set (d1 := derived s l ks1) in *.
  with_state H2 s1 q1 d1 ks2 Hd1 Hokd1.
  destruct H2 as (Hq2 & HL2 & HA2 & Hn2 & _ & Hd2 & Hp2 & Hne2 & Hokd2 & Hokl2 & Hed2 & Hel2).
  set (q2 := length (loggers env (heap env s1))) in *.
  set (s2 := snd (With env q1 ks2 s1)) in *.
  set (d2 := derived s1 d1 ks2) in *.
  exists q1, s1, q2, s2, d1, d2.
  assert (q2 = S q1) as Eq2 by (unfold q2; rewrite HL1, length_app; simpl; unfold q1; lia).
  split_and!.
  - unfold s1. rewrite <- Hq1. apply surjective_pairing.
  - unfold s2. rewrite <- Hq2. apply surjective_pairing.
  - rewrite HL2, lookup_app_l by (rewrite HL1, length_app; simpl; lia). exact Hp1.
  - exact Hp2.
  - exact Hd2.
  - exact Hne1.
  - unfold q1 in *. lia.
  - lia.
  - unfold d1, d2, derived. cbn [mu set_keyvals set_mu set_b]. rewrite Hn1. lia.
  - rewrite HA2. rewrite append_keeps; [exact Hel1 | exact Hokd1 | exact Hokl1 |].
    right. left. unfold d1, derived. cbn [keyvals set_keyvals]. rewrite append_len. lia.
  - rewrite Hel2. exact Hed1.
  - rewrite Hed2, Hed1, <- app_assoc. reflexivity.
Qed.

(** X10.  A call of [log] on a logger made by [With(ks)] writes the record
    of the parent's configuration, with the parent's fields, then [ks],
    then the keyvals of the call. *)
Theorem With_then_log s p l ks level msg kvs :
  loggers env (heap env s) !! p = Some l ->
  slice_ok (arrays env (heap env s)) (keyvals env l) ->
  w env l <> Discard ->
  let q := length (loggers env (heap env s)) in
  let s1 := snd (With env p ks s) in
  sink_writes (events_of (log env q level msg kvs) s1)
  = [(w env l,
      record (set_b env [] l) level msg
        (elements env (arrays env (heap env s)) (keyvals env l) ++ ks) kvs)].
Proof.
  intros Hl Hok Hw q s1.
  with_state H1 s p l ks Hl Hok.
  destruct H1 as (_ & _ & _ & _ & _ & Hd & _ & _ & Hokd & _ & Hed & _).
  fold q s1 in Hd, Hokd, Hed.
  rewrite (log_events_of env s1 q (derived s l ks) level msg kvs Hd Hokd).
  rewrite sink_writes_log_events by exact Hw.
  rewrite Hed. reflexivity.
Qed.

(** X11.  Whatever is logged on a derived logger, and whatever logger is
    derived from it in turn, the parent stays as it was and shows the
    fields it showed. *)
Theorem derived_keeps_parent s p l ks :
  loggers env (heap env s) !! p = Some l ->
  slice_ok (arrays env (heap env s)) (keyvals env l) ->
  let q := length (loggers env (heap env s)) in
  let s1 := snd (With env p ks s) in
  let fields := elements env (arrays env (heap env s)) (keyvals env l) in
  (forall level msg kvs,
      let s2 := snd (log env q level msg kvs s1) in
      loggers env (heap env s2) !! p = Some l
      /\ elements env (arrays env (heap env s2)) (keyvals env l) = fields)
  /\ (forall ks',
      let s2 := snd (With env q ks' s1) in
      loggers env (heap env s2) !! p = Some l
      /\ elements env (arrays env (heap env s2)) (keyvals env l) = fields).
Proof.
  intros Hl Hok q s1 fields.
  with_state H1 s p l ks Hl Hok.
  destruct H1 as (_ & HL1 & _ & _ & _ & Hd & Hp1 & Hne & Hokd & Hokl & _ & Hel).
  fold q s1 in HL1, Hd, Hp1, Hne, Hokd, Hokl, Hel.
  assert (ptr (keyvals env l) <> ptr (keyvals env (derived s l ks))
          \/ (len (keyvals env l) <= len (keyvals env (derived s l ks)))%nat
          \/ (cap (keyvals env (derived s l ks)) <= len (keyvals env (derived s l ks)))%nat)
    as Hfar.
  { right. left. unfold derived. cbn [keyvals set_keyvals]. rewrite append_len. lia. }
  split.
  - intros level msg kvs s2.
    destruct (w env (derived s l ks)) as [|id] eqn:Ew.
    + unfold s2. rewrite (log_discard env s1 q (derived s l ks)) by assumption.
      cbn [snd heap]. split; [exact Hp1 | exact Hel].
    + assert (w env (derived s l ks) <> Discard) as Hw by (rewrite Ew; discriminate).
      unfold s2. rewrite (log_store env s1 q (derived s l ks) level msg kvs Hd Hokd Hw).
      cbn [loggers arrays]. split.
      * rewrite list_lookup_insert_ne by exact Hne. exact Hp1.
      * destruct (log_arrays_keeps env (arrays env (heap env s1))
                    (keyvals env (derived s l ks)) kvs (keyvals env l) Hokd Hokl Hfar)
          as [-> _]. exact Hel.
  - intros ks' s2.
    with_state H2 s1 q (derived s l ks) ks' Hd Hokd.
    destruct H2 as (_ & HL2 & HA2 & _).
    fold s2 in HL2, HA2. split.
    + rewrite HL2, lookup_app_l by (eapply lookup_lt_Some; exact Hp1). exact Hp1.
    + rewrite HA2, append_keeps by assumption. exact Hel.
Qed.

Lemma derived_keyvals_fit s l ks :
  (len (keyvals env l) + length ks <= cap (keyvals env l))%nat ->
  keyvals env (derived s l ks)
  = {| ptr := ptr (keyvals env l); len := len (keyvals env l) + length ks;
       cap := cap (keyvals env l) |}.
Proof.
  intros Hfit. unfold derived, append. cbn [keyvals set_keyvals].
  destruct (Nat.leb_spec (len (keyvals env l) + length ks) (cap (keyvals env l)));
    [reflexivity | lia].
Qed.

Lemma derived_keyvals_grow s l ks :
  (cap (keyvals env l) < len (keyvals env l) + length ks)%nat ->
  ptr (keyvals env (derived s l ks)) = length (arrays env (heap env s)).
Proof.
  intros Hgrow. unfold derived, append. cbn [keyvals set_keyvals].
  destruct (Nat.leb_spec (len (keyvals env l) + length ks) (cap (keyvals env l)));
    [lia | reflexivity].
Qed.

(** X12.  Two loggers derived from one parent whose fields have room in
    their backing array share that array: the keyvals of the second call
    of [With] take the place of those of the first, which the first
    derived logger then shows instead of its own. *)
Theorem With_shares_when_room s p l ks1 ks2 :
  loggers env (heap env s) !! p = Some l ->
  slice_ok (arrays env (heap env s)) (keyvals env l) ->
  (len (keyvals env l) + length ks2 <= cap (keyvals env l))%nat ->
  (length ks1 <= length ks2)%nat ->
  let q := length (loggers env (heap env s)) in
  let s1 := snd (With env p ks1 s) in
  let s2 := snd (With env p ks2 s1) in
  let fields := elements env (arrays env (heap env s)) (keyvals env l) in
  exists d1,
    loggers env (heap env s1) !! q = Some d1
    /\ loggers env (heap env s2) !! q = Some d1
    /\ elements env (arrays env (heap env s1)) (keyvals env d1) = fields ++ ks1
    /\ elements env (arrays env (heap env s2)) (keyvals env d1)
       = fields ++ take (length ks1) ks2.
Proof.
  intros Hl Hok Hfit Hlen q s1 s2 fields.
  with_state H1 s p l ks1 Hl Hok.
  destruct H1 as (_ & HL1 & _ & _ & _ & Hd & Hp1 & Hne & Hokd & Hokl & Hed & Hel).
  fold q s1 in HL1, Hd, Hp1, Hne, Hokd, Hokl, Hed, Hel.
  with_state H2 s1 p l ks2 Hp1 Hokl.
  destruct H2 as (_ & HL2 & HA2 & _).
  fold s2 in HL2, HA2.
  exists (derived s l ks1). split_and!.
  - exact Hd.
  - rewrite HL2, lookup_app_l by (eapply lookup_lt_Some; exact Hd). exact Hd.
  - exact Hed.
  - rewrite HA2, derived_keyvals_fit by lia.
    rewrite append_overwrites by assumption. rewrite Hel. reflexivity.
Qed.

(** X13.  A call of [log] on a parent whose fields have room in their
    backing array stores its keyvals in that array, where a logger
    derived before shows them in place of its own. *)
Theorem log_overwrites_derived s p l ks level msg kvs :
  loggers env (heap env s) !! p = Some l ->
  slice_ok (arrays env (heap env s)) (keyvals env l) ->
  w env l <> Discard ->
  (len (keyvals env l) + length kvs <= cap (keyvals env l))%nat ->
  (length ks <= length kvs)%nat ->
  let q := length (loggers env (heap env s)) in
  let s1 := snd (With env p ks s) in
  let s2 := snd (log env p level msg kvs s1) in
  let fields := elements env (arrays env (heap env s)) (keyvals env l) in
  exists d,
    loggers env (heap env s1) !! q = Some d
    /\ loggers env (heap env s2) !! q = Some d
    /\ elements env (arrays env (heap env s1)) (keyvals env d) = fields ++ ks
    /\ elements env (arrays env (heap env s2)) (keyvals env d)
       = fields ++ take (length ks) kvs.
Proof.
  intros Hl Hok Hw Hfit Hlen q s1 s2 fields.
  with_state H1 s p l ks Hl Hok.
  destruct H1 as (_ & HL1 & _ & _ & _ & Hd & Hp1 & Hne & Hokd & Hokl & Hed & Hel).
  fold q s1 in HL1, Hd, Hp1, Hne, Hokd, Hokl, Hed, Hel.
  pose proof (log_store env s1 p l level msg kvs Hp1 Hokl Hw) as Hs. fold s2 in Hs.
  exists (derived s l ks). split_and!.
  - exact Hd.
  - rewrite Hs. cbn [loggers]. rewrite list_lookup_insert_ne by congruence. exact Hd.
  - exact Hed.
  - rewrite Hs. cbn [arrays]. rewrite derived_keyvals_fit by lia.
    rewrite log_arrays_overwrites by assumption. rewrite Hel. reflexivity.
Qed.

(** X14.  Without room for the keyvals in the backing array of the
    parent's fields, the derived logger gets an array of its own:
    whatever is then logged on the parent or derived from it, the
    derived logger shows its own fields. *)
Theorem With_without_room s p l ks :
  loggers env (heap env s) !! p = Some l ->
  slice_ok (arrays env (heap env s)) (keyvals env l) ->
  (cap (keyvals env l) < len (keyvals env l) + length ks)%nat ->
  let q := length (loggers env (heap env s)) in
  let s1 := snd (With env p ks s) in
  let fields := elements env (arrays env (heap env s)) (keyvals env l) in
  exists d,
    loggers env (heap env s1) !! q = Some d
    /\ ptr (keyvals env d) = length (arrays env (heap env s))
    /\ elements env (arrays env (heap env s1)) (keyvals env d) = fields ++ ks
    /\ (forall level msg kvs,
        let s2 := snd (log env p level msg kvs s1) in
        loggers env (heap env s2) !! q = Some d
        /\ elements env (arrays env (heap env s2)) (keyvals env d) = fields ++ ks)
    /\ (forall ks',
        let s2 := snd (With env p ks' s1) in
        loggers env (heap env s2) !! q = Some d
        /\ elements env (arrays env (heap env s2)) (keyvals env d) = fields ++ ks).
Proof.
  intros Hl Hok Hgrow q s1 fields.
  with_state H1 s p l ks Hl Hok.
  destruct H1 as (_ & HL1 & HA1 & _ & _ & Hd & Hp1 & Hne & Hokd & Hokl & Hed & Hel).
  fold q s1 in HL1, HA1, Hd, Hp1, Hne, Hokd, Hokl, Hed, Hel.
  pose proof (derived_keyvals_grow s l ks Hgrow) as Hptr.
  assert (ptr (keyvals env (derived s l ks)) <> ptr (keyvals env l)
          \/ (len (keyvals env (derived s l ks)) <= len (keyvals env l))%nat
          \/ (cap (keyvals env l) <= len (keyvals env l))%nat) as Hfar.
  { destruct (Nat.eq_dec (len (keyvals env l)) 0%nat) as [Hz|Hnz].
    - destruct (Nat.eq_dec (cap (keyvals env l)) 0%nat) as [Hc|Hc]; [right; right; lia|].
      left. rewrite Hptr. destruct Hok as [_ Hcap].
      destruct (arrays env (heap env s) !! ptr (keyvals env l)) as [arr|] eqn:Ea.
      + apply lookup_lt_Some in Ea. lia.
      + rewrite (backing_None env _ _ Ea) in Hcap. simpl in Hcap. lia.
    - left. rewrite Hptr.
      pose proof (slice_ok_within env _ _ Hok ltac:(lia)). lia. }
  exists (derived s l ks). split_and!.
  - exact Hd.
  - exact Hptr.
  - exact Hed.
  - intros level msg kvs s2.
    destruct (w env l) as [|id] eqn:Ew.
    + unfold s2. rewrite (log_discard env s1 p l) by assumption.
      cbn [snd heap]. split; [exact Hd | exact Hed].
    + assert (w env l <> Discard) as Hw by (rewrite Ew; discriminate).
      unfold s2. rewrite (log_store env s1 p l level msg kvs Hp1 Hokl Hw).
      cbn [loggers arrays]. split.
      * rewrite list_lookup_insert_ne by congruence. exact Hd.
      * destruct (log_arrays_keeps env (arrays env (heap env s1)) (keyvals env l) kvs
                    (keyvals env (derived s l ks)) Hokl Hokd Hfar) as [-> _]. exact Hed.
  - intros ks' s2.
    with_state H2 s1 p l ks' Hp1 Hokl.
    destruct H2 as (_ & HL2 & HA2 & _).
    fold s2 in HL2, HA2. split.
    + rewrite HL2, lookup_app_l by (eapply lookup_lt_Some; exact Hd). exact Hd.
    + rewrite HA2, append_keeps by assumption. exact Hed.
Qed.

End DerivedStore.

Lemma With_chain_witness :
  let ks1 : list (any plainEnv) :=
    [AnyString (go "a"); AnyOperand (1 : operand plainEnv)] in
  let ks2 : list (any plainEnv) :=
    [AnyString (go "b"); AnyOperand (2 : operand plainEnv)] in
  loggers plainEnv (heap plainEnv plainState) !! 0%nat = Some plainLogger
  /\ slice_ok (arrays plainEnv (heap plainEnv plainState)) (keyvals plainEnv plainLogger)
  /\ exists s2 d2,
       snd (With plainEnv 1 ks2 (snd (With plainEnv 0 ks1 plainState))) = s2
       /\ loggers plainEnv (heap plainEnv s2) !! 2%nat = Some d2
       /\ elements plainEnv (arrays plainEnv (heap plainEnv s2)) (keyvals plainEnv d2)
          = ks1 ++ ks2.
Proof.
  intros ks1 ks2.
  assert (loggers plainEnv (heap plainEnv plainState) !! 0%nat = Some plainLogger)
    as H1 by reflexivity.
  assert (slice_ok (arrays plainEnv (heap plainEnv plainState))
            (keyvals plainEnv plainLogger)) as H2 by (split; simpl; lia).
  split; [exact H1|]. split; [exact H2|].
  destruct (With_chain plainEnv plainState 0 plainLogger ks1 ks2 H1 H2)
    as (q1 & s1 & q2 & s2 & d1 & d2 & W1 & W2 & _ & _ & Hd2 & _ & _ & _ & _ & _ & _ & E).
  assert (q1 = 1%nat /\ s1 = snd (With plainEnv 0 ks1 plainState)) as [-> ->].
  { rewrite W1. split; [|reflexivity].
    assert (fst (With plainEnv 0 ks1 plainState) = Ret 1%nat) as F by reflexivity.
    rewrite W1 in F. cbn [fst] in F. congruence. }
  assert (q2 = 2%nat /\ s2 = snd (With plainEnv 1 ks2 (snd (With plainEnv 0 ks1 plainState))))
    as [-> ->].
  { rewrite W2. split; [|reflexivity].
    assert (fst (With plainEnv 1 ks2 (snd (With plainEnv 0 ks1 plainState))) = Ret 2%nat)
      as F by reflexivity.
    rewrite W2 in F. cbn [fst] in F. congruence. }
  eexists _, d2. split; [reflexivity|]. split; [exact Hd2 | exact E].
Defined.

Lemma With_then_log_witness :
  let ks : list (any plainEnv) :=
    [AnyString (go "a"); AnyOperand (1 : operand plainEnv)] in
  let kvs : list (any plainEnv) :=
    [AnyString (go "n"); AnyOperand (7 : operand plainEnv)] in
  loggers plainEnv (heap plainEnv plainState) !! 0%nat = Some plainLogger
  /\ slice_ok (arrays plainEnv (heap plainEnv plainState)) (keyvals plainEnv plainLogger)
  /\ w plainEnv plainLogger <> Discard
  /\ sink_writes (events_of (log plainEnv 1 1 (AnyString (go "go")) kvs)
                    (snd (With plainEnv 0 ks plainState)))
     = [(Sink 0, go "INFO go a=1 n=7" ++ [NL])].
Proof.
  intros ks kvs.
  assert (loggers plainEnv (heap plainEnv plainState) !! 0%nat = Some plainLogger)
    as H1 by reflexivity.
  assert (slice_ok (arrays plainEnv (heap plainEnv plainState))
            (keyvals plainEnv plainLogger)) as H2 by (split; simpl; lia).
  assert (w plainEnv plainLogger <> Discard) as H3 by discriminate.
  split; [exact H1|]. split; [exact H2|]. split; [exact H3|].
  refine (eq_trans (With_then_log plainEnv plainState 0 plainLogger ks 1
                      (AnyString (go "go")) kvs H1 H2 H3) _).
  vm_compute. reflexivity.
Defined.

Lemma derived_keeps_parent_witness :
  let ks : list (any plainEnv) :=
    [AnyString (go "a"); AnyOperand (1 : operand plainEnv)] in
  let s1 := snd (With plainEnv 0 ks plainState) in
  loggers plainEnv (heap plainEnv plainState) !! 0%nat = Some plainLogger
  /\ slice_ok (arrays plainEnv (heap plainEnv plainState)) (keyvals plainEnv plainLogger)
  /\ loggers plainEnv
       (heap plainEnv (snd (log plainEnv 1 1 (AnyString (go "go")) [AnyString (go "k")] s1)))
     !! 0%nat = Some plainLogger.
Proof.
  intros ks s1.
  assert (loggers plainEnv (heap plainEnv plainState) !! 0%nat = Some plainLogger)
    as H1 by reflexivity.
  assert (slice_ok (arrays plainEnv (heap plainEnv plainState))
            (keyvals plainEnv plainLogger)) as H2 by (split; simpl; lia).
  split; [exact H1|]. split; [exact H2|].
  destruct (derived_keeps_parent plainEnv plainState 0 plainLogger ks H1 H2) as [Hlog _].
  exact (proj1 (Hlog 1 (AnyString (go "go")) [AnyString (go "k")])).
Defined.

Lemma With_shares_when_room_witness :
  let ks1 : list (any plainEnv) := [AnyString (go "k1"); AnyString (go "v1")] in
  let ks2 : list (any plainEnv) := [AnyString (go "k2"); AnyString (go "v2")] in
  let s2 := snd (With plainEnv 0 ks2 (snd (With plainEnv 0 ks1 roomyState))) in
  loggers plainEnv (heap plainEnv roomyState) !! 0%nat = Some roomyLogger
  /\ slice_ok (arrays plainEnv (heap plainEnv roomyState)) (keyvals plainEnv roomyLogger)
  /\ (len (keyvals plainEnv roomyLogger) + length ks2
      <= cap (keyvals plainEnv roomyLogger))%nat
  /\ (length ks1 <= length ks2)%nat
  /\ exists d1,
       loggers plainEnv (heap plainEnv s2) !! 1%nat = Some d1
       /\ elements plainEnv (arrays plainEnv (heap plainEnv s2)) (keyvals plainEnv d1)
          = [AnyString (go "a"); AnyOperand (1 : operand plainEnv);
             AnyString (go "k2"); AnyString (go "v2")].
Proof.
  intros ks1 ks2 s2.
  assert (loggers plainEnv (heap plainEnv roomyState) !! 0%nat = Some roomyLogger)
    as H1 by reflexivity.
  assert (slice_ok (arrays plainEnv (heap plainEnv roomyState))
            (keyvals plainEnv roomyLogger)) as H2 by (split; simpl; lia).
  assert (len (keyvals plainEnv roomyLogger) + length ks2
          <= cap (keyvals plainEnv roomyLogger))%nat as H3 by (simpl; lia).
  assert (length ks1 <= length ks2)%nat as H4 by (simpl; lia).
  split; [exact H1|]. split; [exact H2|]. split; [exact H3|]. split; [exact H4|].
  destruct (With_shares_when_room plainEnv roomyState 0 roomyLogger ks1 ks2 H1 H2 H3 H4)
    as (d1 & _ & Hd & _ & E).
  exists d1. split; [exact Hd | exact E].
Defined.

Lemma log_overwrites_derived_witness :
  let ks : list (any plainEnv) := [AnyString (go "k1"); AnyString (go "v1")] in
  let kvs : list (any plainEnv) := [AnyString (go "k2"); AnyString (go "v2")] in
  let s2 := snd (log plainEnv 0 1 (AnyString (go "go")) kvs
                   (snd (With plainEnv 0 ks roomyState))) in
  loggers plainEnv (heap plainEnv roomyState) !! 0%nat = Some roomyLogger
  /\ slice_ok (arrays plainEnv (heap plainEnv roomyState)) (keyvals plainEnv roomyLogger)
  /\ w plainEnv roomyLogger <> Discard
  /\ (len (keyvals plainEnv roomyLogger) + length kvs
      <= cap (keyvals plainEnv roomyLogger))%nat
  /\ (length ks <= length kvs)%nat
  /\ exists d,
       loggers plainEnv (heap plainEnv s2) !! 1%nat = Some d
       /\ elements plainEnv (arrays plainEnv (heap plainEnv s2)) (keyvals plainEnv d)
          = [AnyString (go "a"); AnyOperand (1 : operand plainEnv);
             AnyString (go "k2"); AnyString (go "v2")].
Proof.
  intros ks kvs s2.
  assert (loggers plainEnv (heap plainEnv roomyState) !! 0%nat = Some roomyLogger)
    as H1 by reflexivity.
  assert (slice_ok (arrays plainEnv (heap plainEnv roomyState))
            (keyvals plainEnv roomyLogger)) as H2 by (split; simpl; lia).
  assert (w plainEnv roomyLogger <> Discard) as H3 by discriminate.
  assert (len (keyvals plainEnv roomyLogger) + length kvs
          <= cap (keyvals plainEnv roomyLogger))%nat as H4 by (simpl; lia).
  assert (length ks <= length kvs)%nat as H5 by (simpl; lia).
  split; [exact H1|]. split; [exact H2|]. split; [exact H3|]. split; [exact H4|].
  split; [exact H5|].
  destruct (log_overwrites_derived plainEnv roomyState 0 roomyLogger ks 1
              (AnyString (go "go")) kvs H1 H2 H3 H4 H5) as (d & _ & Hd & _ & E).
  exists d. split; [exact Hd | exact E].
Defined.

Lemma With_without_room_witness :
  let ks : list (any plainEnv) := [AnyString (go "k1"); AnyString (go "v1")] in
  let kvs : list (any plainEnv) := [AnyString (go "k2"); AnyString (go "v2")] in
  let s2 := snd (log plainEnv 0 1 (AnyString (go "go")) kvs
                   (snd (With plainEnv 0 ks plainState))) in
  loggers plainEnv (heap plainEnv plainState) !! 0%nat = Some plainLogger
  /\ slice_ok (arrays plainEnv (heap plainEnv plainState)) (keyvals plainEnv plainLogger)
  /\ (cap (keyvals plainEnv plainLogger)
      < len (keyvals plainEnv plainLogger) + length ks)%nat
  /\ exists d,
       loggers plainEnv (heap plainEnv s2) !! 1%nat = Some d
       /\ elements plainEnv (arrays plainEnv (heap plainEnv s2)) (keyvals plainEnv d)
          = ks.
Proof.
  intros ks kvs s2.
  assert (loggers plainEnv (heap plainEnv plainState) !! 0%nat = Some plainLogger)
    as H1 by reflexivity.
  assert (slice_ok (arrays plainEnv (heap plainEnv plainState))
            (keyvals plainEnv plainLogger)) as H2 by (split; simpl; lia).
  assert (cap (keyvals plainEnv plainLogger)
          < len (keyvals plainEnv plainLogger) + length ks)%nat as H3 by (simpl; lia).
  split; [exact H1|]. split; [exact H2|]. split; [exact H3|].
  destruct (With_without_room plainEnv plainState 0 plainLogger ks H1 H2 H3)
    as (d & _ & _ & _ & Hlog & _).
  exists d. exact (Hlog 1 (AnyString (go "go")) kvs).
Defined.

(** ** Getters, setters and the locks of a call *)

Section Locks.

Context (env : Env).

Implicit Types (L : list (logger env)) (A : list (list (any env)))
  (T : list Event) (l : logger env) (s : state env) (x : Setter env).

Lemma GetLevel_run s p l :
  loggers env (heap env s) !! p = Some l ->
  GetLevel env p s =
  (Ret (level env l),
   {| heap := heap env s;
      trace := trace env s ++ [EvRLock (mu env l); EvRUnlock (mu env l)] |}).
Proof.
  intros Hl. unfold GetLevel, defer, bind, load, emit, ret.
  rewrite Hl. cbn [heap trace]. rewrite Hl. cbn [snd heap trace].
  rewrite <- app_assoc. reflexivity.
Qed.

Lemma GetPrefix_run s p l :
  loggers env (heap env s) !! p = Some l ->
  GetPrefix env p s =
  (Ret (prefix env l),
   {| heap := heap env s;
      trace := trace env s ++ [EvRLock (mu env l); EvRUnlock (mu env l)] |}).
Proof.
  intros Hl. unfold GetPrefix, defer, bind, load, emit, ret.
  rewrite Hl. cbn [heap trace]. rewrite Hl. cbn [snd heap trace].
  rewrite <- app_assoc. reflexivity.
Qed.

Lemma events_of_app {X} (m : M env X) s r h T' :
  m s = (r, {| heap := h; trace := trace env s ++ T' |}) -> events_of m s = T'.
Proof. intros E. unfold events_of. rewrite E. cbn [snd trace]. apply drop_app_length. Qed.

Lemma setter_events s p l x :
  loggers env (heap env s) !! p = Some l ->
  events_of (run_setter x p) s = setter_trace x p l.
Proof.
  intros Hl. unfold events_of. rewrite (run_setter_run env s p l x Hl).
  cbn [snd state_at trace]. apply drop_app_length.
Qed.

(** The events of a severity method: the read of the level under the
    shared lock, and at or above the level the events of [log]. *)
Lemma call_events s p l c msg kvs :
  loggers env (heap env s) !! p = Some l ->
  slice_ok (arrays env (heap env s)) (keyvals env l) ->
  events_of (call env c p msg kvs) s
  = [EvRLock (mu env l); EvRUnlock (mu env l)]
    ++ (if level env l >? severity_level env c then []
        else log_events p l (severity_level env c) msg
               (elements env (arrays env (heap env s)) (keyvals env l)) kvs).
Proof.
  intros Hl Hok. unfold events_of. rewrite (call_run env s p l c msg kvs Hl). cbv zeta.
  set (s1 := {| heap := heap env s;
                trace := trace env s ++ [EvRLock (mu env l); EvRUnlock (mu env l)] |}).
  destruct (level env l >? severity_level env c).
  - cbn [snd s1 trace]. rewrite app_nil_r. apply drop_app_length.
  - pose proof (log_events_of env s1 p l (severity_level env c) msg kvs Hl Hok) as E.
    unfold events_of in E. cbn [s1 trace heap] in E.
    set (T2 := trace env (snd (log env p (severity_level env c) msg kvs s1))) in *.
    assert (take (length (trace env s ++ [EvRLock (mu env l); EvRUnlock (mu env l)])) T2
            = trace env s ++ [EvRLock (mu env l); EvRUnlock (mu env l)]) as Ht.
    { unfold T2. destruct (w env l) as [|id] eqn:Ew.
      - rewrite (log_discard env s1 p l) by assumption. cbn [snd trace s1].
        apply take_app_length.
      - destruct (log_run env s1 p l (severity_level env c) msg kvs Hl Hok) as [A' ->];
          [rewrite Ew; discriminate|].
        cbn [snd state_at trace s1]. apply take_app_length. }
    rewrite <- E.
    rewrite <- (take_drop (length (trace env s ++ [EvRLock (mu env l); EvRUnlock (mu env l)])) T2) at 1.
    rewrite Ht, <- app_assoc. apply drop_app_length.
Qed.

Lemma lock_use_app (m : nat) (T1 T2 : list Event) (ex : bool) (rd : nat) :
  lock_use m ex rd (T1 ++ T2)
  = match lock_use m ex rd T1 with
    | Some (ex', rd') => lock_use m ex' rd' T2
    | None => None
    end.
Proof.
  revert ex rd. induction T1 as [|e T1 IH]; intros ex rd; [reflexivity|].
  destruct e as [m'|m'|m'|m'|? ?| |? ?]; cbn [app lock_use]; try apply IH;
    (destruct (Nat.eqb m' m); [|apply IH]).
  - destruct ex; [reflexivity | apply IH].
  - destruct rd; [reflexivity | apply IH].
  - destruct (ex || negb (Nat.eqb rd 0)); [reflexivity | apply IH].
  - destruct ex; [apply IH | reflexivity].
Qed.

Lemma lock_use_log_events p l level msg (fields kvs : list (any env)) :
  lock_use (mu env l) false 0 (log_events p l level msg fields kvs)
  = Some (false, 0%nat).
Proof.
  unfold log_events, log_trace.
  set (bytes := record l level msg fields kvs). clearbody bytes.
  destruct (Writer_eqb (w env l) Discard);
    cbn [app replicate lock_use]; rewrite !Nat.eqb_refl; reflexivity.
Qed.

Lemma lock_use_setter_trace x p l :
  lock_use (mu env l) false 0 (setter_trace x p l) = Some (false, 0%nat).
Proof.
  destruct x; cbn [setter_trace lock_use]; rewrite !Nat.eqb_refl; reflexivity.
Qed.

(** X15.  No call blocks on the mutex of its own logger, and none returns
    with it held: a severity method releases the shared lock it reads
    the level and the sink under before [log] takes the exclusive one,
    and every method releases what it took. *)
Theorem calls_release_locks s p l :
  loggers env (heap env s) !! p = Some l ->
  slice_ok (arrays env (heap env s)) (keyvals env l) ->
  (forall c msg kvs,
      lock_use (mu env l) false 0 (events_of (call env c p msg kvs) s)
      = Some (false, 0%nat))
  /\ (forall level msg kvs,
      lock_use (mu env l) false 0 (events_of (log env p level msg kvs) s)
      = Some (false, 0%nat))
  /\ (forall x,
      lock_use (mu env l) false 0 (events_of (run_setter x p) s)
      = Some (false, 0%nat))
  /\ lock_use (mu env l) false 0 (events_of (GetLevel env p) s) = Some (false, 0%nat)
  /\ lock_use (mu env l) false 0 (events_of (GetPrefix env p) s) = Some (false, 0%nat).
Proof.
  intros Hl Hok. split_and!.
  - intros c msg kvs. rewrite (call_events s p l c msg kvs Hl Hok).
    rewrite lock_use_app. cbn [lock_use]. rewrite !Nat.eqb_refl. cbn [orb negb Nat.eqb].
    destruct (level env l >? severity_level env c); [reflexivity|].
    apply lock_use_log_events.
  - intros level msg kvs. rewrite (log_events_of env s p l level msg kvs Hl Hok).
    apply lock_use_log_events.
  - intros x. rewrite (setter_events s p l x Hl). apply lock_use_setter_trace.
  - rewrite (events_of_app _ _ _ _ _ (GetLevel_run s p l Hl)).
    cbn [lock_use]. rewrite !Nat.eqb_refl. reflexivity.
  - rewrite (events_of_app _ _ _ _ _ (GetPrefix_run s p l Hl)).
    cbn [lock_use]. rewrite !Nat.eqb_refl. reflexivity.
Qed.

(** X16.  Every assignment that a severity method makes, and every
    assignment of a setter other than [DisableTimestamp], is made with
    the exclusive lock of the logger held. *)
Theorem assignments_under_lock s p l :
  loggers env (heap env s) !! p = Some l ->
  slice_ok (arrays env (heap env s)) (keyvals env l) ->
  (forall c msg kvs,
      assigns_locked (mu env l) false (events_of (call env c p msg kvs) s) = true)
  /\ (forall x, x <> DoDisableTimestamp env ->
      assigns_locked (mu env l) false (events_of (run_setter x p) s) = true).
Proof.
  intros Hl Hok. split.
  - intros c msg kvs. rewrite (call_events s p l c msg kvs Hl Hok).
    cbn [app assigns_locked].
    destruct (level env l >? severity_level env c); [reflexivity|].
    apply log_events_locked.
  - intros x Hx. rewrite (setter_events s p l x Hl), setter_trace_locked.
    destruct x; try reflexivity. congruence.
Qed.

(** X17.  [GetLevel] returns the level that [SetLevel] stored and
    [GetPrefix] the prefix that [SetPrefix] stored; a getter takes and
    releases the shared lock and leaves the store as it is. *)
Theorem getters_read_setters s p l :
  loggers env (heap env s) !! p = Some l ->
  (forall v,
      let s1 := snd (SetLevel env p v s) in
      GetLevel env p s1
      = (Ret v, {| heap := heap env s1;
                   trace := trace env s1
                            ++ [EvRLock (mu env l); EvRUnlock (mu env l)] |}))
  /\ (forall v,
      let s1 := snd (SetPrefix env p v s) in
      GetPrefix env p s1
      = (Ret v, {| heap := heap env s1;
                   trace := trace env s1
                            ++ [EvRLock (mu env l); EvRUnlock (mu env l)] |})).
Proof.
  intros Hl. split; intros v s1.
  - pose proof (run_setter_at env s p l (DoSetLevel env v) Hl) as H1.
    cbn [run_setter setter_update] in H1. fold s1 in H1.
    rewrite (GetLevel_run s1 p _ H1). reflexivity.
  - pose proof (run_setter_at env s p l (DoSetPrefix env v) Hl) as H1.
    cbn [run_setter setter_update] in H1. fold s1 in H1.
    rewrite (GetPrefix_run s1 p _ H1). reflexivity.
Qed.

Lemma setter_update_keyvals x l : keyvals env (setter_update x l) = keyvals env l.
Proof. destruct x; reflexivity. Qed.

(** X18.  A setter takes effect on the next call: a severity method
    called after it writes what it would write on the logger with the one
    field changed, with the fields the logger showed, and nothing when
    the new level is above its own or the new sink is [io.Discard]. *)
Theorem setter_then_call s p l x c msg kvs :
  loggers env (heap env s) !! p = Some l ->
  slice_ok (arrays env (heap env s)) (keyvals env l) ->
  let s1 := snd (run_setter x p s) in
  let l' := setter_update x l in
  loggers env (heap env s1) !! p = Some l'
  /\ sink_writes (events_of (call env c p msg kvs) s1)
     = if (level env l' >? severity_level env c) || Writer_eqb (w env l') Discard
       then []
       else [(w env l',
              record l' (severity_level env c) msg
                (elements env (arrays env (heap env s)) (keyvals env l)) kvs)].
Proof.
  intros Hl Hok s1 l'.
  pose proof (run_setter_at env s p l x Hl) as H1. fold s1 l' in H1.
  destruct (run_setter_frame env s p x) as [HA _]. fold s1 in HA.
  assert (slice_ok (arrays env (heap env s1)) (keyvals env l')) as Hok1
    by (unfold l'; rewrite HA, setter_update_keyvals; exact Hok).
  split; [exact H1|].
  rewrite (call_events s1 p l' c msg kvs H1 Hok1). cbn [app sink_writes].
  destruct (level env l' >? severity_level env c); [reflexivity|]. cbn [orb].
  unfold log_events. rewrite HA.
  replace (keyvals env l') with (keyvals env l)
    by (symmetry; apply setter_update_keyvals).
  destruct (Writer_eqb (w env l') Discard); reflexivity.
Qed.

End Locks.

Lemma calls_release_locks_witness :
  loggers plainEnv (heap plainEnv plainState) !! 0%nat = Some plainLogger
  /\ slice_ok (arrays plainEnv (heap plainEnv plainState)) (keyvals plainEnv plainLogger)
  /\ lock_use 0 false 0
       (events_of (call plainEnv SevInfo 0 (AnyString (go "go")) []) plainState)
     = Some (false, 0%nat).
Proof.
  assert (loggers plainEnv (heap plainEnv plainState) !! 0%nat = Some plainLogger)
    as H1 by reflexivity.
  assert (slice_ok (arrays plainEnv (heap plainEnv plainState))
            (keyvals plainEnv plainLogger)) as H2 by (split; simpl; lia).
  split; [exact H1|]. split; [exact H2|].
  exact (proj1 (calls_release_locks plainEnv plainState 0 plainLogger H1 H2)
           SevInfo (AnyString (go "go")) []).
Defined.

Lemma assignments_under_lock_witness :
  loggers plainEnv (heap plainEnv plainState) !! 0%nat = Some plainLogger
  /\ slice_ok (arrays plainEnv (heap plainEnv plainState)) (keyvals plainEnv plainLogger)
  /\ DoEnableCaller plainEnv <> DoDisableTimestamp plainEnv
  /\ assigns_locked 0 false
       (events_of (run_setter (DoEnableCaller plainEnv) 0) plainState) = true.
Proof.
  assert (loggers plainEnv (heap plainEnv plainState) !! 0%nat = Some plainLogger)
    as H1 by reflexivity.
  assert (slice_ok (arrays plainEnv (heap plainEnv plainState))
            (keyvals plainEnv plainLogger)) as H2 by (split; simpl; lia).
  assert (DoEnableCaller plainEnv <> DoDisableTimestamp plainEnv) as H3 by discriminate.
  split; [exact H1|]. split; [exact H2|]. split; [exact H3|].
  exact (proj2 (assignments_under_lock plainEnv plainState 0 plainLogger H1 H2)
           (DoEnableCaller plainEnv) H3).
Defined.

Lemma getters_read_setters_witness :
  loggers plainEnv (heap plainEnv plainState) !! 0%nat = Some plainLogger
  /\ fst (GetLevel plainEnv 0 (snd (SetLevel plainEnv 0 3 plainState))) = Ret 3
  /\ fst (GetPrefix plainEnv 0 (snd (SetPrefix plainEnv 0 (go "db") plainState)))
     = Ret (go "db").
Proof.
  assert (loggers plainEnv (heap plainEnv plainState) !! 0%nat = Some plainLogger)
    as H1 by reflexivity.
  split; [exact H1|].
  destruct (getters_read_setters plainEnv plainState 0 plainLogger H1) as [HL HP].
  split.
  - rewrite (HL 3). reflexivity.
  - rewrite (HP (go "db")). reflexivity.
Defined.

Lemma setter_then_call_witness :
  loggers plainEnv (heap plainEnv plainState) !! 0%nat = Some plainLogger
  /\ slice_ok (arrays plainEnv (heap plainEnv plainState)) (keyvals plainEnv plainLogger)
  /\ sink_writes
       (events_of (call plainEnv SevInfo 0 (AnyString (go "hello")) [])
          (snd (run_setter (DoSetPrefix plainEnv (go "db")) 0 plainState)))
     = [(Sink 0, go "INFO db: hello" ++ [NL])].
Proof.
  assert (loggers plainEnv (heap plainEnv plainState) !! 0%nat = Some plainLogger)
    as H1 by reflexivity.
  assert (slice_ok (arrays plainEnv (heap plainEnv plainState))
            (keyvals plainEnv plainLogger)) as H2 by (split; simpl; lia).
  split; [exact H1|]. split; [exact H2|].
  refine (eq_trans (proj2 (setter_then_call plainEnv plainState 0 plainLogger
                             (DoSetPrefix plainEnv (go "db")) SevInfo
                             (AnyString (go "hello")) [] H1 H2)) _).
  vm_compute. reflexivity.
Defined.

(** ** A final newline in an indented block *)

Section TrailingNewline.

Context (env : Env).

Lemma Split_snoc_newline (s : gostring) : Split (s ++ [NL]) = Split s ++ [[]].
Proof.
  induction s as [|c s IH]; [reflexivity|].
  cbn [app Split]. rewrite IH.
  destruct (byte_eqb c NL); [reflexivity|].
  pose proof (Split_nonempty s) as Hne.
  destruct (Split s) as [|seg rest]; [congruence|]. reflexivity.
Qed.

Lemma lines_of_snoc_empty (segs : list gostring) :
  segs <> [] -> lines_of (segs ++ [[]]) = segs.
Proof.
  induction segs as [|seg rest IH]; intros Hne; [congruence|].
  destruct rest as [|seg' rest'].
  - reflexivity.
  - change ((seg :: seg' :: rest') ++ [[]]) with (seg :: ((seg' :: rest') ++ [[]])).
    rewrite lines_of_cons by discriminate. rewrite IH by discriminate. reflexivity.
Qed.

Lemma Split_last_nonempty (s : gostring) (c : byte) :
  last s = Some c -> c <> NL -> last (Split s) <> Some [].
Proof.
  revert c. induction s as [|b0 t IH]; intros c Hlast Hc; [discriminate|].
  destruct t as [|b1 t'].
  - cbn in Hlast. injection Hlast as ->. cbn [Split].
    destruct (byte_eqb c NL) eqn:E; [apply byte_eqb_true in E; congruence|].
    cbn. discriminate.
  - assert (last (b1 :: t') = Some c) as Hl' by exact Hlast.
    specialize (IH c Hl' Hc).
    pose proof (Split_nonempty (b1 :: t')) as Hne.
    change (Split (b0 :: b1 :: t')) with
      (if byte_eqb b0 NL then [] :: Split (b1 :: t')
       else match Split (b1 :: t') with
            | seg :: rest => (b0 :: seg) :: rest
            | [] => [[b0]]
            end).
    destruct (Split (b1 :: t')) as [|seg rest]; [congruence|].
    destruct (byte_eqb b0 NL).
    + exact IH.
    + destruct rest as [|seg' rest']; [cbn; discriminate | exact IH].
Qed.

(** X19.  [writeIndent] does not show a final newline: a string that ends
    in another byte is written in the same lines with one newline added
    at its end. *)
Theorem writeIndent_final_newline (w : Buffer) (s indent : gostring) (c : byte) :
  last s = Some c -> c <> NL ->
  writeIndent env w (s ++ [NL]) indent = writeIndent env w s indent.
Proof.
  intros Hlast Hc. rewrite !writeIndent_lines. f_equal. f_equal. f_equal.
  rewrite Split_snoc_newline, lines_of_snoc_empty by apply Split_nonempty.
  pose proof (lines_of_last (Split s)) as E.
  pose proof (Split_last_nonempty s c Hlast Hc) as Hn.
  destruct (last (Split s)) as [[|? ?]|];
    [exfalso; apply Hn; reflexivity | |]; rewrite app_nil_r in E; exact E.
Qed.

End TrailingNewline.

Lemma writeIndent_final_newline_witness :
  last (go "a" ++ [NL] ++ go "b") = Some "b"%char /\ "b"%char <> NL
  /\ writeIndent plainEnv [] (go "a" ++ [NL] ++ go "b" ++ [NL]) (go "| ")
     = go "| a" ++ [NL] ++ go "| b" ++ [NL]
  /\ writeIndent plainEnv [] (go "a" ++ [NL] ++ go "b") (go "| ")
     = go "| a" ++ [NL] ++ go "| b" ++ [NL].
Proof.
  assert (last (go "a" ++ [NL] ++ go "b") = Some "b"%char) as H1 by reflexivity.
  assert ("b"%char <> NL) as H2 by discriminate.
  split; [exact H1|]. split; [exact H2|].
  pose proof (writeIndent_final_newline plainEnv [] (go "a" ++ [NL] ++ go "b")
                (go "| ") "b"%char H1 H2) as E.
  assert (writeIndent plainEnv [] (go "a" ++ [NL] ++ go "b") (go "| ")
          = go "| a" ++ [NL] ++ go "| b" ++ [NL]) as E2 by (vm_compute; reflexivity).
  split; [|exact E2].
  rewrite <- E2, <- E. reflexivity.
Defined.

(** ** The form of a pair, by the bytes of its value *)

Section PairForm.

Context (env : Env).

Lemma ContainsNL_existsb (s : gostring) : ContainsNL s = existsb (byte_eqb NL) s.
Proof.
  destruct (existsb (byte_eqb NL) s) eqn:E.
  - apply ContainsNL_In. apply existsb_exists in E. destruct E as [c [Hc Hn]].
    apply byte_eqb_true in Hn. subst c. exact Hc.
  - apply ContainsNL_false. intros Hin.
    assert (existsb (byte_eqb NL) s = true) as Ht
      by (apply existsb_exists; exists NL; split; [exact Hin | apply byte_eqb_true; reflexivity]).
    congruence.
Qed.

Lemma needsQuoting_forallb (s : gostring) :
  needsQuoting s = negb (forallb plain_byte s).
Proof.
  destruct (forallb plain_byte s) eqn:E; cbn [negb].
  - apply needsQuoting_bytes. apply List.Forall_forall. intros c Hc.
    rewrite forallb_forall in E. specialize (E c Hc). unfold plain_byte in E.
    apply andb_true_iff in E. destruct E as [E1 E2]. apply Z.leb_le in E1, E2. lia.
  - destruct (needsQuoting s) eqn:Hq; [reflexivity|].
    apply needsQuoting_bytes in Hq.
    assert (forallb plain_byte s = true) as Ht.
    { apply forallb_forall. intros c Hc. rewrite List.Forall_forall in Hq.
      specialize (Hq c Hc). unfold plain_byte.
      apply andb_true_iff. split; apply Z.leb_le; lia. }
    congruence.
Qed.

(** X20.  The bytes of the value decide the form of a pair.  A value with
    a newline is written as a block; otherwise a value that is not empty
    and holds a byte outside the ASCII characters from the hyphen to the
    tilde is written between double quotes, escaped; any other value is
    written as it is, after the key and the separator. *)
Theorem pair_form_by_bytes l w k v :
  write_pair env l w k v =
  if existsb (byte_eqb NL) (pair_val l v) then
    w ++ (NL :: go "  ") ++ pair_key l k ++ sep_eq env ++ [NL]
      ++ concat (map (indent_line env (sep_bar env)) (lines_of (Split (pair_val l v))))
      ++ [SPACE]
  else if negb (gostring_eqb (Sprint env v) [])
          && negb (forallb plain_byte (pair_val l v)) then
    w ++ [SPACE] ++ pair_key l k ++ sep_eq env ++ [DQUOTE]
      ++ writeEscapedForOutput env [] (pair_val l v) true ++ [DQUOTE]
  else
    w ++ [SPACE] ++ pair_key l k ++ sep_eq env ++ pair_val l v.
Proof.
  rewrite write_pair_cases, ContainsNL_existsb, needsQuoting_forallb. reflexivity.
Qed.

End PairForm.

(** ** What the methods keep of a store *)

Section StoreInvariant.

Context (env : Env).

Implicit Types (L : list (logger env)) (A : list (list (any env)))
  (l : logger env) (s : state env) (σ : store env) (x : Setter env).

Lemma log_arrays_ok A (sl sl' : slice) (kvs : list (any env)) :
  slice_ok A sl -> slice_ok A sl' -> slice_ok (log_arrays A sl kvs) sl'.
Proof.
  intros Hok Hok'. unfold log_arrays.
  pose proof (append_ok_other env A sl kvs sl' Hok Hok') as O1.
  pose proof (append_ok env A sl kvs Hok) as Oa.
  destruct (append env A sl kvs) as [s1 A1]. cbn [fst snd] in *.
  destruct (Nat.odd (len s1)); [|exact O1].
  apply append_ok_other; assumption.
Qed.

Lemma setter_update_mu x l : mu env (setter_update x l) = mu env l.
Proof. destruct x; reflexivity. Qed.

Lemma setter_update_b x l : b env (setter_update x l) = b env l.
Proof. destruct x; reflexivity. Qed.

Lemma store_ok_lookup σ p l :
  store_ok σ -> loggers env σ !! p = Some l -> logger_ok σ l.
Proof.
  intros H Hl. unfold store_ok in H. exact (Forall_lookup_1 _ _ _ _ H Hl).
Qed.

(** Replacing one logger by a well-formed one, or changing the arrays
    and the number of mutexes in a way that keeps the loggers well
    formed, keeps the store well formed. *)
Lemma store_ok_update L A n A' n' p l' :
  store_ok {| loggers := L; arrays := A; mutexes := n |} ->
  (forall l, logger_ok {| loggers := L; arrays := A; mutexes := n |} l ->
             logger_ok {| loggers := <[p := l']> L; arrays := A'; mutexes := n' |} l) ->
  logger_ok {| loggers := <[p := l']> L; arrays := A'; mutexes := n' |} l' ->
  store_ok {| loggers := <[p := l']> L; arrays := A'; mutexes := n' |}.
Proof.
  intros H Hkeep Hnew. unfold store_ok in *. cbn [loggers] in *.
  apply Forall_lookup. intros i l0 Hi.
  destruct (Nat.eq_dec i p) as [->|Hne].
  - assert (p < length L)%nat as Hp
      by (apply lookup_lt_Some in Hi; rewrite length_insert in Hi; exact Hi).
    rewrite list_lookup_insert_eq in Hi by exact Hp. injection Hi as <-. exact Hnew.
  - rewrite list_lookup_insert_ne in Hi by congruence.
    apply Hkeep. exact (Forall_lookup_1 _ _ _ _ H Hi).
Qed.

Lemma store_ok_setter s p l x :
  store_ok (heap env s) -> loggers env (heap env s) !! p = Some l ->
  store_ok (heap env (snd (run_setter x p s))).
Proof.
  intros H Hl. rewrite (run_setter_run env s p l x Hl). cbn [snd state_at heap].
  destruct (store_ok_lookup _ p l H Hl) as (Hs & Hm & Hb).
  destruct s as [[L A n] T]. cbn [heap loggers arrays mutexes] in *.
  apply (store_ok_update L A n A n p _ H); [intros l0 Hl0; exact Hl0 |].
  unfold logger_ok. cbn [arrays mutexes].
  rewrite setter_update_keyvals, setter_update_mu, setter_update_b. auto.
Qed.

Lemma store_ok_log s p l level msg kvs :
  store_ok (heap env s) -> loggers env (heap env s) !! p = Some l ->
  store_ok (heap env (snd (log env p level msg kvs s))).
Proof.
  intros H Hl. destruct (store_ok_lookup _ p l H Hl) as (Hs & Hm & Hb).
  destruct (w env l) as [|id] eqn:Ew.
  - rewrite (log_discard env s p l) by assumption. exact H.
  - assert (w env l <> Discard) as Hw by (rewrite Ew; discriminate).
    rewrite (log_store env s p l level msg kvs Hl Hs Hw).
    destruct s as [[L A n] T]. cbn [heap loggers arrays mutexes] in *.
    apply (store_ok_update L A n (log_arrays A (keyvals env l) kvs) n p _ H).
    + intros l0 (Hs0 & Hm0 & Hb0). unfold logger_ok. cbn [arrays mutexes] in *.
      split; [apply log_arrays_ok; assumption | auto].
    + unfold logger_ok. cbn [arrays mutexes].
      split; [apply log_arrays_ok; assumption | auto].
Qed.

Lemma store_ok_call s p l c msg kvs :
  store_ok (heap env s) -> loggers env (heap env s) !! p = Some l ->
  store_ok (heap env (snd (call env c p msg kvs s))).
Proof.
  intros H Hl. rewrite (call_run env s p l c msg kvs Hl). cbv zeta.
  destruct (level env l >? severity_level env c); [exact H|].
  apply (store_ok_log _ p l); [exact H | exact Hl].
Qed.

Lemma store_ok_With s p l ks :
  store_ok (heap env s) -> loggers env (heap env s) !! p = Some l ->
  store_ok (heap env (snd (With env p ks s))).
Proof.
  intros H Hl. destruct (store_ok_lookup _ p l H Hl) as (Hs & Hm & Hb).
  rewrite (With_run env s p l ks Hl). cbn [snd heap].
  unfold store_ok in *. cbn [loggers]. apply Forall_app. split.
  - eapply List.Forall_impl; [|exact H].
    intros l0 (Hs0 & Hm0 & Hb0). unfold logger_ok. cbn [arrays mutexes].
    split; [apply append_ok_other; assumption | split; [lia | exact Hb0]].
  - apply List.Forall_cons; [|apply List.Forall_nil].
    unfold logger_ok. cbn [arrays mutexes keyvals mu b set_keyvals set_mu set_b].
    split; [apply append_ok; exact Hs | split; [lia | reflexivity]].
Qed.

(** X21.  The methods keep the store well formed: after a severity method,
    [log], a setter, [With] or a getter on a logger of a well-formed
    store, every logger has a sound slice of fields, a mutex that was
    made and an empty buffer; and [log] then leaves the loggers exactly
    as they were. *)
Theorem store_ok_preserved s p l :
  store_ok (heap env s) -> loggers env (heap env s) !! p = Some l ->
  (forall c msg kvs, store_ok (heap env (snd (call env c p msg kvs s))))
  /\ (forall level msg kvs,
      store_ok (heap env (snd (log env p level msg kvs s)))
      /\ loggers env (heap env (snd (log env p level msg kvs s)))
         = loggers env (heap env s))
  /\ (forall x, store_ok (heap env (snd (run_setter x p s))))
  /\ (forall ks, store_ok (heap env (snd (With env p ks s))))
  /\ heap env (snd (GetLevel env p s)) = heap env s
  /\ heap env (snd (GetPrefix env p s)) = heap env s.
Proof.
  intros H Hl. split_and!.
  - intros c msg kvs. apply (store_ok_call s p l); assumption.
  - intros level msg kvs. split; [apply (store_ok_log s p l); assumption|].
    destruct (store_ok_lookup _ p l H Hl) as (Hs & Hm & Hb).
    destruct (w env l) as [|id] eqn:Ew.
    + rewrite (log_discard env s p l) by assumption. reflexivity.
    + assert (w env l <> Discard) as Hw by (rewrite Ew; discriminate).
      rewrite (log_store env s p l level msg kvs Hl Hs Hw). cbn [loggers].
      apply list_insert_id. rewrite Hl. f_equal.
      clear - Hb. destruct l as [? b0 ? ? ? ? ? ? ? ? ? ?]. simpl in Hb. subst b0.
      reflexivity.
  - intros x. apply (store_ok_setter s p l); assumption.
  - intros ks. apply (store_ok_With s p l); assumption.
  - rewrite (GetLevel_run env s p l Hl). reflexivity.
  - rewrite (GetPrefix_run env s p l Hl). reflexivity.
Qed.

(** X22.  In a well-formed store, the mutex of a logger made by [With] is
    the mutex of no logger that was there before, the parent included:
    the copy of the parent does not keep the parent's lock. *)
Theorem With_fresh_mutex s p l ks :
  store_ok (heap env s) -> loggers env (heap env s) !! p = Some l ->
  let q := length (loggers env (heap env s)) in
  let s1 := snd (With env p ks s) in
  exists d,
    loggers env (heap env s1) !! q = Some d
    /\ forall a la, loggers env (heap env s) !! a = Some la ->
                    loggers env (heap env s1) !! a = Some la
                    /\ mu env la <> mu env d.
Proof.
  intros H Hl q s1.
  assert (p < length (loggers env (heap env s)))%nat as Hp
    by (eapply lookup_lt_Some; exact Hl).
  unfold s1. rewrite (With_run env s p l ks Hl). cbn [snd heap loggers].
  eexists. split.
  - unfold q. rewrite lookup_app_r, Nat.sub_diag by lia. reflexivity.
  - intros a la Ha. split.
    + rewrite lookup_app_l by (eapply lookup_lt_Some; exact Ha). exact Ha.
    + destruct (store_ok_lookup _ a la H Ha) as (_ & Hm & _).
      cbn [mu set_keyvals set_mu]. lia.
Qed.

End StoreInvariant.

Lemma store_ok_preserved_witness :
  store_ok (heap plainEnv roomyState)
  /\ loggers plainEnv (heap plainEnv roomyState) !! 0%nat = Some roomyLogger
  /\ store_ok (heap plainEnv
                 (snd (With plainEnv 0 [AnyString (go "k"); AnyString (go "v")]
                         roomyState))).
Proof.
  assert (store_ok (heap plainEnv roomyState)) as H1.
  { apply List.Forall_cons; [|apply List.Forall_nil].
    split; [split; simpl; lia | split; [simpl; lia | reflexivity]]. }
  assert (loggers plainEnv (heap plainEnv roomyState) !! 0%nat = Some roomyLogger)
    as H2 by reflexivity.
  split; [exact H1|]. split; [exact H2|].
  destruct (store_ok_preserved plainEnv roomyState 0 roomyLogger H1 H2)
    as (_ & _ & _ & HW & _).
  apply HW.
Defined.

Lemma With_fresh_mutex_witness :
  store_ok (heap plainEnv roomyState)
  /\ loggers plainEnv (heap plainEnv roomyState) !! 0%nat = Some roomyLogger
  /\ exists d,
       loggers plainEnv
         (heap plainEnv (snd (With plainEnv 0 [AnyString (go "k"); AnyString (go "v")]
                                roomyState))) !! 1%nat = Some d
       /\ mu plainEnv roomyLogger <> mu plainEnv d.
Proof.
  assert (store_ok (heap plainEnv roomyState)) as H1.
  { apply List.Forall_cons; [|apply List.Forall_nil].
    split; [split; simpl; lia | split; [simpl; lia | reflexivity]]. }
  assert (loggers plainEnv (heap plainEnv roomyState) !! 0%nat = Some roomyLogger)
    as H2 by reflexivity.
  split; [exact H1|]. split; [exact H2|].
  destruct (With_fresh_mutex plainEnv roomyState 0 roomyLogger
              [AnyString (go "k"); AnyString (go "v")] H1 H2) as (d & Hd & Hfresh).
  exists d. split; [exact Hd|]. exact (proj2 (Hfresh 0%nat roomyLogger H2)).
Defined.
